(** * The Mathrax solver of [solver.py]: model and verified properties

    [solver.py] is a Python 2 module (its last line is the statement
    [print stringify_grid(solution)]), so [/] on its integer operands is
    floor division, which is what [Z.div] computes.

    Modelling conventions.
    - Python integers are [Z]; a cell is a pair of integers; a tuple of
      candidate values is a [list Z].
    - A [dict] is an association list holding its items in insertion
      order; assigning to an existing key keeps its position.  CPython 2
      iterates dicts and sets in hash order: the model fixes insertion
      order (and, for a set of candidate values, the order of the tuple it
      was built from).  The proofs of the general theorems use no property
      of these orders, and each concrete run is commented with what of it
      holds for every order.
    - The dict objects that [Solver.search] creates with [dict(possibles)]
      live in a [heap]; [eliminate_value] and [assign_value] mutate the one
      object they are handed, so they are state transformers on its
      contents, and the state they leave behind is returned also when they
      raise.
    - Exceptions are an explicit [outcome]/[result]; recursion is bounded
      by a fuel argument, and [OutOfFuel] is shown to be unreachable. *)

From Stdlib Require Import String ZArith List Bool Lia Arith FinFun.
Import ListNotations.

Local Open Scope Z_scope.

(** ** Data model *)

Definition cell : Type := Z * Z.

Definition cell_eqb (a b : cell) : bool :=
  (fst a =? fst b) && (snd a =? snd b).

(** [Rule = namedtuple("Rule", ["op", "value"])] *)
Record Rule : Type := mkRule { op : string; value : Z }.

(** [Puzzle = namedtuple("Puzzle", ["size", "rules", "givens"])]; the two
    dicts are given by their items. *)
Record Puzzle : Type := mkPuzzle {
  size : Z;
  rules : list (cell * Rule);
  givens : list (cell * Z)
}.

(** The exceptions the module can raise.  [ValueError] is raised at three
    places, told apart here by what raises it. *)
Inductive exn : Type :=
| Contradiction
| KeyError
| ZeroDivisionError
| ValueError_unhandled_op      (* rule_inverse: "Unhandled rule operation" *)
| ValueError_min_empty         (* min() of an empty sequence, in search *)
| ValueError_no_solution.      (* solve: "Failed to find a solution. :(" *)

Inductive result (A : Type) : Type :=
| Ok (a : A)
| Raise (e : exn)
| OutOfFuel.
Arguments Ok {A} a.
Arguments Raise {A} e.
Arguments OutOfFuel {A}.

(** Outcome of a statement executed for its effect. *)
Definition outcome : Type := result unit.
Abbreviation Done := (@Ok unit tt).

(** ** Dicts keyed by cells *)

Section Dict.
Context {V : Type}.

Fixpoint lookup (d : list (cell * V)) (k : cell) : option V :=
  match d with
  | [] => None
  | (k', v) :: d' => if cell_eqb k' k then Some v else lookup d' k
  end.

(** [d[k] = v] *)
Fixpoint set_item (d : list (cell * V)) (k : cell) (v : V) : list (cell * V) :=
  match d with
  | [] => [(k, v)]
  | (k', v') :: d' =>
      if cell_eqb k' k then (k', v) :: d' else (k', v') :: set_item d' k v
  end.
End Dict.

Definition dict : Type := list (cell * list Z).

Definition mem (v : Z) (l : list Z) : bool := existsb (Z.eqb v) l.

Definition cell_mem (c : cell) (l : list cell) : bool := existsb (cell_eqb c) l.

(** Total number of candidates held by a domain state. *)
Definition total (d : dict) : nat :=
  fold_right (fun kv n => (length (snd kv) + n)%nat) 0%nat d.

(** ** create_peersets *)

(** [range(n)] *)
Definition range (n : Z) : list Z := map Z.of_nat (seq 0 (Z.to_nat n)).

(** [itertools.product(xs, ys)] *)
Definition product (xs ys : list Z) : list cell :=
  flat_map (fun x => map (fun y => (x, y)) ys) xs.

Definition cells (n : Z) : list cell := product (range n) (range n).

Definition all_units (n : Z) : list (list cell) :=
  map (fun i => product (range n) [i]) (range n)
  ++ map (fun i => product [i] (range n)) (range n).

(** [set(l)]: the distinct elements, in order of first occurrence. *)
Fixpoint dedup_cells (l : list cell) : list cell :=
  match l with
  | [] => []
  | c :: l' => c :: filter (fun c' => negb (cell_eqb c c')) (dedup_cells l')
  end.

(** [units_map[c]]; [None] is the [KeyError] of a cell outside the grid. *)
Definition units (n : Z) (c : cell) : option (list (list cell)) :=
  if cell_mem c (cells n)
  then Some (filter (cell_mem c) (all_units n))
  else None.

(** [peers[c]] *)
Definition peers (n : Z) (c : cell) : option (list cell) :=
  match units n c with
  | Some us => Some (filter (fun c' => negb (cell_eqb c c')) (dedup_cells (concat us)))
  | None => None
  end.

(** ** create_rulesets *)

Definition ruleset : Type := list (cell * list (Rule * cell)).

(** [pair_constraints[k].append(e)] on a [defaultdict(list)] *)
Definition append_constraint (pc : ruleset) (k : cell) (e : Rule * cell) : ruleset :=
  match lookup pc k with
  | Some l => set_item pc k (l ++ [e])
  | None => set_item pc k [e]
  end.

(** One iteration of [for (x, y), rule in puzzle.rules.items()]. *)
Definition add_rule (pc : ruleset) (kr : cell * Rule) : ruleset :=
  let '((x, y), rule) := kr in
  let pc := append_constraint pc (x, y) (rule, (x + 1, y + 1)) in
  let pc := append_constraint pc (x + 1, y) (rule, (x, y + 1)) in
  let pc := append_constraint pc (x, y + 1) (rule, (x + 1, y)) in
  append_constraint pc (x + 1, y + 1) (rule, (x, y)).

Definition create_rulesets (p : Puzzle) : ruleset :=
  fold_left add_rule (rules p) [].

(** ** rule_inverse and rule_complement *)

(** Python 2 [a / b] on integers: floor division, [None] for the
    [ZeroDivisionError]. *)
Definition py_div (a b : Z) : option Z :=
  if b =? 0 then None else Some (a / b).

(** A set literal: distinct elements. *)
Fixpoint dedup (l : list Z) : list Z :=
  match l with
  | [] => []
  | v :: l' => v :: filter (fun v' => negb (v =? v')) (dedup l')
  end.

Definition rule_inverse (rule : Rule) (v maximum : Z) : result (list Z) :=
  let target := value rule in
  let keep (values : list Z) :=
    Ok (filter (fun w => (0 <? w) && (w <=? maximum)) (dedup values)) in
  if String.eqb (op rule) "+" then keep [target - v]
  else if String.eqb (op rule) "-" then keep [target + v; v - target]
  else if String.eqb (op rule) "*" then
    match py_div target v with
    | Some q => keep [q]
    | None => Raise ZeroDivisionError
    end
  else if String.eqb (op rule) "/" then
    match py_div v target with
    | Some q => keep [target * v; q]
    | None => Raise ZeroDivisionError
    end
  else Raise ValueError_unhandled_op.

(** [vset.union(s)] *)
Definition union (vset s : list Z) : list Z :=
  vset ++ filter (fun w => negb (mem w vset)) s.

Fixpoint rule_complement_from (rule : Rule) (values : list Z) (maximum : Z)
    (vset : list Z) : result (list Z) :=
  match values with
  | [] => Ok vset
  | v :: values' =>
      match rule_inverse rule v maximum with
      | Ok s => rule_complement_from rule values' maximum (union vset s)
      | Raise e => Raise e
      | OutOfFuel => OutOfFuel
      end
  end.

Definition rule_complement (rule : Rule) (values : list Z) (maximum : Z)
    : result (list Z) :=
  rule_complement_from rule values maximum [].

Definition is_parity (rule : Rule) : bool :=
  String.eqb (op rule) "e" || String.eqb (op rule) "o".

(** ** The propagator: Solver.assign_value and Solver.eliminate_value *)

(** [Solver.__init__]: the solver keeps the puzzle and the rule-constraint
    map; [self.peers] and [self.units] are [peers] and [units] at the
    puzzle's size. *)
Record Solver : Type := mkSolver {
  puzzle : Puzzle;
  rule_constraints : ruleset
}.

Definition Solver_init (p : Puzzle) : Solver := mkSolver p (create_rulesets p).

(** Sequencing: the rest of a method body runs only if what came before
    raised nothing. *)
Definition and_then (r : dict * outcome) (k : dict -> dict * outcome)
    : dict * outcome :=
  match r with
  | (d, Ok _) => k d
  | _ => r
  end.

(** A [for] loop whose body mutates the dict: it stops at the first
    exception, leaving the dict as the failing iteration left it. *)
Fixpoint for_each {A : Type} (body : dict -> A -> dict * outcome)
    (xs : list A) (d : dict) : dict * outcome :=
  match xs with
  | [] => (d, Done)
  | x :: xs' => and_then (body d x) (for_each body xs')
  end.

(** [tuple(v for v in dom if v != value)] *)
Definition without (value : Z) (dom : list Z) : list Z :=
  filter (fun v => negb (v =? value)) dom.

(** [[c for c in unit if value in possibles[c]]] *)
Fixpoint places (d : dict) (unit : list cell) (value : Z) : option (list cell) :=
  match unit with
  | [] => Some []
  | c :: unit' =>
      match lookup d c, places d unit' value with
      | Some dom, Some l => Some (if mem value dom then c :: l else l)
      | _, _ => None
      end
  end.

Section Propagator.
Variable self : Solver.

Let n : Z := size (puzzle self).

(** The bodies of the two methods, over the recursive call [elim] to
    [eliminate_value]. *)
Section Bodies.
Variable elim : dict -> cell -> Z -> dict * outcome.

Definition assign_body (possibles : dict) (index : cell) (value : Z)
    : dict * outcome :=
  match lookup possibles index with
  | None => (possibles, Raise KeyError)
  | Some dom =>
      for_each (fun d r => elim d index r) (without value dom) possibles
  end.

(** Lines 202-208: what follows the removal, by the length of what is
    left in [possibles[index]]. *)
Definition check_length (index : cell) (possibles : dict) : dict * outcome :=
  match lookup possibles index with
  | None => (possibles, Raise KeyError)
  | Some [] => (possibles, Raise Contradiction)
  | Some [v2] =>
      match peers n index with
      | None => (possibles, Raise KeyError)
      | Some ps => for_each (fun d c => elim d c v2) ps possibles
      end
  | Some _ => (possibles, Done)
  end.

(** One iteration of [for unit in self.units[index]]. *)
Definition check_unit (value : Z) (possibles : dict) (unit : list cell)
    : dict * outcome :=
  match places possibles unit value with
  | None => (possibles, Raise KeyError)
  | Some [] => (possibles, Raise Contradiction)
  | Some [c] => assign_body possibles c value
  | Some _ => (possibles, Done)
  end.

Definition check_units (index : cell) (value : Z) (possibles : dict)
    : dict * outcome :=
  match units n index with
  | None => (possibles, Raise KeyError)
  | Some us => for_each (check_unit value) us possibles
  end.

(** One iteration of [for rule, idx2 in self.rule_constraints[index]]. *)
Definition check_rule (index : cell) (possibles : dict) (entry : Rule * cell)
    : dict * outcome :=
  let '(rule, idx2) := entry in
  if is_parity rule then (possibles, Done)
  else
    match lookup possibles index with
    | None => (possibles, Raise KeyError)
    | Some dom =>
        match rule_complement rule dom n with
        | Raise e => (possibles, Raise e)
        | OutOfFuel => (possibles, OutOfFuel)
        | Ok allowed0 =>
            match lookup possibles idx2 with
            | None => (possibles, Raise KeyError)
            | Some dom2 =>
                let original := dedup dom2 in
                let allowed := filter (fun w => mem w original) allowed0 in
                match allowed with
                | [] => (possibles, Raise Contradiction)
                | _ =>
                    for_each (fun d v2 => elim d idx2 v2)
                      (filter (fun w => negb (mem w allowed)) original)
                      possibles
                end
            end
        end
    end.

Definition check_rules (index : cell) (possibles : dict) : dict * outcome :=
  match lookup (rule_constraints self) index with
  | None => (possibles, Done)
  | Some entries => for_each (check_rule index) entries possibles
  end.

(** Everything [eliminate_value] does once the value is removed. *)
Definition propagate (index : cell) (value : Z) (possibles : dict)
    : dict * outcome :=
  and_then (check_length index possibles) (fun possibles =>
  and_then (check_units index value possibles) (check_rules index)).

Definition eliminate_body (possibles : dict) (index : cell) (value : Z)
    : dict * outcome :=
  match lookup possibles index with
  | None => (possibles, Raise KeyError)
  | Some dom =>
      if negb (mem value dom) then (possibles, Done)
      else propagate index value (set_item possibles index (without value dom))
  end.
End Bodies.

Fixpoint eliminate_value (fuel : nat) (possibles : dict) (index : cell)
    (value : Z) : dict * outcome :=
  match fuel with
  | O => (possibles, OutOfFuel)
  | S fuel' => eliminate_body (eliminate_value fuel') possibles index value
  end.

Definition assign_value (fuel : nat) : dict -> cell -> Z -> dict * outcome :=
  assign_body (eliminate_value fuel).

(** ** The search engine: Solver.search *)

(** Every dict object created so far; a reference is an index. *)
Definition heap : Type := list dict.

Definition deref (h : heap) (r : nat) : dict := nth r h [].

Fixpoint store (h : heap) (r : nat) (d : dict) : heap :=
  match h, r with
  | [], _ => []
  | _ :: h', O => d :: h'
  | d' :: h', S r' => d' :: store h' r' d
  end.

(** [dict(possibles)]: a new object with the same items. *)
Definition copy_dict (h : heap) (r : nat) : heap * nat :=
  (h ++ [deref h r], List.length h).

(** [assign_value] on the object behind a reference. *)
Definition assign_value_at (fuel : nat) (h : heap) (r : nat) (index : cell)
    (value : Z) : heap * outcome :=
  let '(d, o) := assign_value fuel (deref h r) index value in
  (store h r d, o).

(** [min(remaining, key=...)]: the first element with the least key. *)
Fixpoint min_by (key : cell -> nat) (l : list cell) : option cell :=
  match l with
  | [] => None
  | c :: l' =>
      match min_by key l' with
      | None => Some c
      | Some m => if (key m <? key c)%nat then Some m else Some c
      end
  end.

Definition len_at (d : dict) (k : cell) : nat :=
  match lookup d k with
  | Some dom => List.length dom
  | None => O
  end.

Definition solved (d : dict) : bool :=
  forallb (fun kv => (List.length (snd kv) =? 1)%nat) d.

(** [{k: v[0] for k, v in possibles.items()}] *)
Definition grid_of (d : dict) : list (cell * Z) :=
  map (fun kv => (fst kv, hd 0 (snd kv))) d.

Definition grid : Type := list (cell * Z).

Section SearchBody.
Variable fuel : nat.
Variable rec : heap -> nat -> heap * result grid.

(** One iteration of [for value in possibles[min_idx]]: [None] when the
    [except Contradiction: pass] is taken. *)
Definition try_value (possibles : nat) (min_idx : cell) (h : heap) (value : Z)
    : heap * option (result grid) :=
  let '(h, next_possibles) := copy_dict h possibles in
  match assign_value_at fuel h next_possibles min_idx value with
  | (h, Ok _) =>
      match rec h next_possibles with
      | (h, Raise Contradiction) => (h, None)
      | (h, r) => (h, Some r)
      end
  | (h, Raise Contradiction) => (h, None)
  | (h, Raise e) => (h, Some (Raise e))
  | (h, OutOfFuel) => (h, Some OutOfFuel)
  end.

Fixpoint try_values (possibles : nat) (min_idx : cell) (values : list Z)
    (h : heap) : heap * result grid :=
  match values with
  | [] => (h, Raise Contradiction)
  | value :: values' =>
      match try_value possibles min_idx h value with
      | (h, Some r) => (h, r)
      | (h, None) => try_values possibles min_idx values' h
      end
  end.

Definition search_body (h : heap) (possibles : nat) : heap * result grid :=
  let d := deref h possibles in
  if solved d then (h, Ok (grid_of d))
  else
    let remaining := filter (fun k => (1 <? len_at d k)%nat) (map fst d) in
    match min_by (len_at d) remaining with
    | None => (h, Raise ValueError_min_empty)
    | Some min_idx =>
        match lookup d min_idx with
        | None => (h, Raise KeyError)
        | Some values => try_values possibles min_idx values h
        end
    end.
End SearchBody.

Fixpoint search (fuel : nat) (h : heap) (possibles : nat) : heap * result grid :=
  match fuel with
  | O => (h, OutOfFuel)
  | S fuel' => search_body fuel (search fuel') h possibles
  end.

(** ** Solver.solve

    The statement [things = sorted(possibles.items())] of [solve] has no
    effect and is left out. *)

Definition is_even (v : Z) : bool := v mod 2 =? 0.
Definition is_odd (v : Z) : bool := v mod 2 =? 1.

(** One iteration of [for rule, partner in rules] of the seeding pass. *)
Definition seed_rule (idx : cell) (possibles : dict) (entry : Rule * cell)
    : dict * outcome :=
  let '(rule, partner) := entry in
  if String.eqb (op rule) "e" then
    match lookup possibles idx with
    | None => (possibles, Raise KeyError)
    | Some dom => (set_item possibles idx (filter is_even dom), Done)
    end
  else if String.eqb (op rule) "o" then
    match lookup possibles idx with
    | None => (possibles, Raise KeyError)
    | Some dom => (set_item possibles idx (filter is_odd dom), Done)
    end
  else
    match lookup possibles partner with
    | None => (possibles, Raise KeyError)
    | Some pdom =>
        match rule_complement rule pdom n with
        | Raise e => (possibles, Raise e)
        | OutOfFuel => (possibles, OutOfFuel)
        | Ok allowed =>
            match lookup possibles idx with
            | None => (possibles, Raise KeyError)
            | Some dom =>
                (set_item possibles idx
                   (filter (fun w => mem w allowed) (dedup dom)), Done)
            end
        end
    end.

(** [{c : tuple([n+1 for n in range(size)]) for c in self.cells}] *)
Definition initial_possibles : dict :=
  map (fun c => (c, map (fun i => i + 1) (range n))) (cells n).

(** The first loop of [solve]. *)
Definition seed (possibles : dict) : dict * outcome :=
  for_each (fun d (item : cell * list (Rule * cell)) =>
              for_each (seed_rule (fst item)) (snd item) d)
    (rule_constraints self) possibles.

(** The second loop of [solve]. *)
Definition apply_givens (fuel : nat) (possibles : dict) : dict * outcome :=
  for_each (fun d (item : cell * Z) => assign_value fuel d (fst item) (snd item))
    (givens (puzzle self)) possibles.

(** Everything [solve] does before it calls [search]. *)
Definition setup (fuel : nat) : dict * outcome :=
  match seed initial_possibles with
  | (possibles, Ok _) => apply_givens fuel possibles
  | r => r
  end.

Definition solve_with (fuel : nat) : result grid :=
  match setup fuel with
  | (possibles, Ok _) =>
      match snd (search fuel [possibles] 0) with
      | Raise Contradiction => Raise ValueError_no_solution
      | r => r
      end
  | (_, Raise e) => Raise e
  | (_, OutOfFuel) => OutOfFuel
  end.

(** Enough fuel for any run: one more than the number of candidates of the
    initial state. *)
Definition enough_fuel : nat := S (total initial_possibles).

Definition Solver_solve : result grid := solve_with enough_fuel.
End Propagator.

(** [Solver(puzzle).solve()] *)
Definition solve (p : Puzzle) : result grid := Solver_solve (Solver_init p).

(** * Specification vocabulary *)

(** ** Puzzles used as concrete inputs *)

(** [EXAMPLE] of [solver.py]. *)
Definition EXAMPLE : Puzzle :=
  mkPuzzle 6
    [((0, 0), mkRule "/" 2); ((1, 4), mkRule "-" 1); ((2, 3), mkRule "/" 2);
     ((3, 1), mkRule "+" 8); ((3, 4), mkRule "-" 2)]
    [((0, 3), 2); ((3, 0), 4); ((3, 5), 2); ((4, 0), 6)].

Definition EXAMPLE_grid : grid :=
  [((0,0),3); ((0,1),1); ((0,2),4); ((0,3),2); ((0,4),6); ((0,5),5);
   ((1,0),2); ((1,1),6); ((1,2),1); ((1,3),4); ((1,4),5); ((1,5),3);
   ((2,0),1); ((2,1),3); ((2,2),5); ((2,3),6); ((2,4),2); ((2,5),4);
   ((3,0),4); ((3,1),5); ((3,2),6); ((3,3),1); ((3,4),3); ((3,5),2);
   ((4,0),6); ((4,1),2); ((4,2),3); ((4,3),5); ((4,4),4); ((4,5),1);
   ((5,0),5); ((5,1),4); ((5,2),2); ((5,3),3); ((5,4),1); ((5,5),6)].

(** A 2x2 grid whose only block is marked even. *)
Definition even_block : Puzzle := mkPuzzle 2 [((0, 0), mkRule "e" 0)] [].

(** A 2x2 grid whose only block has product 5. *)
Definition product_five_small : Puzzle := mkPuzzle 2 [((0, 0), mkRule "*" 5)] [].

(** A 5x5 grid whose top-left block has product 5, with that block given. *)
Definition product_five : Puzzle :=
  mkPuzzle 5 [((0, 0), mkRule "*" 5)]
    [((0, 0), 1); ((0, 1), 2); ((1, 0), 2); ((1, 1), 5)].

Definition product_five_grid : grid :=
  [((0,0),1); ((0,1),2); ((0,2),3); ((0,3),4); ((0,4),5);
   ((1,0),2); ((1,1),5); ((1,2),1); ((1,3),3); ((1,4),4);
   ((2,0),3); ((2,1),1); ((2,2),4); ((2,3),5); ((2,4),2);
   ((3,0),4); ((3,1),3); ((3,2),5); ((3,3),2); ((3,4),1);
   ((4,0),5); ((4,1),4); ((4,2),2); ((4,3),1); ((4,4),3)].

(** Two equal givens in one row. *)
Definition conflicting_givens : Puzzle := mkPuzzle 2 [] [((0, 0), 1); ((0, 1), 1)].

(** A 2x2 grid whose diagonals must differ by 1: no Latin square has that. *)
Definition difference_one : Puzzle := mkPuzzle 2 [((0, 0), mkRule "-" 1)] [].

(** A rule no pair of values satisfies, and a given on one of its cells. *)
Definition sum_hundred (v : Z) : Puzzle :=
  mkPuzzle 2 [((0, 0), mkRule "+" 100)] [((0, 0), v)].

(** A rule anchored at the last cell of a 3x3 grid. *)
Definition corner_anchor : Puzzle := mkPuzzle 3 [((2, 2), mkRule "+" 3)] [].

(** A given outside [1, N]. *)
Definition given_five : Puzzle := mkPuzzle 2 [] [((0, 0), 5)].

(** The empty 2x2 puzzle, its solver and its initial state. *)
Definition empty_two : Puzzle := mkPuzzle 2 [] [].

Definition empty_two_solver : Solver := Solver_init empty_two.

Definition empty_two_state : dict := initial_possibles empty_two_solver.

(** The solver of [difference_one] and the heap [search] starts from. *)
Definition difference_one_solver : Solver := Solver_init difference_one.

Definition difference_one_heap : heap :=
  [initial_possibles difference_one_solver].

(** Every domain empty: what the seeding pass makes of [sum_hundred]. *)
Definition all_empty : dict :=
  [((0, 0), []); ((0, 1), []); ((1, 0), []); ((1, 1), [])].

(** The grid of four equal values. *)
Definition constant_grid (v : Z) : grid :=
  [((0, 0), v); ((0, 1), v); ((1, 0), v); ((1, 1), v)].

(** ** Solved grids *)

(** The number of cells of [u] that the grid maps to [w]. *)
Definition occurrences (g : grid) (u : list cell) (w : Z) : nat :=
  List.length
    (filter (fun c => match lookup g c with
                      | Some x => x =? w
                      | None => false
                      end) u).

(** The grid gives every cell a value, and every row and column holds each
    value of [1, N] exactly once. *)
Definition latin_square (n : Z) (g : grid) : bool :=
  forallb (fun c => match lookup g c with
                    | Some _ => true
                    | None => false
                    end) (cells n)
  && forallb (fun u =>
                forallb (fun w => (occurrences g u w =? 1)%nat)
                  (map (fun i => i + 1) (range n)))
       (all_units n).

(** The operator of a binary rule applied to an unordered pair of values
    yields the target. *)
Definition rule_holds (rule : Rule) (a b : Z) : bool :=
  if String.eqb (op rule) "+" then a + b =? value rule
  else if String.eqb (op rule) "-" then Z.abs (a - b) =? value rule
  else if String.eqb (op rule) "*" then a * b =? value rule
  else if String.eqb (op rule) "/" then
    (a =? value rule * b) || (b =? value rule * a)
  else true.

Definition pair_holds (g : grid) (rule : Rule) (c1 c2 : cell) : bool :=
  match lookup g c1, lookup g c2 with
  | Some a, Some b => rule_holds rule a b
  | _, _ => false
  end.

(** Every declared rule holds on both diagonal pairs of its block. *)
Definition junction_rules_hold (p : Puzzle) (g : grid) : bool :=
  forallb (fun kr : cell * Rule =>
             let '((x, y), rule) := kr in
             pair_holds g rule (x, y) (x + 1, y + 1)
             && pair_holds g rule (x + 1, y) (x, y + 1))
    (rules p).

(** ** The inverse set as the specification words it

    sum: [{target - value}]; difference: [{target + value, value - target}];
    product: [{target / value}] kept only when [target] is exactly divisible
    by [value]; quotient: [{target * value, value / target}], the second
    kept only when [value] is exactly divisible by [target]; all of it
    intersected with [1, maximum]. *)
Definition rule_inverse_spec (rule : Rule) (v maximum : Z) : list Z :=
  let target := value rule in
  filter (fun w => (1 <=? w) && (w <=? maximum))
    (dedup
       (if String.eqb (op rule) "+" then [target - v]
        else if String.eqb (op rule) "-" then [target + v; v - target]
        else if String.eqb (op rule) "*" then
          if negb (v =? 0) && (target mod v =? 0) then [target / v] else []
        else if String.eqb (op rule) "/" then
          target * v ::
          (if negb (target =? 0) && (v mod target =? 0) then [v / target] else [])
        else [])).

(** ** Malformed puzzles *)





(** ** Relations between domain states *)

(** [R] holds from the state before [c] to the state after it, for the
    outcomes selected by [sel]. *)
Definition preserves (R : dict -> dict -> Prop) (sel : outcome -> Prop)
    (c : dict -> dict * outcome) : Prop :=
  forall d d' o, c d = (d', o) -> sel o -> R d d'.

(** On a state with fewer than [bound] candidates, [c] does not run out of
    fuel. *)
Definition safe (bound : nat) (c : dict -> dict * outcome) : Prop :=
  forall d, (total d < bound)%nat -> snd (c d) <> OutOfFuel.

(** [sub_dom l' l]: the candidates [l'] are among the candidates [l], no more
    numerous, and distinct if those of [l] are. *)
Definition sub_dom (l' l : list Z) : Prop :=
  incl l' l /\ (List.length l' <= List.length l)%nat /\ (NoDup l -> NoDup l').

(** [shrinks d d']: [d'] has the keys of [d], each with some of its
    candidates. *)
Definition shrinks (d d' : dict) : Prop :=
  Forall2 (fun kv kv' => fst kv' = fst kv /\ sub_dom (snd kv') (snd kv)) d d'.

(** Second instance: a normal return never leaves a domain empty that was
    not empty before. *)
Definition keeps_nonempty (d d' : dict) : Prop :=
  shrinks d d' /\
  forall k l l', lookup d k = Some l -> lookup d' k = Some l' -> l <> [] -> l' <> [].

Definition mono (c : dict -> dict * outcome) : Prop :=
  forall d, shrinks d (fst (c d)).

(** [extends h h']: every object of [h] is still there in [h'], with the
    contents it had. *)
Definition extends (h h' : heap) : Prop :=
  (List.length h <= List.length h')%nat /\
  forall r, (r < List.length h)%nat -> deref h' r = deref h r.

(** The candidates of every cell are distinct. *)
Definition distinct (d : dict) : Prop :=
  forall k l, lookup d k = Some l -> NoDup l.

Definition full_domain (n : Z) : list Z := map (fun i => i + 1) (range n).

Definition entries_nonempty (rc : ruleset) : Prop :=
  forall k l, In (k, l) rc -> l <> [].



(** The candidates of a cell ([[]] for a cell that is no key). *)
Definition cand (d : dict) (c : cell) : list Z :=
  match lookup d c with
  | Some l => l
  | None => []
  end.

(** The cell [c] held [w] in [d0] and no longer holds it in [d']. *)
Definition lostb (d0 d' : dict) (w : Z) (c : cell) : bool :=
  mem w (cand d0 c) && negb (mem w (cand d' c)).

(** The cell [c] is resolved to [w]. *)
Definition only (d : dict) (c : cell) (w : Z) : Prop :=
  exists l, lookup d c = Some l /\ l <> [] /\ forall x, In x l -> x = w.

(** The unit [u] has a place left for [w], and if it has exactly one, that
    cell is resolved to [w]. *)
Definition unit_ok (d : dict) (u : list cell) (w : Z) : Prop :=
  exists ps, places d u w = Some ps /\ ps <> [] /\
             forall c, ps = [c] -> only d c w.

(** Every unit that lost a place for a value between [d0] and [d'] is in
    order in [d']. *)
Definition units_kept (n : Z) (d0 d' : dict) : Prop :=
  keeps_nonempty d0 d' /\
  forall u w, In u (all_units n) -> existsb (lostb d0 d' w) u = true ->
              unit_ok d' u w.

(** A grid returned from the state [d]: that of a solved state reached from
    [d] by removing candidates. *)
Definition from_state (d : dict) (g : grid) : Prop :=
  exists d', shrinks d d' /\ solved d' = true /\ g = grid_of d'.

(** ** Vocabulary for the further properties *)

(** [c'] is among [peers[c]]; [false] where [peers[c]] is a [KeyError]. *)
Definition is_peer (n : Z) (c c' : cell) : bool :=
  match peers n c with
  | Some ps => cell_mem c' ps
  | None => false
  end.

(** [self.rule_constraints[c]], empty where [c] is no key. *)
Definition entries (rc : ruleset) (c : cell) : list (Rule * cell) :=
  match lookup rc c with
  | Some l => l
  | None => []
  end.

(** The four cells of the block anchored at [(x, y)], each with the cell
    diagonally across. *)
Definition block_pairs (x y : Z) : list (cell * cell) :=
  [((x, y), (x + 1, y + 1)); ((x + 1, y), (x, y + 1));
   ((x, y + 1), (x + 1, y)); ((x + 1, y + 1), (x, y))].

(** The operator tags [rule_inverse] handles. *)
Definition binary_op (rule : Rule) : bool :=
  String.eqb (op rule) "+" || String.eqb (op rule) "-"
  || String.eqb (op rule) "*" || String.eqb (op rule) "/".

(** [self.peers[c]], empty where [c] is no key. *)
Definition peers_of (n : Z) (c : cell) : list cell :=
  match peers n c with
  | Some ps => ps
  | None => []
  end.

(** No resolved cell shares its value with the candidates of a peer. *)
Definition peers_clear (n : Z) (d : dict) : bool :=
  forallb (fun kv : cell * list Z =>
             match snd kv with
             | [v] => forallb (fun c' => negb (mem v (cand d c')))
                        (peers_of n (fst kv))
             | _ => true
             end) d.

(** Every cell that came down to one candidate between [d0] and [d'] has
    that candidate removed from its peers in [d']. *)
Definition peers_cleared (n : Z) (d0 d' : dict) : Prop :=
  keeps_nonempty d0 d' /\
  forall c v c',
    List.length (cand d0 c) <> 1%nat -> cand d' c = [v] ->
    In c' (peers_of n c) -> ~ In v (cand d' c').

(** The property of [peers_clear], cell by cell. *)
Definition peers_distinct (n : Z) (d : dict) : Prop :=
  forall c v c', cand d c = [v] -> In c' (peers_of n c) -> ~ In v (cand d c').

(** The state [solve] reaches on [EXAMPLE] after its seeding loop. *)
Definition EXAMPLE_seeded : dict :=
  Eval vm_compute in
    fst (seed (Solver_init EXAMPLE) (initial_possibles (Solver_init EXAMPLE))).

(** [EXAMPLE_2] of [solver.py], the puzzle the module solves when run. *)
Definition EXAMPLE_2 : Puzzle :=
  mkPuzzle 7
    [((0, 3), mkRule "-" 3); ((1, 1), mkRule "o" 0); ((1, 3), mkRule "-" 2);
     ((2, 4), mkRule "+" 5); ((3, 0), mkRule "-" 2); ((3, 2), mkRule "-" 1);
     ((4, 1), mkRule "-" 1); ((4, 5), mkRule "*" 6); ((5, 0), mkRule "*" 4)]
    [].

Definition EXAMPLE_2_grid : grid :=
  [((0,0),3); ((0,1),5); ((0,2),2); ((0,3),6); ((0,4),7); ((0,5),1); ((0,6),4);
   ((1,0),6); ((1,1),1); ((1,2),5); ((1,3),4); ((1,4),3); ((1,5),7); ((1,6),2);
   ((2,0),7); ((2,1),3); ((2,2),1); ((2,3),5); ((2,4),2); ((2,5),4); ((2,6),6);
   ((3,0),4); ((3,1),7); ((3,2),6); ((3,3),2); ((3,4),1); ((3,5),3); ((3,6),5);
   ((4,0),5); ((4,1),6); ((4,2),3); ((4,3),7); ((4,4),4); ((4,5),2); ((4,6),1);
   ((5,0),2); ((5,1),4); ((5,2),7); ((5,3),1); ((5,4),5); ((5,5),6); ((5,6),3);
   ((6,0),1); ((6,1),2); ((6,2),4); ((6,3),3); ((6,4),6); ((6,5),5); ((6,6),7)].

(** No cell has more than one candidate. *)
Definition no_choice (d : dict) : bool :=
  forallb (fun kv : cell * list Z => (List.length (snd kv) <=? 1)%nat) d.

(** ** stringify_grid

    The grid is a dict from cells to integers, given by its items.  The
    model covers what list indexing does with negative and out-of-range
    indices, since the keys index the rows and the columns. *)

From Stdlib Require DecimalString.

(** What [stringify_grid] can raise: the [ValueError] of [max] on an empty
    grid, and the [IndexError] of a list index out of range. *)
Inductive render_exn : Type :=
| ValueError_max_empty
| IndexError.

Inductive rendering : Type :=
| Rendered (s : string)
| RenderError (e : render_exn).

(** [max(l, key=...)]: the first element with the greatest key. *)
Fixpoint max_by (key : cell -> Z) (l : list cell) : option cell :=
  match l with
  | [] => None
  | c :: l' =>
      match max_by key l' with
      | None => Some c
      | Some m => if key c <? key m then Some m else Some c
      end
  end.

(** [str(v)] for an integer. *)
Definition str_of_int (v : Z) : string :=
  DecimalString.NilZero.string_of_int (Z.to_int v).

(** The position a list of length [len] gives the index [i]: negative
    indices count from the end; [None] is the [IndexError]. *)
Definition py_index (len : nat) (i : Z) : option nat :=
  if (0 <=? i) && (i <? Z.of_nat len) then Some (Z.to_nat i)
  else if (- Z.of_nat len <=? i) && (i <? 0) then Some (Z.to_nat (i + Z.of_nat len))
  else None.

Fixpoint set_nth {A : Type} (l : list A) (k : nat) (a : A) : list A :=
  match l, k with
  | [], _ => []
  | _ :: l', O => a :: l'
  | b :: l', S k' => b :: set_nth l' k' a
  end.

(** [strings[y][x] = s] *)
Definition set_entry (strings : list (list string)) (y x : Z) (s : string)
    : option (list (list string)) :=
  match py_index (List.length strings) y with
  | None => None
  | Some j =>
      let row := nth j strings [] in
      match py_index (List.length row) x with
      | None => None
      | Some k => Some (set_nth strings j (set_nth row k s))
      end
  end.

(** [grid[c]] for a key [c] of the grid. *)
Definition value_at (g : grid) (c : cell) : Z :=
  match lookup g c with
  | Some v => v
  | None => 0
  end.

(** [for y, x in grid: strings[y][x] = str(grid[(y, x)])] *)
Fixpoint fill (g : grid) (keys : list cell) (strings : list (list string))
    : option (list (list string)) :=
  match keys with
  | [] => Some strings
  | (y, x) :: keys' =>
      match set_entry strings y x (str_of_int (value_at g (y, x))) with
      | Some strings' => fill g keys' strings'
      | None => None
      end
  end.

Definition newline : string := String (Ascii.ascii_of_nat 10) EmptyString.

Definition stringify_grid (g : grid) : rendering :=
  match max_by fst (map fst g), max_by snd (map fst g) with
  | Some ky, Some kx =>
      let my := fst ky + 1 in
      let mx := snd kx + 1 in
      let strings := map (fun _ => repeat "."%string (Z.to_nat mx)) (range my) in
      match fill g (map fst g) strings with
      | Some strings =>
          Rendered (String.concat newline (map (String.concat "") strings))
      | None => RenderError IndexError
      end
  | _, _ => RenderError ValueError_max_empty
  end.

(** Row [y] of an [n] by [n] grid as text. *)
Definition row_text (g : grid) (n y : Z) : string :=
  String.concat "" (map (fun x => str_of_int (value_at g (y, x))) (range n)).

(** The rows of [EXAMPLE_grid] as [stringify_grid] prints them. *)
Definition EXAMPLE_text : string :=
  Eval vm_compute in
    String.concat newline
      ["314265"; "261453"; "135624"; "456132"; "623541"; "542316"]%string.

(** The rows of strings once the cells selected by [P] are written. *)
Definition matrix (n : Z) (P : cell -> bool) (g : grid) : list (list string) :=
  map (fun y =>
         map (fun x => if P (y, x) then str_of_int (value_at g (y, x))
                       else "."%string)
           (range n))
    (range n).

(** ** Vocabulary for the junction rules *)

(** [w] is among the values [rule_inverse] returns for [a]. *)
Definition inv_mem (n : Z) (rule : Rule) (a w : Z) : Prop :=
  exists s, rule_inverse rule a n = Ok s /\ In w s.

(** The cell [c] lost a candidate between [d0] and [d']. *)
Definition changedb (d0 d' : dict) (c : cell) : bool :=
  existsb (fun w => negb (mem w (cand d' c))) (cand d0 c).

(** Every candidate of [c2] is an inverse, under the rule, of a candidate
    of [c]. *)
Definition narrowed (n : Z) (d : dict) (rule : Rule) (c c2 : cell) : Prop :=
  forall w2, In w2 (cand d c2) -> exists a, In a (cand d c) /\ inv_mem n rule a w2.

(** Every cell that lost a candidate between [d0] and [d'] has the
    partners of its binary rules narrowed in [d']. *)
Definition partners_narrowed (self : Solver) (d0 d' : dict) : Prop :=
  keeps_nonempty d0 d' /\
  forall c rule c2,
    In (rule, c2) (entries (rule_constraints self) c) ->
    is_parity rule = false -> changedb d0 d' c = true ->
    narrowed (size (puzzle self)) d' rule c c2.

(** The cell [c] has candidates, all of them [a]. *)
Definition resolved_to (d : dict) (c : cell) (a : Z) : Prop :=
  cand d c <> [] /\ forall x, In x (cand d c) -> x = a.

(** Whenever both cells of a pair under a binary rule are resolved, one
    value is an inverse of the other. *)
Definition pairs_ok (self : Solver) (d : dict) : Prop :=
  forall c rule c2 a b,
    In (rule, c2) (entries (rule_constraints self) c) ->
    is_parity rule = false ->
    resolved_to d c a -> resolved_to d c2 b ->
    inv_mem (size (puzzle self)) rule a b \/ inv_mem (size (puzzle self)) rule b a.

(** * Properties *)

(** ** Cells and dicts *)

Lemma cell_eqb_eq (a b : cell) : cell_eqb a b = true <-> a = b.
Proof.
  destruct a as [a1 a2], b as [b1 b2]; unfold cell_eqb; simpl.
  rewrite andb_true_iff, !Z.eqb_eq. split.
  - intros [-> ->]; reflexivity.
  - intros H; inversion H; auto.
Qed.

Lemma cell_eqb_refl (a : cell) : cell_eqb a a = true.
Proof. apply cell_eqb_eq; reflexivity. Qed.

Lemma cell_eqb_neq (a b : cell) : cell_eqb a b = false <-> a <> b.
Proof.
  rewrite <- cell_eqb_eq. destruct (cell_eqb a b); split; congruence.
Qed.

Lemma cell_eq_dec (a b : cell) : {a = b} + {a <> b}.
Proof.
  destruct (cell_eqb a b) eqn:E.
  - left; apply cell_eqb_eq; exact E.
  - right; apply cell_eqb_neq; exact E.
Qed.

Lemma mem_In (v : Z) (l : list Z) : mem v l = true <-> In v l.
Proof.
  unfold mem. rewrite existsb_exists. split.
  - intros (x & Hx & E). apply Z.eqb_eq in E. subst; exact Hx.
  - intros H. exists v. split; [exact H | apply Z.eqb_refl].
Qed.

Lemma mem_false (v : Z) (l : list Z) : mem v l = false <-> ~ In v l.
Proof.
  rewrite <- mem_In. destruct (mem v l); split; congruence.
Qed.

Lemma cell_mem_In (c : cell) (l : list cell) : cell_mem c l = true <-> In c l.
Proof.
  unfold cell_mem. rewrite existsb_exists. split.
  - intros (x & Hx & E). apply cell_eqb_eq in E. subst; exact Hx.
  - intros H. exists c. split; [exact H | apply cell_eqb_refl].
Qed.

Section DictFacts.
Context {V : Type}.
Implicit Types (d : list (cell * V)) (k : cell) (v : V).

Lemma lookup_set_item_same d k v : lookup (set_item d k v) k = Some v.
Proof.
  induction d as [|[k' v'] d IH]; simpl.
  - rewrite cell_eqb_refl; reflexivity.
  - destruct (cell_eqb k' k) eqn:E; simpl; rewrite E; auto.
Qed.

Lemma lookup_set_item_other d k k' v :
  k <> k' -> lookup (set_item d k v) k' = lookup d k'.
Proof.
  intros Hne. induction d as [|[k0 v0] d IH]; simpl.
  - apply cell_eqb_neq in Hne. rewrite Hne; reflexivity.
  - destruct (cell_eqb k0 k) eqn:E; simpl.
    + apply cell_eqb_eq in E; subst k0.
      apply cell_eqb_neq in Hne. rewrite Hne; reflexivity.
    + rewrite IH; reflexivity.
Qed.

Lemma lookup_In d k v : lookup d k = Some v -> In (k, v) d.
Proof.
  induction d as [|[k' v'] d IH]; simpl; [discriminate|].
  destruct (cell_eqb k' k) eqn:E.
  - apply cell_eqb_eq in E. intros [= ->]. left; congruence.
  - intros H; right; auto.
Qed.

Lemma lookup_keys d k : lookup d k <> None <-> In k (map fst d).
Proof.
  induction d as [|[k' v'] d IH]; simpl.
  - split; [congruence | tauto].
  - destruct (cell_eqb k' k) eqn:E.
    + apply cell_eqb_eq in E. split; [auto | congruence].
    + apply cell_eqb_neq in E. rewrite IH. split; [auto | intros [?|?]; tauto].
Qed.

(** Assigning to a key that is present keeps the keys where they are. *)
Lemma keys_set_item d k v :
  lookup d k <> None -> map fst (set_item d k v) = map fst d.
Proof.
  induction d as [|[k' v'] d IH]; simpl; [congruence|].
  destruct (cell_eqb k' k) eqn:E; simpl; [reflexivity|].
  intros H. rewrite IH; auto.
Qed.
End DictFacts.

(** ** Domain states only shrink *)

Lemma sub_dom_refl l : sub_dom l l.
Proof. split; [apply incl_refl | split; [lia | auto]]. Qed.

Lemma sub_dom_trans l1 l2 l3 : sub_dom l1 l2 -> sub_dom l2 l3 -> sub_dom l1 l3.
Proof.
  intros (? & ? & ?) (? & ? & ?).
  split; [eapply incl_tran; eauto | split; [lia | auto]].
Qed.

Lemma sub_dom_filter f l : sub_dom (filter f l) l.
Proof.
  split; [apply incl_filter | split; [apply filter_length_le | apply NoDup_filter]].
Qed.

Lemma shrinks_refl d : shrinks d d.
Proof. induction d; constructor; auto using sub_dom_refl. Qed.

Lemma shrinks_trans d1 d2 d3 : shrinks d1 d2 -> shrinks d2 d3 -> shrinks d1 d3.
Proof.
  intros H; revert d3. induction H as [|a b d1 d2 [Hk Hs] _ IH]; intros d3 H3.
  - inversion H3; constructor.
  - inversion H3 as [|? c ? d3' [Hk' Hs'] Hr]; subst. constructor.
    + split; [congruence | eapply sub_dom_trans; eauto].
    + apply IH; assumption.
Qed.

Lemma shrinks_keys d d' : shrinks d d' -> map fst d' = map fst d.
Proof. induction 1 as [|a b ? ? [Hk _]]; simpl; congruence. Qed.

Lemma shrinks_lookup d d' k :
  shrinks d d' ->
  match lookup d k, lookup d' k with
  | Some l, Some l' => sub_dom l' l
  | None, None => True
  | _, _ => False
  end.
Proof.
  induction 1 as [|[k1 l1] [k2 l2] ? ? [Hk Hs] _ IH]; simpl in *; [exact I|].
  subst k2. destruct (cell_eqb k1 k); [exact Hs | exact IH].
Qed.

Lemma shrinks_lookup_Some d d' k l :
  shrinks d d' -> lookup d k = Some l ->
  exists l', lookup d' k = Some l' /\ sub_dom l' l.
Proof.
  intros H E. pose proof (shrinks_lookup d d' k H) as HL. rewrite E in HL.
  destruct (lookup d' k) as [l'|]; [eauto | contradiction].
Qed.

Lemma shrinks_lookup_Some_inv d d' k l' :
  shrinks d d' -> lookup d' k = Some l' ->
  exists l, lookup d k = Some l /\ sub_dom l' l.
Proof.
  intros H E. pose proof (shrinks_lookup d d' k H) as HL. rewrite E in HL.
  destruct (lookup d k) as [l|]; [eauto | contradiction].
Qed.


Lemma shrinks_total d d' : shrinks d d' -> (total d' <= total d)%nat.
Proof.
  induction 1 as [|a b ? ? [_ [_ [Hl _]]] _ IH]; simpl; lia.
Qed.

Lemma shrinks_set_item d k l l' :
  lookup d k = Some l -> sub_dom l' l -> shrinks d (set_item d k l').
Proof.
  induction d as [|[k0 l0] d IH]; simpl; [discriminate|].
  destruct (cell_eqb k0 k) eqn:E.
  - intros [= ->] Hs. constructor; [split; [reflexivity | exact Hs] | apply shrinks_refl].
  - intros Hl Hs. constructor; [split; [reflexivity | apply sub_dom_refl] | exact (IH Hl Hs)].
Qed.

Lemma total_set_item d k l l' :
  lookup d k = Some l ->
  (total (set_item d k l') + List.length l = total d + List.length l')%nat.
Proof.
  induction d as [|[k0 l0] d IH]; simpl; [discriminate|].
  destruct (cell_eqb k0 k) eqn:E; simpl.
  - intros [= ->]. lia.
  - intros Hl. specialize (IH Hl). lia.
Qed.

Lemma without_not_In v l : ~ In v (without v l).
Proof.
  unfold without. rewrite filter_In. intros [_ H].
  rewrite Z.eqb_refl in H. discriminate.
Qed.

Lemma without_length v l :
  In v l -> (List.length (without v l) < List.length l)%nat.
Proof.
  unfold without. induction l as [|a l IH]; simpl; [tauto|].
  intros [->|H].
  - rewrite Z.eqb_refl; simpl.
    pose proof (filter_length_le (fun v0 => negb (v0 =? v)) l). lia.
  - specialize (IH H). destruct (negb (a =? v)); simpl; lia.
Qed.

(** ** A proof rule for the propagator

    A relation [R] between the state before and the state after that is
    reflexive, transitive and holds across the one primitive mutation (the
    removal of a candidate) holds across [eliminate_value] and
    [assign_value].  [sel] says for which outcomes the relation is claimed:
    all of them, or the normal return only (then the removal that empties a
    domain, which raises, need not be covered). *)

Lemma and_then_inv (r : dict * outcome) k d' o :
  and_then r k = (d', o) ->
  (exists d1, r = (d1, Done) /\ k d1 = (d', o)) \/ (r = (d', o) /\ o <> Done).
Proof.
  destruct r as [d1 [[]|e|]]; simpl; intros H.
  - left; eauto.
  - right; inversion H; subst; split; [reflexivity | discriminate].
  - right; inversion H; subst; split; [reflexivity | discriminate].
Qed.

Section Preservation.
Variable self : Solver.
Variable R : dict -> dict -> Prop.
Variable sel : outcome -> Prop.
Hypothesis R_refl : forall d, R d d.
Hypothesis R_trans : forall d1 d2 d3, R d1 d2 -> R d2 d3 -> R d1 d3.
Hypothesis sel_Done : sel Done.
Hypothesis R_remove : forall d k dom v,
  lookup d k = Some dom -> In v dom ->
  without v dom <> [] \/ sel (Raise Contradiction) ->
  R d (set_item d k (without v dom)).

Lemma preserves_return o : preserves R sel (fun d => (d, o)).
Proof. intros d d' o' [= <- <-] _. apply R_refl. Qed.

Lemma preserves_and_then c1 c2 :
  preserves R sel c1 -> preserves R sel c2 -> preserves R sel (fun d => and_then (c1 d) c2).
Proof.
  intros H1 H2 d d' o E Ho.
  apply and_then_inv in E as [(d1 & E1 & E2) | [E1 _]].
  - eapply R_trans; [eapply H1; eauto | eapply H2; eauto].
  - eapply H1; eauto.
Qed.

Lemma preserves_for_each {A : Type} (body : dict -> A -> dict * outcome) xs :
  (forall x, In x xs -> preserves R sel (fun d => body d x)) ->
  preserves R sel (for_each body xs).
Proof.
  induction xs as [|x xs IH]; intros Hb; simpl.
  - apply preserves_return.
  - apply (preserves_and_then (fun d => body d x)).
    + apply Hb; left; reflexivity.
    + apply IH. intros y Hy. apply Hb; right; exact Hy.
Qed.

Section Bodies.
Variable elim : dict -> cell -> Z -> dict * outcome.
Hypothesis elim_preserves : forall i v, preserves R sel (fun d => elim d i v).

Lemma preserves_assign_body i v :
  preserves R sel (fun d => assign_body elim d i v).
Proof.
  intros d d' o. unfold assign_body.
  destruct (lookup d i) as [dom|].
  - apply preserves_for_each. intros x _. apply elim_preserves.
  - apply preserves_return.
Qed.

Lemma preserves_check_length i : preserves R sel (check_length self elim i).
Proof.
  intros d d' o. unfold check_length.
  destruct (lookup d i) as [[|v2 [|w dom]]|]; try apply preserves_return.
  destruct (peers _ i); [|apply preserves_return].
  apply preserves_for_each. intros x _. apply elim_preserves.
Qed.

Lemma preserves_check_unit v u :
  preserves R sel (fun d => check_unit elim v d u).
Proof.
  intros d d' o. unfold check_unit.
  destruct (places d u v) as [[|c [|c' l]]|]; try apply preserves_return.
  apply preserves_assign_body.
Qed.

Lemma preserves_check_units i v : preserves R sel (check_units self elim i v).
Proof.
  intros d d' o. unfold check_units.
  destruct (units _ i); [|apply preserves_return].
  apply preserves_for_each. intros u _. apply preserves_check_unit.
Qed.

Lemma preserves_check_rule i entry :
  preserves R sel (fun d => check_rule self elim i d entry).
Proof.
  intros d d' o. unfold check_rule. destruct entry as [rule idx2].
  destruct (is_parity rule); [apply preserves_return|].
  destruct (lookup d i); [|apply preserves_return].
  destruct (rule_complement _ _ _); try apply preserves_return.
  destruct (lookup d idx2); [|apply preserves_return].
  destruct (filter _ a); [apply preserves_return|].
  apply preserves_for_each. intros x _. apply elim_preserves.
Qed.

Lemma preserves_check_rules i : preserves R sel (check_rules self elim i).
Proof.
  intros d d' o. unfold check_rules.
  destruct (lookup _ i); [|apply preserves_return].
  apply preserves_for_each. intros x _. apply preserves_check_rule.
Qed.

Lemma preserves_propagate i v : preserves R sel (propagate self elim i v).
Proof.
  unfold propagate.
  apply (preserves_and_then (check_length self elim i)).
  - apply preserves_check_length.
  - apply (preserves_and_then (check_units self elim i v)).
    + apply preserves_check_units.
    + apply preserves_check_rules.
Qed.

Lemma preserves_eliminate_body i v :
  preserves R sel (fun d => eliminate_body self elim d i v).
Proof.
  intros d d' o. unfold eliminate_body.
  destruct (lookup d i) as [dom|] eqn:El; [|apply preserves_return].
  destruct (mem v dom) eqn:Em; simpl; [|apply preserves_return].
  apply mem_In in Em. intros E Ho.
  eapply R_trans; [|eapply preserves_propagate; eauto].
  apply (R_remove d i dom v El Em).
  destruct (without v dom) eqn:Ew; [right | left; discriminate].
  unfold propagate, check_length in E.
  rewrite lookup_set_item_same in E. simpl in E.
  inversion E; subst; exact Ho.
Qed.
End Bodies.

Theorem preserves_eliminate_value fuel i v :
  preserves R sel (fun d => eliminate_value self fuel d i v).
Proof.
  revert i v. induction fuel as [|fuel IH]; intros i v; simpl.
  - intros d d' o [= <- <-] _. apply R_refl.
  - apply preserves_eliminate_body. exact IH.
Qed.

Theorem preserves_assign_value fuel i v :
  preserves R sel (fun d => assign_value self fuel d i v).
Proof.
  apply preserves_assign_body. intros; apply preserves_eliminate_value.
Qed.
End Preservation.

(** First instance: whatever the outcome, the state left behind is the state
    before with some candidates removed. *)
Lemma eliminate_value_shrinks self fuel d i v :
  shrinks d (fst (eliminate_value self fuel d i v)).
Proof.
  destruct (eliminate_value self fuel d i v) as [d' o] eqn:E.
  refine (preserves_eliminate_value self shrinks (fun _ => True)
            shrinks_refl shrinks_trans I _ fuel i v d d' o E I).
  intros; eapply shrinks_set_item; eauto. apply sub_dom_filter.
Qed.

Lemma assign_value_shrinks self fuel d i v :
  shrinks d (fst (assign_value self fuel d i v)).
Proof.
  destruct (assign_value self fuel d i v) as [d' o] eqn:E.
  refine (preserves_assign_value self shrinks (fun _ => True)
            shrinks_refl shrinks_trans I _ fuel i v d d' o E I).
  intros; eapply shrinks_set_item; eauto. apply sub_dom_filter.
Qed.

Lemma keeps_nonempty_refl d : keeps_nonempty d d.
Proof. split; [apply shrinks_refl | intros; congruence]. Qed.

Lemma keeps_nonempty_trans d1 d2 d3 :
  keeps_nonempty d1 d2 -> keeps_nonempty d2 d3 -> keeps_nonempty d1 d3.
Proof.
  intros [S1 N1] [S2 N2]. split; [eapply shrinks_trans; eauto|].
  intros k l l' E1 E3 Hl.
  destruct (shrinks_lookup_Some _ _ _ _ S1 E1) as (l2 & E2 & _).
  eapply N2; eauto.
Qed.

Lemma keeps_nonempty_remove d k dom v :
  lookup d k = Some dom -> In v dom ->
  without v dom <> [] \/ @Raise unit Contradiction = Done ->
  keeps_nonempty d (set_item d k (without v dom)).
Proof.
  intros El Hin [Hne | Habs]; [|discriminate]. split.
  - eapply shrinks_set_item; eauto. apply sub_dom_filter.
  - intros k' l l' E1 E2 Hl. destruct (cell_eq_dec k k') as [<-|Hk].
    + rewrite lookup_set_item_same in E2. congruence.
    + rewrite lookup_set_item_other in E2 by assumption. congruence.
Qed.

Lemma assign_value_keeps_nonempty self fuel d i v d' :
  assign_value self fuel d i v = (d', Done) -> keeps_nonempty d d'.
Proof.
  intros E.
  exact (preserves_assign_value self keeps_nonempty (fun o => o = Done)
           keeps_nonempty_refl keeps_nonempty_trans eq_refl
           keeps_nonempty_remove fuel i v d d' Done E eq_refl).
Qed.

Lemma eliminate_value_keeps_nonempty self fuel d i v d' :
  eliminate_value self fuel d i v = (d', Done) -> keeps_nonempty d d'.
Proof.
  intros E.
  exact (preserves_eliminate_value self keeps_nonempty (fun o => o = Done)
           keeps_nonempty_refl keeps_nonempty_trans eq_refl
           keeps_nonempty_remove fuel i v d d' Done E eq_refl).
Qed.

(** ** Effective eliminations strictly reduce the number of candidates *)

Lemma mono_preserves c : mono c <-> preserves shrinks (fun _ => True) c.
Proof.
  split.
  - intros H d d' o E _. specialize (H d). rewrite E in H. exact H.
  - intros H d. destruct (c d) as [d' o] eqn:E. exact (H d d' o E I).
Qed.

Lemma shrinks_remove d k dom v :
  lookup d k = Some dom -> In v dom -> without v dom <> [] \/ True ->
  shrinks d (set_item d k (without v dom)).
Proof. intros; eapply shrinks_set_item; eauto. apply sub_dom_filter. Qed.

Lemma propagate_mono self elim i v :
  (forall i v, mono (fun d => elim d i v)) -> mono (propagate self elim i v).
Proof.
  intros H. apply mono_preserves.
  apply preserves_propagate; try exact shrinks_refl; try exact shrinks_trans;
      try exact I; try exact shrinks_remove.
  intros; apply mono_preserves; apply H.
Qed.

Lemma eliminate_value_mono self fuel i v :
  mono (fun d => eliminate_value self fuel d i v).
Proof. intros d; apply eliminate_value_shrinks. Qed.

Lemma assign_value_mono self fuel i v :
  mono (fun d => assign_value self fuel d i v).
Proof. intros d; apply assign_value_shrinks. Qed.

Lemma total_remove d k dom v :
  lookup d k = Some dom -> In v dom ->
  (total (set_item d k (without v dom)) < total d)%nat.
Proof.
  intros El Hin. pose proof (total_set_item d k dom (without v dom) El).
  pose proof (without_length v dom Hin). lia.
Qed.

(** An elimination that finds its value among the candidates leaves strictly
    fewer candidates behind, whether it returns or raises. *)
Lemma eliminate_value_decreases self fuel d i v dom :
  lookup d i = Some dom -> In v dom ->
  (total (fst (eliminate_value self (S fuel) d i v)) < total d)%nat.
Proof.
  intros El Hin. simpl. unfold eliminate_body. rewrite El.
  apply mem_In in Hin as Hm. rewrite Hm. simpl.
  pose proof (total_remove d i dom v El Hin) as Hlt.
  pose proof (propagate_mono self (eliminate_value self fuel) i v
                (eliminate_value_mono self fuel)
                (set_item d i (without v dom))) as Hs.
  apply shrinks_total in Hs. lia.
Qed.

(** ** Enough fuel *)

Lemma rule_inverse_fuel rule v m : rule_inverse rule v m <> OutOfFuel.
Proof.
  unfold rule_inverse, py_div.
  repeat match goal with
         | |- context [if ?b then _ else _] => destruct b
         end; discriminate.
Qed.

Lemma rule_complement_from_fuel rule vs m acc :
  rule_complement_from rule vs m acc <> OutOfFuel.
Proof.
  revert acc. induction vs as [|v vs IH]; intros acc; simpl; [discriminate|].
  destruct (rule_inverse rule v m) eqn:E; try discriminate.
  - apply IH.
  - exfalso; eapply rule_inverse_fuel; eauto.
Qed.

Lemma rule_complement_fuel rule vs m : rule_complement rule vs m <> OutOfFuel.
Proof. apply rule_complement_from_fuel. Qed.

Section Fuel.
Variable self : Solver.
Variable bound : nat.

Lemma safe_return o : o <> OutOfFuel -> safe bound (fun d => (d, o)).
Proof. intros H d _; exact H. Qed.

Lemma safe_and_then c1 c2 :
  mono c1 -> safe bound c1 -> safe bound c2 -> safe bound (fun d => and_then (c1 d) c2).
Proof.
  intros M1 S1 S2 d Hd. specialize (M1 d). specialize (S1 d Hd).
  destruct (c1 d) as [d1 [[]|e|]]; simpl in *; try assumption.
  apply S2. apply shrinks_total in M1. lia.
Qed.

Lemma mono_and_then c1 c2 :
  mono c1 -> mono c2 -> mono (fun d => and_then (c1 d) c2).
Proof.
  intros M1 M2. apply mono_preserves.
  apply preserves_and_then; try exact shrinks_trans; try exact I;
    apply mono_preserves; assumption.
Qed.

Lemma mono_for_each {A : Type} (body : dict -> A -> dict * outcome) xs :
  (forall x, mono (fun d => body d x)) -> mono (for_each body xs).
Proof.
  intros Mb. apply mono_preserves.
  apply preserves_for_each; try exact shrinks_refl; try exact shrinks_trans;
    try exact I.
  intros x _; apply mono_preserves; apply Mb.
Qed.

Lemma safe_for_each {A : Type} (body : dict -> A -> dict * outcome) xs :
  (forall x, mono (fun d => body d x)) ->
  (forall x, safe bound (fun d => body d x)) ->
  safe bound (for_each body xs).
Proof.
  intros Mb Sb. induction xs as [|x xs IH]; simpl.
  - apply safe_return; discriminate.
  - apply (safe_and_then (fun d => body d x)); auto.
Qed.

Variable elim : dict -> cell -> Z -> dict * outcome.
Hypothesis elim_mono : forall i v, mono (fun d => elim d i v).
Hypothesis elim_safe : forall i v, safe bound (fun d => elim d i v).

Lemma mono_assign_body i v : mono (fun d => assign_body elim d i v).
Proof.
  apply mono_preserves.
  apply preserves_assign_body; try exact shrinks_refl; try exact shrinks_trans;
    try exact I; try exact shrinks_remove.
  intros; apply mono_preserves; apply elim_mono.
Qed.

Lemma safe_assign_body i v : safe bound (fun d => assign_body elim d i v).
Proof.
  intros d. unfold assign_body. destruct (lookup d i).
  - apply safe_for_each; intros; [apply elim_mono | apply elim_safe].
  - intros _; discriminate.
Qed.

Lemma safe_check_length i : safe bound (check_length self elim i).
Proof.
  intros d. unfold check_length.
  destruct (lookup d i) as [[|v2 [|w dom]]|]; try (intros _; discriminate).
  destruct (peers _ i); [|intros _; discriminate].
  apply safe_for_each; intros; [apply elim_mono | apply elim_safe].
Qed.

Lemma safe_check_unit v u : safe bound (fun d => check_unit elim v d u).
Proof.
  intros d. unfold check_unit.
  destruct (places d u v) as [[|c [|c' l]]|]; try (intros _; discriminate).
  apply safe_assign_body.
Qed.

Lemma mono_check_unit v u : mono (fun d => check_unit elim v d u).
Proof.
  apply mono_preserves.
  apply preserves_check_unit; try exact shrinks_refl; try exact shrinks_trans;
    try exact I; try exact shrinks_remove.
  intros; apply mono_preserves; apply elim_mono.
Qed.

Lemma safe_check_units i v : safe bound (check_units self elim i v).
Proof.
  intros d. unfold check_units.
  destruct (units _ i); [|intros _; discriminate].
  apply safe_for_each; intros; [apply mono_check_unit | apply safe_check_unit].
Qed.

Lemma mono_check_rule i entry : mono (fun d => check_rule self elim i d entry).
Proof.
  apply mono_preserves.
  apply preserves_check_rule; try exact shrinks_refl; try exact shrinks_trans;
    try exact I; try exact shrinks_remove.
  intros; apply mono_preserves; apply elim_mono.
Qed.

Lemma safe_check_rule i entry : safe bound (fun d => check_rule self elim i d entry).
Proof.
  intros d. unfold check_rule. destruct entry as [rule idx2].
  destruct (is_parity rule); [intros _; discriminate|].
  destruct (lookup d i); [|intros _; discriminate].
  destruct (rule_complement _ _ _) eqn:Ec; try (intros _; discriminate).
  - destruct (lookup d idx2); [|intros _; discriminate].
    destruct (filter _ a); [intros _; discriminate|].
    apply safe_for_each; intros; [apply elim_mono | apply elim_safe].
  - exfalso; eapply rule_complement_fuel; eauto.
Qed.

Lemma safe_check_rules i : safe bound (check_rules self elim i).
Proof.
  intros d. unfold check_rules.
  destruct (lookup _ i); [|intros _; discriminate].
  apply safe_for_each; intros; [apply mono_check_rule | apply safe_check_rule].
Qed.

Lemma mono_check_length i : mono (check_length self elim i).
Proof.
  apply mono_preserves.
  apply preserves_check_length; try exact shrinks_refl; try exact shrinks_trans;
    try exact I; try exact shrinks_remove.
  intros; apply mono_preserves; apply elim_mono.
Qed.

Lemma mono_check_units i v : mono (check_units self elim i v).
Proof.
  apply mono_preserves.
  apply preserves_check_units; try exact shrinks_refl; try exact shrinks_trans;
    try exact I; try exact shrinks_remove.
  intros; apply mono_preserves; apply elim_mono.
Qed.

Lemma safe_propagate i v : safe bound (propagate self elim i v).
Proof.
  unfold propagate.
  apply (safe_and_then (check_length self elim i)).
  - apply mono_check_length.
  - apply safe_check_length.
  - apply (safe_and_then (check_units self elim i v)).
    + apply mono_check_units.
    + apply safe_check_units.
    + apply safe_check_rules.
Qed.
End Fuel.

(** With more fuel than the state has candidates, [eliminate_value] and
    [assign_value] run to completion. *)
Lemma eliminate_value_fuel self fuel i v :
  safe fuel (fun d => eliminate_value self fuel d i v).
Proof.
  revert i v. induction fuel as [|fuel IH]; intros i v d Hd; [lia|].
  simpl. unfold eliminate_body.
  destruct (lookup d i) as [dom|] eqn:El; [|discriminate].
  destruct (mem v dom) eqn:Em; simpl; [|discriminate].
  apply mem_In in Em.
  apply (safe_propagate self fuel (eliminate_value self fuel)
           (eliminate_value_mono self fuel) IH).
  pose proof (total_remove d i dom v El Em). lia.
Qed.

Lemma safe_weaken b b' c : (b' <= b)%nat -> safe b c -> safe b' c.
Proof. intros Hb H d Hd. apply H. lia. Qed.

Lemma assign_value_fuel self fuel i v :
  safe fuel (fun d => assign_value self fuel d i v).
Proof.
  apply safe_assign_body.
  - apply eliminate_value_mono.
  - intros; apply eliminate_value_fuel.
Qed.

(** ** What a normal return guarantees *)

Lemma eliminate_value_removes self fuel d i v d' l' :
  eliminate_value self fuel d i v = (d', Done) ->
  lookup d' i = Some l' -> ~ In v l'.
Proof.
  destruct fuel as [|fuel]; simpl; [discriminate|].
  unfold eliminate_body.
  destruct (lookup d i) as [dom|] eqn:El; [|discriminate].
  destruct (mem v dom) eqn:Em; simpl.
  - intros E El'.
    pose proof (propagate_mono self (eliminate_value self fuel) i v
                  (eliminate_value_mono self fuel)
                  (set_item d i (without v dom))) as Hs.
    rewrite E in Hs. simpl in Hs.
    destruct (shrinks_lookup_Some_inv _ _ _ _ Hs El') as (l1 & E1 & [Hi _]).
    rewrite lookup_set_item_same in E1. injection E1 as <-.
    intros Hin. apply (without_not_In v dom). apply Hi; exact Hin.
  - intros [= <-] El'. rewrite El in El'. injection El' as <-.
    apply mem_false; exact Em.
Qed.

Lemma for_each_eliminate_removes self fuel i rs :
  forall d d' l',
    for_each (fun d r => eliminate_value self fuel d i r) rs d = (d', Done) ->
    lookup d' i = Some l' -> forall r, In r rs -> ~ In r l'.
Proof.
  induction rs as [|r0 rs IH]; intros d d' l' E El' r Hr; [destruct Hr|].
  simpl in E. apply and_then_inv in E as [(d1 & E1 & E2) | [_ Hn]]; [|congruence].
  destruct Hr as [<-|Hr]; [|eapply IH; eauto].
  pose proof (mono_for_each (fun d r => eliminate_value self fuel d i r) rs
                (fun x => eliminate_value_mono self fuel i x) d1) as Hs.
  rewrite E2 in Hs; simpl in Hs.
  destruct (shrinks_lookup_Some_inv _ _ _ _ Hs El') as (l1 & El1 & [Hi _]).
  intros Hin. eapply eliminate_value_removes; eauto.
Qed.

(** After [assign_value] returns, the cell holds no candidate but the value
    assigned. *)
Lemma assign_value_only self fuel d i v d' l' :
  assign_value self fuel d i v = (d', Done) ->
  lookup d' i = Some l' -> forall x, In x l' -> x = v.
Proof.
  intros E El' x Hx.
  pose proof (assign_value_shrinks self fuel d i v) as Hs.
  rewrite E in Hs; simpl in Hs.
  destruct (shrinks_lookup_Some_inv _ _ _ _ Hs El') as (dom & El & [Hi _]).
  unfold assign_value, assign_body in E. rewrite El in E.
  destruct (Z.eq_dec x v) as [|Hne]; [assumption|exfalso].
  eapply for_each_eliminate_removes; eauto.
  unfold without. apply filter_In. split; [auto|].
  apply negb_true_iff. apply Z.eqb_neq; exact Hne.
Qed.

(** ** The heap: copies are fresh objects *)

Lemma store_length (h : heap) r d : List.length (store h r d) = List.length h.
Proof.
  revert r; induction h as [|d0 h IH]; intros [|r]; simpl; auto.
Qed.

Lemma deref_store_same (h : heap) r d :
  (r < List.length h)%nat -> deref (store h r d) r = d.
Proof.
  unfold deref. revert r; induction h as [|d0 h IH]; intros [|r]; simpl;
    try lia; auto.
  intros H; apply IH; lia.
Qed.

Lemma deref_store_other (h : heap) r r' d :
  r' <> r -> deref (store h r d) r' = deref h r'.
Proof.
  unfold deref. revert r r'; induction h as [|d0 h IH]; intros [|r] [|r'] Hne;
    simpl; try congruence; auto.
Qed.

Lemma deref_copy_old (h : heap) d r :
  (r < List.length h)%nat -> deref (h ++ [d]) r = deref h r.
Proof. intros H. unfold deref. apply app_nth1; exact H. Qed.

Lemma deref_copy_new (h : heap) d : deref (h ++ [d]) (List.length h) = d.
Proof. unfold deref. apply nth_middle. Qed.

Lemma extends_refl h : extends h h.
Proof. split; auto. Qed.

Lemma extends_trans h1 h2 h3 : extends h1 h2 -> extends h2 h3 -> extends h1 h3.
Proof.
  intros [L1 D1] [L2 D2]. split; [lia|].
  intros r Hr. rewrite D2 by lia. apply D1; exact Hr.
Qed.

Lemma extends_copy_assign self fuel h possibles index v :
  let '(h1, next) := copy_dict h possibles in
  extends h (fst (assign_value_at self fuel h1 next index v)).
Proof.
  unfold copy_dict, assign_value_at.
  destruct (assign_value self fuel _ index v) as [d o]. simpl. split.
  - rewrite store_length, length_app. simpl. lia.
  - intros r Hr. rewrite deref_store_other by lia.
    apply deref_copy_old; exact Hr.
Qed.

Section SearchFrame.
Variable self : Solver.
Variable fuel : nat.
Variable rec : heap -> nat -> heap * result grid.
Hypothesis rec_extends : forall h r, extends h (fst (rec h r)).

Lemma try_value_extends possibles min_idx h v :
  extends h (fst (try_value self fuel rec possibles min_idx h v)).
Proof.
  unfold try_value.
  pose proof (extends_copy_assign self fuel h possibles min_idx v) as H1.
  destruct (copy_dict h possibles) as [h1 next].
  destruct (assign_value_at self fuel h1 next min_idx v) as [h2 [[]|e|]];
    simpl in *.
  - pose proof (rec_extends h2 next) as H2.
    destruct (rec h2 next) as [h3 [g|e|]]; simpl in *;
      try destruct e; simpl; eapply extends_trans; eauto.
  - destruct e; simpl; exact H1.
  - exact H1.
Qed.

Lemma try_values_extends possibles min_idx vs h :
  extends h (fst (try_values self fuel rec possibles min_idx vs h)).
Proof.
  revert h; induction vs as [|v vs IH]; intros h; simpl.
  - apply extends_refl.
  - pose proof (try_value_extends possibles min_idx h v) as H1.
    destruct (try_value self fuel rec possibles min_idx h v) as [h1 [r|]];
      simpl in *; [exact H1|].
    eapply extends_trans; [exact H1 | apply IH].
Qed.

Lemma search_body_extends h possibles :
  extends h (fst (search_body self fuel rec h possibles)).
Proof.
  unfold search_body.
  destruct (solved _); [apply extends_refl|].
  destruct (min_by _ _); [|apply extends_refl].
  destruct (lookup _ _); [|apply extends_refl].
  apply try_values_extends.
Qed.
End SearchFrame.

Lemma search_extends self fuel h possibles :
  extends h (fst (search self fuel h possibles)).
Proof.
  revert h possibles; induction fuel as [|fuel IH]; intros h possibles; simpl.
  - apply extends_refl.
  - apply search_body_extends. exact IH.
Qed.

(** ** What search returns *)

Lemma copy_assign_state self fuel h possibles index v d o :
  assign_value self fuel (deref h possibles) index v = (d, o) ->
  let '(h1, next) := copy_dict h possibles in
  assign_value_at self fuel h1 next index v = (store h1 next d, o) /\
  deref (store h1 next d) next = d.
Proof.
  intros E. unfold copy_dict, assign_value_at.
  rewrite deref_copy_new, E. split; [reflexivity|].
  apply deref_store_same. rewrite length_app; simpl; lia.
Qed.

Section SearchResult.
Variable self : Solver.
Variable fuel : nat.
Variable rec : heap -> nat -> heap * result grid.

Hypothesis rec_result : forall h r h' g,
  rec h r = (h', Ok g) -> from_state (deref h r) g.

Lemma try_value_result possibles min_idx h v h' g :
  try_value self fuel rec possibles min_idx h v = (h', Some (Ok g)) ->
  from_state (deref h possibles) g.
Proof.
  unfold try_value.
  destruct (assign_value self fuel (deref h possibles) min_idx v) as [d o] eqn:Ea.
  pose proof (copy_assign_state self fuel h possibles min_idx v d o Ea) as H.
  destruct (copy_dict h possibles) as [h1 next]. destruct H as [-> Hd].
  pose proof (assign_value_shrinks self fuel (deref h possibles) min_idx v) as Hs.
  rewrite Ea in Hs; simpl in Hs.
  destruct o as [[]|e|].
  - destruct (rec (store h1 next d) next) as [h3 r] eqn:Er.
    assert (r = Ok g -> from_state (deref h possibles) g) as K.
    { intros ->. apply rec_result in Er. rewrite Hd in Er.
      destruct Er as (d' & S' & So & Eg). exists d'.
      split; [eapply shrinks_trans; eauto | auto]. }
    destruct r as [g'|e|]; [| destruct e |]; intros [= _ E]; apply K;
      congruence.
  - destruct e; discriminate.
  - discriminate.
Qed.

Hypothesis rec_extends : forall h r, extends h (fst (rec h r)).

Lemma try_values_result possibles min_idx vs h h' g :
  (possibles < List.length h)%nat ->
  try_values self fuel rec possibles min_idx vs h = (h', Ok g) ->
  from_state (deref h possibles) g.
Proof.
  revert h; induction vs as [|v vs IH]; intros h Hp; simpl; [discriminate|].
  pose proof (try_value_extends self fuel rec rec_extends possibles min_idx h v)
    as [Hl Hd].
  destruct (try_value self fuel rec possibles min_idx h v) as [h1 [r|]] eqn:Et;
    simpl in *.
  - intros [= -> ->]. eapply try_value_result; eauto.
  - intros E. rewrite <- (Hd possibles Hp). apply IH; [lia | exact E].
Qed.

Lemma search_body_result h possibles h' g :
  (possibles < List.length h)%nat ->
  search_body self fuel rec h possibles = (h', Ok g) ->
  from_state (deref h possibles) g.
Proof.
  intros Hp. unfold search_body.
  destruct (solved (deref h possibles)) eqn:Es.
  - intros [= _ <-]. exists (deref h possibles).
    split; [apply shrinks_refl | auto].
  - destruct (min_by _ _); [|discriminate].
    destruct (lookup _ _); [|discriminate].
    apply try_values_result; exact Hp.
Qed.
End SearchResult.

Lemma search_result self fuel h possibles h' g :
  (possibles < List.length h)%nat ->
  search self fuel h possibles = (h', Ok g) ->
  from_state (deref h possibles) g.
Proof.
  revert h possibles h' g; induction fuel as [|fuel IH];
    intros h possibles h' g Hp; simpl; [discriminate|].
  apply search_body_result; [|intros; apply search_extends|exact Hp].
  intros h0 r h0' g0 E.
  destruct (Nat.lt_ge_cases r (List.length h0)) as [Hr|Hr].
  - eapply IH; eauto.
  - (* a reference to no object: the empty dict, which is its own grid *)
    unfold deref in *. rewrite nth_overflow in * by lia.
    destruct fuel; simpl in E; [discriminate|].
    unfold search_body, deref in E. rewrite nth_overflow in E by lia.
    simpl in E. injection E as _ <-. exists []. repeat split. constructor.
Qed.

(** ** The search tree is finite *)

Lemma shrinks_distinct d d' : shrinks d d' -> distinct d -> distinct d'.
Proof.
  intros Hs Hd k l' El'.
  destruct (shrinks_lookup_Some_inv _ _ _ _ Hs El') as (l & El & _ & _ & Hn).
  apply Hn. eapply Hd; eauto.
Qed.

Lemma shrinks_total_lt d d' k l l' :
  shrinks d d' -> lookup d k = Some l -> lookup d' k = Some l' ->
  (List.length l' < List.length l)%nat -> (total d' < total d)%nat.
Proof.
  induction 1 as [|[k1 l1] [k2 l2] d d' [Hk Hs] Hr IH]; simpl in *;
    [discriminate|].
  subst k2. apply shrinks_total in Hr as Ht. destruct Hs as (_ & Hl & _).
  destruct (cell_eqb k1 k).
  - intros [= ->] [= ->] Hlt. lia.
  - intros E1 E2 Hlt. specialize (IH E1 E2 Hlt). lia.
Qed.

Lemma NoDup_all_equal (l : list Z) v :
  NoDup l -> (forall x, In x l -> x = v) -> (List.length l <= 1)%nat.
Proof.
  destruct l as [|a [|b l]]; simpl; intros Hn Ha; try lia.
  exfalso. inversion Hn as [|? ? Hnin _]; subst. apply Hnin.
  rewrite (Ha a), (Ha b); simpl; auto.
Qed.

Lemma min_by_In key l m : min_by key l = Some m -> In m l.
Proof.
  revert m; induction l as [|c l IH]; intros m; simpl; [discriminate|].
  destruct (min_by key l) as [m'|].
  - destruct (key m' <? key c)%nat; intros [= <-]; auto.
  - intros [= <-]; auto.
Qed.

(** Assigning one of several distinct candidates removes at least one. *)
Lemma assign_value_decreases self fuel d i v d' l :
  distinct d -> lookup d i = Some l -> (1 < List.length l)%nat ->
  assign_value self fuel d i v = (d', Done) ->
  (total d' < total d)%nat.
Proof.
  intros Hd El Hl E.
  pose proof (assign_value_shrinks self fuel d i v) as Hs.
  rewrite E in Hs; simpl in Hs.
  destruct (shrinks_lookup_Some _ _ _ _ Hs El) as (l' & El' & _).
  eapply shrinks_total_lt; eauto.
  assert (List.length l' <= 1)%nat; [|lia].
  apply (NoDup_all_equal l' v).
  - eapply shrinks_distinct; eauto.
  - eapply assign_value_only; eauto.
Qed.

Section SearchFuel.
Variable self : Solver.
Variable fuel : nat.
Variable rec : heap -> nat -> heap * result grid.
Hypothesis rec_extends : forall h r, extends h (fst (rec h r)).
Hypothesis rec_fuel : forall h r,
  (r < List.length h)%nat -> distinct (deref h r) ->
  (total (deref h r) < fuel)%nat -> snd (rec h r) <> OutOfFuel.

Lemma try_value_fuel possibles min_idx h v l :
  distinct (deref h possibles) ->
  (total (deref h possibles) < S fuel)%nat ->
  lookup (deref h possibles) min_idx = Some l -> (1 < List.length l)%nat ->
  snd (try_value self (S fuel) rec possibles min_idx h v) <> Some OutOfFuel.
Proof.
  intros Hd Ht El Hl. unfold try_value.
  destruct (assign_value self (S fuel) (deref h possibles) min_idx v)
    as [d o] eqn:Ea.
  pose proof (copy_assign_state self (S fuel) h possibles min_idx v d o Ea) as H.
  pose proof (assign_value_fuel self (S fuel) min_idx v _ Ht) as Hf.
  pose proof (assign_value_shrinks self (S fuel) (deref h possibles) min_idx v)
    as Hs.
  cbv beta in Hf. rewrite Ea in Hf, Hs; simpl in Hf, Hs.
  destruct (copy_dict h possibles) as [h1 next] eqn:Ec. destruct H as [-> Hn].
  destruct o as [[]|e|]; [| destruct e; simpl; discriminate | congruence].
  assert (snd (rec (store h1 next d) next) <> OutOfFuel) as Hr.
  { apply rec_fuel.
    - unfold copy_dict in Ec. injection Ec as <- <-.
      rewrite store_length, length_app; simpl; lia.
    - rewrite Hn. eapply shrinks_distinct; eauto.
    - rewrite Hn.
      pose proof (assign_value_decreases self (S fuel) _ min_idx v d l
                    Hd El Hl Ea). lia. }
  destruct (rec (store h1 next d) next) as [h3 [g|e|]]; simpl in *;
    [| destruct e |]; simpl; congruence.
Qed.

Lemma try_values_fuel possibles min_idx vs h l :
  (possibles < List.length h)%nat ->
  distinct (deref h possibles) ->
  (total (deref h possibles) < S fuel)%nat ->
  lookup (deref h possibles) min_idx = Some l -> (1 < List.length l)%nat ->
  snd (try_values self (S fuel) rec possibles min_idx vs h) <> OutOfFuel.
Proof.
  revert h; induction vs as [|v vs IH]; intros h Hp Hd Ht El Hl; simpl;
    [discriminate|].
  pose proof (try_value_fuel possibles min_idx h v l Hd Ht El Hl) as Hf.
  pose proof (try_value_extends self (S fuel) rec rec_extends possibles
                min_idx h v) as [Hle Hde].
  destruct (try_value self (S fuel) rec possibles min_idx h v) as [h1 [r|]];
    simpl in *; [congruence|].
  apply IH; try rewrite (Hde possibles Hp); auto. lia.
Qed.

Lemma search_body_fuel h possibles :
  (possibles < List.length h)%nat ->
  distinct (deref h possibles) ->
  (total (deref h possibles) < S fuel)%nat ->
  snd (search_body self (S fuel) rec h possibles) <> OutOfFuel.
Proof.
  intros Hp Hd Ht. unfold search_body.
  destruct (solved _); [discriminate|].
  destruct (min_by _ _) as [m|] eqn:Em; [|discriminate].
  apply min_by_In in Em. apply filter_In in Em as [_ Hlen].
  unfold len_at in Hlen.
  destruct (lookup (deref h possibles) m) as [l|] eqn:El; [|discriminate].
  apply Nat.ltb_lt in Hlen.
  eapply try_values_fuel; eauto.
Qed.
End SearchFuel.

Lemma search_fuel self fuel h possibles :
  (possibles < List.length h)%nat ->
  distinct (deref h possibles) ->
  (total (deref h possibles) < fuel)%nat ->
  snd (search self fuel h possibles) <> OutOfFuel.
Proof.
  revert h possibles; induction fuel as [|fuel IH]; intros h possibles Hp Hd Ht;
    [lia|].
  simpl. apply search_body_fuel; auto.
  intros; apply search_extends.
Qed.

(** ** The seeding pass and the givens *)

Lemma dedup_incl l : incl (dedup l) l.
Proof.
  induction l as [|a l IH]; simpl; [apply incl_refl|].
  intros x [->|Hx]; [left; reflexivity|right].
  apply IH. apply filter_In in Hx. tauto.
Qed.

Lemma dedup_length l : (List.length (dedup l) <= List.length l)%nat.
Proof.
  induction l as [|a l IH]; simpl; [lia|].
  pose proof (filter_length_le (fun v' => negb (a =? v')) (dedup l)). lia.
Qed.

Lemma dedup_NoDup l : NoDup (dedup l).
Proof.
  induction l as [|a l IH]; simpl; constructor.
  - rewrite filter_In, Z.eqb_refl. simpl. intros [_ H]; discriminate.
  - apply NoDup_filter; exact IH.
Qed.

Lemma sub_dom_dedup l : sub_dom (dedup l) l.
Proof.
  split; [apply dedup_incl | split; [apply dedup_length|]].
  intros _; apply dedup_NoDup.
Qed.

Lemma seed_rule_mono self idx entry :
  mono (fun d => seed_rule self idx d entry).
Proof.
  intros d. unfold seed_rule. destruct entry as [rule partner].
  destruct (String.eqb (op rule) "e");
    [|destruct (String.eqb (op rule) "o")].
  - destruct (lookup d idx) eqn:E; simpl; [|apply shrinks_refl].
    eapply shrinks_set_item; eauto. apply sub_dom_filter.
  - destruct (lookup d idx) eqn:E; simpl; [|apply shrinks_refl].
    eapply shrinks_set_item; eauto. apply sub_dom_filter.
  - destruct (lookup d partner); [|apply shrinks_refl].
    destruct (rule_complement _ _ _); try apply shrinks_refl.
    destruct (lookup d idx) eqn:E; simpl; [|apply shrinks_refl].
    eapply shrinks_set_item; eauto.
    eapply sub_dom_trans; [apply sub_dom_filter | apply sub_dom_dedup].
Qed.

Lemma seed_mono self : mono (seed self).
Proof.
  unfold seed. apply mono_for_each. intros item.
  apply mono_for_each. intros entry. apply seed_rule_mono.
Qed.

Lemma apply_givens_mono self fuel : mono (apply_givens self fuel).
Proof.
  unfold apply_givens. apply mono_for_each. intros item.
  apply assign_value_mono.
Qed.

Lemma setup_shrinks self fuel :
  shrinks (initial_possibles self) (fst (setup self fuel)).
Proof.
  unfold setup. pose proof (seed_mono self (initial_possibles self)) as H1.
  destruct (seed self (initial_possibles self)) as [d1 [[]|e|]];
    cbn [fst snd] in *; try exact H1.
  eapply shrinks_trans; [exact H1 | apply apply_givens_mono].
Qed.

(** The initial state: every cell of the grid holds [1..N]. *)
Lemma In_range n i : In i (range n) <-> 0 <= i < n.
Proof.
  unfold range. rewrite in_map_iff. split.
  - intros (k & <- & Hk). apply in_seq in Hk. lia.
  - intros H. exists (Z.to_nat i). split; [lia|]. apply in_seq. lia.
Qed.

Lemma NoDup_range n : NoDup (range n).
Proof.
  unfold range. apply Injective_map_NoDup.
  - intros a b H. lia.
  - apply seq_NoDup.
Qed.

Lemma In_cells n c : In c (cells n) <-> 0 <= fst c < n /\ 0 <= snd c < n.
Proof.
  unfold cells, product. rewrite in_flat_map. split.
  - intros (x & Hx & Hc). apply in_map_iff in Hc as (y & <- & Hy).
    simpl. rewrite <- !In_range. auto.
  - intros [H1 H2]. exists (fst c). rewrite In_range. split; [exact H1|].
    apply in_map_iff. exists (snd c). rewrite In_range.
    destruct c; simpl; auto.
Qed.

Lemma In_full_domain n v : In v (full_domain n) <-> 1 <= v <= n.
Proof.
  unfold full_domain. rewrite in_map_iff. split.
  - intros (i & <- & Hi). apply In_range in Hi. lia.
  - intros H. exists (v - 1). rewrite In_range. lia.
Qed.

Lemma NoDup_full_domain n : NoDup (full_domain n).
Proof.
  unfold full_domain. apply Injective_map_NoDup.
  - intros a b H. lia.
  - apply NoDup_range.
Qed.

Lemma lookup_const {V : Type} (x : V) (cs : list cell) k :
  lookup (map (fun c => (c, x)) cs) k = if cell_mem k cs then Some x else None.
Proof.
  induction cs as [|c cs IH]; simpl; [reflexivity|].
  rewrite IH. destruct (cell_eqb c k) eqn:E.
  - apply cell_eqb_eq in E; subst. rewrite cell_eqb_refl. reflexivity.
  - replace (cell_eqb k c) with false; [reflexivity|].
    symmetry. apply cell_eqb_neq. apply cell_eqb_neq in E. congruence.
Qed.

Lemma lookup_initial self k :
  lookup (initial_possibles self) k =
  if cell_mem k (cells (size (puzzle self)))
  then Some (full_domain (size (puzzle self))) else None.
Proof. unfold initial_possibles. apply lookup_const. Qed.

Lemma initial_distinct self : distinct (initial_possibles self).
Proof.
  intros k l. rewrite lookup_initial. destruct (cell_mem _ _); [|discriminate].
  intros [= <-]. apply NoDup_full_domain.
Qed.

(** ** solve terminates *)

Lemma for_each_safe_givens self fuel :
  safe fuel (apply_givens self fuel).
Proof.
  unfold apply_givens. apply safe_for_each; intros item.
  - apply assign_value_mono.
  - apply assign_value_fuel.
Qed.

Lemma seed_rule_fuel self idx d entry :
  snd (seed_rule self idx d entry) <> OutOfFuel.
Proof.
  unfold seed_rule. destruct entry as [rule partner].
  destruct (String.eqb (op rule) "e");
    [|destruct (String.eqb (op rule) "o")];
    try (destruct (lookup d idx); discriminate).
  destruct (lookup d partner); [|discriminate].
  destruct (rule_complement _ _ _) eqn:E; try discriminate.
  - destruct (lookup d idx); discriminate.
  - exfalso; eapply rule_complement_fuel; eauto.
Qed.

Lemma for_each_fuel {A : Type} (body : dict -> A -> dict * outcome) xs :
  (forall d x, snd (body d x) <> OutOfFuel) ->
  forall d, snd (for_each body xs d) <> OutOfFuel.
Proof.
  intros Hb. induction xs as [|x xs IH]; intros d; simpl; [discriminate|].
  specialize (Hb d x). destruct (body d x) as [d1 [[]|e|]]; simpl in *;
    auto; discriminate.
Qed.

Lemma seed_fuel self d : snd (seed self d) <> OutOfFuel.
Proof.
  unfold seed. apply for_each_fuel. intros d0 item.
  apply for_each_fuel. intros d1 entry. apply seed_rule_fuel.
Qed.

Lemma setup_fuel self :
  snd (setup self (enough_fuel self)) <> OutOfFuel.
Proof.
  unfold setup. pose proof (seed_mono self (initial_possibles self)) as H1.
  pose proof (seed_fuel self (initial_possibles self)) as H2.
  destruct (seed self (initial_possibles self)) as [d1 [[]|e|]];
    cbn [fst snd] in *; try discriminate; try congruence.
  apply for_each_safe_givens. apply shrinks_total in H1.
  unfold enough_fuel. lia.
Qed.

Lemma solve_fuel p : solve p <> OutOfFuel.
Proof.
  unfold solve, Solver_solve, solve_with.
  set (self := Solver_init p).
  pose proof (setup_fuel self) as Hf.
  pose proof (setup_shrinks self (enough_fuel self)) as Hs.
  destruct (setup self (enough_fuel self)) as [d [[]|e|]]; cbn [fst snd] in *;
    try discriminate; try congruence.
  assert (snd (search self (enough_fuel self) [d] 0) <> OutOfFuel) as H.
  { apply search_fuel; [simpl; lia | |]; cbn [deref nth].
    - eapply shrinks_distinct; [exact Hs | apply initial_distinct].
    - apply shrinks_total in Hs. unfold enough_fuel. lia. }
  destruct (snd (search self (enough_fuel self) [d] 0)) as [g|e|];
    [discriminate | destruct e; discriminate | congruence].
Qed.

(** ** What a returned grid is made of *)

Lemma lookup_grid_of d c : lookup (grid_of d) c = option_map (hd 0) (lookup d c).
Proof.
  induction d as [|[k l] d IH]; simpl; [reflexivity|].
  destruct (cell_eqb k c); [reflexivity | exact IH].
Qed.

Lemma solved_lookup d c l :
  solved d = true -> lookup d c = Some l -> exists x, l = [x].
Proof.
  unfold solved. rewrite forallb_forall. intros H E.
  apply lookup_In in E. apply H in E. simpl in E. apply Nat.eqb_eq in E.
  destruct l as [|x [|y l]]; try discriminate. eauto.
Qed.

Lemma solve_Ok_inv p g :
  solve p = Ok g ->
  exists ds d', setup (Solver_init p) (enough_fuel (Solver_init p)) = (ds, Done)
                /\ shrinks ds d' /\ solved d' = true /\ g = grid_of d'.
Proof.
  unfold solve, Solver_solve, solve_with. set (self := Solver_init p).
  destruct (setup self (enough_fuel self)) as [ds [[]|e|]]; try discriminate.
  destruct (search self (enough_fuel self) [ds] 0) as [h' r] eqn:Es.
  cbn [snd]. intros E.
  assert (r = Ok g) as -> by (destruct r as [g'|e|]; [| destruct e |]; congruence).
  apply search_result in Es; [|simpl; lia].
  destruct Es as (d' & Hs & Hso & Hg). exists ds, d'. auto.
Qed.

(** Every entry of a returned grid is a cell of the grid with a value in
    [1, N]. *)
Lemma solve_in_range p g c x :
  solve p = Ok g -> lookup g c = Some x ->
  In c (cells (size p)) /\ 1 <= x <= size p.
Proof.
  intros E El. apply solve_Ok_inv in E as (ds & d' & Hset & Hs & Hso & ->).
  pose proof (setup_shrinks (Solver_init p) (enough_fuel (Solver_init p))) as H0.
  rewrite Hset in H0. cbn [fst] in H0.
  pose proof (shrinks_trans _ _ _ H0 Hs) as H.
  rewrite lookup_grid_of in El.
  destruct (lookup d' c) as [l'|] eqn:El'; [|discriminate].
  destruct (shrinks_lookup_Some_inv _ _ _ _ H El') as (l & E0 & Hi & _).
  rewrite lookup_initial in E0. cbn [puzzle Solver_init] in E0.
  destruct (cell_mem c (cells (size p))) eqn:Ec; [|discriminate].
  injection E0 as <-. apply cell_mem_In in Ec. split; [exact Ec|].
  destruct (solved_lookup _ _ _ Hso El') as (y & ->).
  simpl in El. injection El as <-.
  apply In_full_domain. apply Hi. left; reflexivity.
Qed.

Lemma grid_of_keys d : map fst (grid_of d) = map fst d.
Proof. unfold grid_of. rewrite map_map. reflexivity. Qed.

(** A returned grid has exactly the cells of the grid as its keys. *)
Lemma solve_total p g : solve p = Ok g -> map fst g = cells (size p).
Proof.
  intros E. apply solve_Ok_inv in E as (ds & d' & Hset & Hs & _ & ->).
  pose proof (setup_shrinks (Solver_init p) (enough_fuel (Solver_init p))) as H0.
  rewrite Hset in H0. cbn [fst] in H0.
  rewrite grid_of_keys, (shrinks_keys _ _ Hs), (shrinks_keys _ _ H0).
  unfold initial_possibles. rewrite map_map. cbn [fst puzzle Solver_init].
  apply map_id.
Qed.

Lemma apply_givens_fixed self fuel gs :
  forall d d',
    for_each (fun d (item : cell * Z) =>
                assign_value self fuel d (fst item) (snd item)) gs d = (d', Done) ->
    forall c v, In (c, v) gs ->
      exists l', lookup d' c = Some l' /\ forall x, In x l' -> x = v.
Proof.
  induction gs as [|[c0 v0] gs IH]; intros d d' E c v Hin; [destruct Hin|].
  simpl in E. apply and_then_inv in E as [(d1 & E1 & E2) | [_ Hn]]; [|congruence].
  destruct Hin as [[= -> ->]|Hin]; [|eapply IH; eauto].
  pose proof (mono_for_each
                (fun d (item : cell * Z) =>
                   assign_value self fuel d (fst item) (snd item)) gs
                (fun item => assign_value_mono self fuel (fst item) (snd item)) d1)
    as Hs.
  rewrite E2 in Hs. cbn [fst] in Hs.
  assert (exists l1, lookup d1 c = Some l1) as (l1 & El1).
  { pose proof (assign_value_shrinks self fuel d c v) as H. rewrite E1 in H.
    cbn [fst] in H. unfold assign_value, assign_body in E1.
    destruct (lookup d c) as [dom|] eqn:El; [|discriminate].
    destruct (shrinks_lookup_Some _ _ _ _ H El) as (l1 & ? & _). eauto. }
  destruct (shrinks_lookup_Some _ _ _ _ Hs El1) as (l' & El' & Hi & _).
  exists l'. split; [exact El'|]. intros x Hx.
  eapply assign_value_only; eauto.
Qed.

Lemma solve_keeps_givens p g c v :
  solve p = Ok g -> In (c, v) (givens p) -> lookup g c = Some v.
Proof.
  intros E Hin. apply solve_Ok_inv in E as (ds & d' & Hset & Hs & Hso & ->).
  unfold setup in Hset.
  destruct (seed _ _) as [d1 [[]|e|]]; try discriminate.
  unfold apply_givens in Hset. cbn [puzzle Solver_init] in Hset.
  destruct (apply_givens_fixed _ _ _ _ _ Hset c v Hin) as (l & El & Hl).
  destruct (shrinks_lookup_Some _ _ _ _ Hs El) as (l' & El' & Hi & _).
  rewrite lookup_grid_of, El'. simpl.
  destruct (solved_lookup _ _ _ Hso El') as (y & ->). simpl.
  f_equal. apply Hl. apply Hi. left; reflexivity.
Qed.

(** ** Rules anchored outside the grid *)

Section SetItemFacts.
Context {V : Type}.
Implicit Types (d : list (cell * V)) (k : cell) (v : V).

Lemma set_item_In d k v k0 x :
  In (k0, x) (set_item d k v) -> In (k0, x) d \/ x = v.
Proof.
  induction d as [|[k' v'] d IH]; simpl.
  - intros [[= _ <-]|[]]; auto.
  - destruct (cell_eqb k' k); simpl.
    + intros [[= _ <-]|H]; auto.
    + intros [H|H]; auto. destruct (IH H); auto.
Qed.

Lemma set_item_keys d k v k0 :
  In k0 (map fst d) -> In k0 (map fst (set_item d k v)).
Proof.
  induction d as [|[k' v'] d IH]; simpl; [tauto|].
  destruct (cell_eqb k' k); simpl; tauto.
Qed.

Lemma set_item_key_new d k v : In k (map fst (set_item d k v)).
Proof.
  apply lookup_keys. rewrite lookup_set_item_same. discriminate.
Qed.
End SetItemFacts.

Lemma append_constraint_nonempty rc k e :
  entries_nonempty rc -> entries_nonempty (append_constraint rc k e).
Proof.
  intros H k0 l0. unfold append_constraint.
  destruct (lookup rc k) as [l|]; intros Hin;
    apply set_item_In in Hin as [Hin | ->]; eauto; try discriminate.
  destruct l; discriminate.
Qed.

Lemma append_constraint_keys rc k e k0 :
  In k0 (map fst rc) -> In k0 (map fst (append_constraint rc k e)).
Proof.
  unfold append_constraint. destruct (lookup rc k); apply set_item_keys.
Qed.

Lemma append_constraint_key_new rc k e :
  In k (map fst (append_constraint rc k e)).
Proof.
  unfold append_constraint. destruct (lookup rc k); apply set_item_key_new.
Qed.

Lemma add_rule_nonempty pc kr : entries_nonempty pc -> entries_nonempty (add_rule pc kr).
Proof.
  destruct kr as [[x y] rule]. unfold add_rule. intros H.
  repeat apply append_constraint_nonempty. exact H.
Qed.

Lemma add_rule_keys pc kr k : In k (map fst pc) -> In k (map fst (add_rule pc kr)).
Proof.
  destruct kr as [[x y] rule]. unfold add_rule. intros H.
  repeat apply append_constraint_keys. exact H.
Qed.

Lemma add_rule_block pc x y rule k :
  In k [(x, y); (x + 1, y); (x, y + 1); (x + 1, y + 1)] ->
  In k (map fst (add_rule pc ((x, y), rule))).
Proof.
  unfold add_rule. intros [<-|[<-|[<-|[<-|[]]]]].
  - do 3 apply append_constraint_keys. apply append_constraint_key_new.
  - do 2 apply append_constraint_keys. apply append_constraint_key_new.
  - apply append_constraint_keys. apply append_constraint_key_new.
  - apply append_constraint_key_new.
Qed.

Lemma fold_add_rule rs :
  forall pc, entries_nonempty pc ->
    entries_nonempty (fold_left add_rule rs pc) /\
    (forall k, In k (map fst pc) -> In k (map fst (fold_left add_rule rs pc))) /\
    (forall x y rule k, In ((x, y), rule) rs ->
       In k [(x, y); (x + 1, y); (x, y + 1); (x + 1, y + 1)] ->
       In k (map fst (fold_left add_rule rs pc))).
Proof.
  induction rs as [|kr rs IH]; intros pc Hpc; simpl.
  - repeat split; auto. intros x y rule k [].
  - destruct (IH (add_rule pc kr) (add_rule_nonempty pc kr Hpc)) as (I1 & I2 & I3).
    repeat split; auto.
    + intros k Hk. apply I2. apply add_rule_keys; exact Hk.
    + intros x y rule k [->|Hin] Hk; [|eapply I3; eauto].
      apply I2. apply add_rule_block; exact Hk.
Qed.








(** ** Units after an elimination *)

Lemma shrinks_mem d d' c w :
  shrinks d d' -> mem w (cand d' c) = true -> mem w (cand d c) = true.
Proof.
  intros Hs. pose proof (shrinks_lookup d d' c Hs) as H. unfold cand.
  destruct (lookup d c), (lookup d' c); try contradiction; auto.
  rewrite !mem_In. destruct H as [Hi _]. apply Hi.
Qed.

Lemma places_same d d' u w :
  shrinks d d' -> existsb (lostb d d' w) u = false ->
  places d' u w = places d u w.
Proof.
  intros Hs. induction u as [|c u IH]; simpl; [reflexivity|].
  intros H. apply orb_false_iff in H as [Hc Hu]. rewrite (IH Hu).
  pose proof (shrinks_lookup d d' c Hs) as HL.
  pose proof (shrinks_mem d d' c w Hs) as HM.
  unfold lostb, cand in *.
  destruct (lookup d c) as [l|], (lookup d' c) as [l'|]; try contradiction;
    [|reflexivity].
  destruct (places d u w); [|reflexivity].
  destruct (mem w l), (mem w l'); simpl in *; try reflexivity; try discriminate.
  specialize (HM eq_refl); discriminate.
Qed.

Lemma only_keep d d' c w : keeps_nonempty d d' -> only d c w -> only d' c w.
Proof.
  intros [Hs Hn] (l & El & Hne & Hl).
  destruct (shrinks_lookup_Some _ _ _ _ Hs El) as (l' & El' & Hi & _).
  exists l'. split; [exact El'|]. split; [eapply Hn; eauto|].
  intros x Hx. apply Hl. apply Hi; exact Hx.
Qed.

Lemma unit_ok_same d d' u w :
  keeps_nonempty d d' -> existsb (lostb d d' w) u = false ->
  unit_ok d u w -> unit_ok d' u w.
Proof.
  intros Hk Hl (ps & Ep & Hne & Ho). exists ps.
  rewrite (places_same d d' u w (proj1 Hk) Hl).
  split; [exact Ep|]. split; [exact Hne|].
  intros c Hc. eapply only_keep; eauto.
Qed.

Lemma unit_ok_step n d d' u w :
  units_kept n d d' -> In u (all_units n) -> unit_ok d u w -> unit_ok d' u w.
Proof.
  intros [Hk HQ] Hu Hok.
  destruct (existsb (lostb d d' w) u) eqn:E.
  - apply HQ; assumption.
  - eapply unit_ok_same; eauto.
Qed.

Lemma units_kept_refl n d : units_kept n d d.
Proof.
  split; [apply keeps_nonempty_refl|]. intros u w _ H. exfalso.
  apply existsb_exists in H as (c & _ & Hc). unfold lostb in Hc.
  destruct (mem w (cand d c)); discriminate.
Qed.

Lemma units_kept_trans n d1 d2 d3 :
  units_kept n d1 d2 -> units_kept n d2 d3 -> units_kept n d1 d3.
Proof.
  intros [K1 Q1] [K2 Q2]. split; [eapply keeps_nonempty_trans; eauto|].
  intros u w Hu Hl.
  destruct (existsb (lostb d2 d3 w) u) eqn:E23; [apply Q2; assumption|].
  eapply unit_ok_same; eauto. apply Q1; [exact Hu|].
  apply existsb_exists in Hl as (c & Hc & Hlc).
  apply existsb_exists. exists c. split; [exact Hc|].
  assert (lostb d2 d3 w c = false) as H23.
  { destruct (lostb d2 d3 w c) eqn:E; [|reflexivity].
    assert (existsb (lostb d2 d3 w) u = true); [|congruence].
    apply existsb_exists; eauto. }
  unfold lostb in *. apply andb_true_iff in Hlc as [H1 H3]. rewrite H1. simpl.
  destruct (mem w (cand d2 c)); [|reflexivity].
  simpl in H23. rewrite H23 in H3. discriminate.
Qed.

Lemma places_In d u w ps c :
  places d u w = Some ps -> In c ps -> In c u /\ mem w (cand d c) = true.
Proof.
  revert ps; induction u as [|c0 u IH]; simpl; intros ps.
  - intros [= <-] [].
  - unfold cand in *. destruct (lookup d c0) as [l|] eqn:El; [|discriminate].
    destruct (places d u w) as [ps0|]; [|discriminate].
    destruct (mem w l) eqn:Em; intros [= <-] Hin.
    + destruct Hin as [<-|Hin].
      * split; [auto|]. rewrite El; exact Em.
      * destruct (IH ps0 eq_refl Hin); auto.
    + destruct (IH ps0 eq_refl Hin); auto.
Qed.

Section UnitsKept.
Variable self : Solver.
Variable fuel : nat.

Let n : Z := size (puzzle self).
Let elim := eliminate_value self fuel.

Hypothesis elim_kept : forall i v,
  preserves (units_kept n) (fun o => o = Done) (fun d => elim d i v).

Lemma check_unit_kept v u s s' :
  In u (all_units n) -> check_unit elim v s u = (s', Done) ->
  units_kept n s s' /\ unit_ok s' u v.
Proof.
  intros Hu. unfold check_unit.
  destruct (places s u v) as [[|c [|c' ps]]|] eqn:Ep; try discriminate.
  - intros E.
    assert (units_kept n s s') as Hk.
    { exact (preserves_assign_body (units_kept n) (fun o => o = Done)
               (units_kept_refl n) (units_kept_trans n) eq_refl
               elim elim_kept c v s s' Done E eq_refl). }
    split; [exact Hk|].
    destruct (existsb (lostb s s' v) u) eqn:El; [apply (proj2 Hk); assumption|].
    exists [c]. rewrite (places_same s s' u v (proj1 (proj1 Hk)) El).
    split; [exact Ep|]. split; [discriminate|]. intros c0 [= <-].
    destruct (places_In s u v [c] c Ep (or_introl eq_refl)) as [Hcu Hm].
    assert (mem v (cand s' c) = true) as Hm'.
    { destruct (mem v (cand s' c)) eqn:E'; [reflexivity|].
      assert (existsb (lostb s s' v) u = true); [|congruence].
      apply existsb_exists. exists c. split; [exact Hcu|].
      unfold lostb. rewrite Hm, E'. reflexivity. }
    unfold cand in Hm'. destruct (lookup s' c) as [l'|] eqn:El'; [|discriminate].
    exists l'. split; [exact El'|]. split.
    + intros ->. discriminate.
    + intros x Hx. eapply (assign_value_only self fuel); eauto.
  - intros [= <-]. split; [apply units_kept_refl|].
    exists (c :: c' :: ps). split; [exact Ep|]. split; discriminate.
Qed.

Lemma check_units_kept v us :
  forall s s',
    (forall u, In u us -> In u (all_units n)) ->
    for_each (check_unit elim v) us s = (s', Done) ->
    units_kept n s s' /\ forall u, In u us -> unit_ok s' u v.
Proof.
  induction us as [|u us IH]; intros s s' Hus; simpl.
  - intros [= <-]. split; [apply units_kept_refl | intros u []].
  - intros E. apply and_then_inv in E as [(s1 & E1 & E2) | [_ Hn]];
      [|congruence].
    destruct (check_unit_kept v u s s1 (Hus u (or_introl eq_refl)) E1)
      as [K1 O1].
    destruct (IH s1 s' (fun u0 H => Hus u0 (or_intror H)) E2) as [K2 O2].
    split; [eapply units_kept_trans; eauto|].
    intros u0 [<-|H0]; [|apply O2; exact H0].
    eapply unit_ok_step; eauto. apply Hus; left; reflexivity.
Qed.

Lemma cand_set_item d i l c :
  cand (set_item d i l) c = if cell_eqb i c then l else cand d c.
Proof.
  unfold cand. destruct (cell_eqb i c) eqn:E.
  - apply cell_eqb_eq in E; subst. rewrite lookup_set_item_same; reflexivity.
  - apply cell_eqb_neq in E. rewrite lookup_set_item_other by exact E.
    reflexivity.
Qed.

Lemma eliminate_body_kept i v :
  preserves (units_kept n) (fun o => o = Done)
    (fun d => eliminate_body self elim d i v).
Proof.
  intros d d' o E ->. unfold eliminate_body in E.
  destruct (lookup d i) as [dom|] eqn:El; [|discriminate].
  destruct (mem v dom) eqn:Em; simpl in E;
    [|injection E as <-; apply units_kept_refl].
  apply mem_In in Em as Hin. set (d1 := set_item d i (without v dom)) in *.
  unfold propagate in E.
  apply and_then_inv in E as [(d2 & E1 & E) | [_ Hn]]; [|congruence].
  apply and_then_inv in E as [(d3 & E2 & E3) | [_ Hn]]; [|congruence].
  assert (without v dom <> []) as Hne.
  { intros Hw. unfold check_length in E1. unfold d1 in E1.
    rewrite lookup_set_item_same, Hw in E1. discriminate. }
  assert (keeps_nonempty d d1) as K01.
  { apply keeps_nonempty_remove; auto. }
  assert (units_kept n d1 d2) as K12.
  { exact (preserves_check_length self (units_kept n) (fun o => o = Done)
             (units_kept_refl n) (units_kept_trans n) eq_refl
             elim elim_kept i d1 d2 Done E1 eq_refl). }
  assert (units_kept n d3 d') as K3.
  { exact (preserves_check_rules self (units_kept n) (fun o => o = Done)
             (units_kept_refl n) (units_kept_trans n) eq_refl
             elim elim_kept i d3 d' Done E3 eq_refl). }
  unfold check_units in E2. fold n in E2.
  destruct (units n i) as [us|] eqn:Eu; [|discriminate].
  assert (forall u, In u us <-> In u (all_units n) /\ In i u) as Hus.
  { unfold units in Eu. destruct (cell_mem i (cells n)); [|discriminate].
    injection Eu as <-. intros u. rewrite filter_In, cell_mem_In. tauto. }
  destruct (check_units_kept v us d2 d3 (fun u H => proj1 (proj1 (Hus u) H)) E2)
    as [K23 O3].
  pose proof (units_kept_trans n _ _ _ K12 (units_kept_trans n _ _ _ K23 K3))
    as K1.
  split; [eapply keeps_nonempty_trans; [exact K01 | exact (proj1 K1)]|].
  intros u w Hu Hl.
  destruct (existsb (lostb d1 d' w) u) eqn:E1'; [apply (proj2 K1); assumption|].
  apply existsb_exists in Hl as (c & Hc & Hlc).
  assert (lostb d1 d' w c = false) as H1c.
  { destruct (lostb d1 d' w c) eqn:E; [|reflexivity].
    assert (existsb (lostb d1 d' w) u = true); [|congruence].
    apply existsb_exists; eauto. }
  unfold lostb in Hlc, H1c. apply andb_true_iff in Hlc as [H0 H'].
  rewrite H' in H1c. rewrite andb_true_r in H1c.
  unfold d1 in H1c. rewrite cand_set_item in H1c.
  destruct (cell_eqb i c) eqn:Eic; [|congruence].
  apply cell_eqb_eq in Eic; subst c.
  unfold cand in H0. rewrite El in H0.
  assert (w = v) as ->.
  { destruct (Z.eq_dec w v) as [|Hwv]; [assumption|exfalso].
    apply mem_In in H0. apply mem_false in H1c. apply H1c.
    unfold without. apply filter_In. split; [exact H0|].
    apply negb_true_iff. apply Z.eqb_neq; exact Hwv. }
  eapply unit_ok_step; [exact K3 | exact Hu |].
  apply O3. apply Hus. auto.
Qed.
End UnitsKept.

Lemma eliminate_value_kept self fuel i v :
  preserves (units_kept (size (puzzle self))) (fun o => o = Done)
    (fun d => eliminate_value self fuel d i v).
Proof.
  revert i v; induction fuel as [|fuel IH]; intros i v.
  - intros d d' o E ->. discriminate.
  - simpl. apply eliminate_body_kept. exact IH.
Qed.

Lemma shrinks_cand d d' c w : shrinks d d' -> In w (cand d' c) -> In w (cand d c).
Proof.
  intros Hs H. apply mem_In. eapply shrinks_mem; eauto. apply mem_In; exact H.
Qed.

Lemma filter_none {A : Type} (p : A -> bool) (l : list A) :
  (forall x, In x l -> p x = false) -> filter p l = [].
Proof.
  induction l as [|a l IH]; intros H; simpl; [reflexivity|].
  rewrite (H a (or_introl eq_refl)). apply IH. intros x Hx. apply H; right; exact Hx.
Qed.

Lemma filter_unique {A : Type} (p : A -> bool) (l : list A) (a : A) :
  NoDup l -> In a l -> (forall b, In b l -> (p b = true <-> b = a)) ->
  filter p l = [a].
Proof.
  induction l as [|b l IH]; intros Hn Hin Hp; [destruct Hin|].
  inversion Hn as [|? ? Hnin Hn']; subst. simpl.
  destruct Hin as [->|Hin].
  - rewrite (proj2 (Hp a (or_introl eq_refl)) eq_refl). f_equal.
    apply filter_none. intros x Hx. destruct (p x) eqn:E; [|reflexivity].
    apply (Hp x (or_intror Hx)) in E. subst. contradiction.
  - destruct (p b) eqn:E.
    + apply (Hp b (or_introl eq_refl)) in E. subst. contradiction.
    + apply IH; auto. intros x Hx. apply Hp. right; exact Hx.
Qed.

Lemma product_column xs i : product xs [i] = map (fun x => (x, i)) xs.
Proof.
  unfold product. induction xs as [|a xs IH]; simpl; [reflexivity|].
  f_equal; try exact IH.
Qed.

Lemma product_row i ys : product [i] ys = map (fun y => (i, y)) ys.
Proof. unfold product. simpl. apply app_nil_r. Qed.

Lemma all_units_NoDup n u : In u (all_units n) -> NoDup u.
Proof.
  unfold all_units. intros Hu. apply in_app_iff in Hu as [Hu|Hu];
    apply in_map_iff in Hu as (i & <- & _).
  - rewrite product_column. apply Injective_map_NoDup; [|apply NoDup_range].
    intros a b [= ->]; reflexivity.
  - rewrite product_row. apply Injective_map_NoDup; [|apply NoDup_range].
    intros a b [= ->]; reflexivity.
Qed.

(** [places] is the list of the cells of the unit that hold the value, in
    the order of the unit; it is a [KeyError] if a cell of the unit is no
    key. *)
Lemma places_filter d u v :
  (forall c, In c u -> lookup d c <> None) ->
  places d u v = Some (filter (fun c => mem v (cand d c)) u).
Proof.
  induction u as [|a u IH]; intros H; simpl; [reflexivity|].
  rewrite IH by (intros c Hc; apply H; right; exact Hc).
  unfold cand. destruct (lookup d a) as [l|] eqn:El.
  - destruct (mem v l); reflexivity.
  - exfalso. apply (H a); [left; reflexivity | exact El].
Qed.

Lemma places_keys d u v ps :
  places d u v = Some ps -> forall c, In c u -> lookup d c <> None.
Proof.
  revert ps; induction u as [|a u IH]; simpl; intros ps E c Hc; [destruct Hc|].
  destruct (lookup d a) as [l|] eqn:El; [|discriminate].
  destruct (places d u v) as [ps0|]; [|discriminate].
  destruct Hc as [<-|Hc]; [congruence | eapply IH; eauto].
Qed.

(** * The claims *)

(** ** solve returns a Latin square *)

(** C1: a grid returned by [solve] should hold each value of [1, N] exactly
    once in every row and column.  The seeding pass of [solve] narrows
    domains in place, without [eliminate_value]: a cell it leaves with one
    candidate is never propagated to its peers.  On the 2x2 grid whose block
    is marked even, every cell is seeded with [(2,)], [search] finds every
    domain of length 1 and returns the grid of four 2s, which is no Latin
    square. *)
Theorem solve_even_block_not_latin :
  solve even_block = Ok (constant_grid 2)
  /\ latin_square 2 (constant_grid 2) = false.
Proof. split; vm_compute; reflexivity. Qed.

(** What does hold of every returned grid: its keys are the cells of the grid
    ([solve_total]) and its values lie in [1, N] ([solve_in_range]). *)

(** ** solve returns a grid satisfying the junction rules *)

(** C2: in a grid returned by [solve], the operator of every binary rule
    applied to either diagonal pair of its block should yield the target.
    [rule_inverse] divides with [/], which floors: for the product 5 it
    offers 2 as the partner of 2.  [solve] returns a Latin square with the
    diagonal pair (1,0), (0,1) holding 2 and 2, whose product is 4; on the
    2x2 grid it returns four 2s. *)
Theorem solve_product_five_breaks_rule :
  (solve product_five = Ok product_five_grid
   /\ latin_square 5 product_five_grid = true
   /\ lookup product_five_grid (1, 0) = Some 2
   /\ lookup product_five_grid (0, 1) = Some 2
   /\ rule_holds (mkRule "*" 5) 2 2 = false
   /\ junction_rules_hold product_five product_five_grid = false)
  /\ (solve product_five_small = Ok (constant_grid 2)
      /\ junction_rules_hold product_five_small (constant_grid 2) = false).
Proof. repeat split; vm_compute; reflexivity. Qed.

(** ** rule_inverse *)

(** Where no rounding can happen, [rule_inverse] returns the set the
    specification describes. *)
Lemma rule_inverse_exact rule v maximum :
  op rule = "+"%string \/ op rule = "-"%string
  \/ (op rule = "*"%string /\ v <> 0 /\ value rule mod v = 0)
  \/ (op rule = "/"%string /\ value rule <> 0 /\ v mod value rule = 0) ->
  rule_inverse rule v maximum = Ok (rule_inverse_spec rule v maximum).
Proof.
  assert (forall l, filter (fun w => (0 <? w) && (w <=? maximum)) l
                    = filter (fun w => (1 <=? w) && (w <=? maximum)) l) as Hf.
  { intros l. apply filter_ext. intros w. f_equal.
    destruct (Z.ltb_spec 0 w), (Z.leb_spec 1 w); try reflexivity; lia. }
  unfold rule_inverse, rule_inverse_spec, py_div.
  intros [H | [H | [(H & Hv & Hm) | (H & Ht & Hm)]]]; rewrite H;
    repeat match goal with
           | |- context [String.eqb ?a ?b] =>
               let r := eval vm_compute in (String.eqb a b) in
               change (String.eqb a b) with r
           end; cbv iota.
  - rewrite Hf; reflexivity.
  - rewrite Hf; reflexivity.
  - apply Z.eqb_neq in Hv. apply Z.eqb_eq in Hm. rewrite Hv, Hm.
    cbn [negb andb]. cbv iota. rewrite Hf; reflexivity.
  - apply Z.eqb_neq in Ht. apply Z.eqb_eq in Hm. rewrite Ht, Hm.
    cbn [negb andb]. cbv iota. rewrite Hf; reflexivity.
Qed.

(** C3: [rule_inverse] should return, within [1, maximum], the inverse set
    with quotients kept only when they are exact.  The division of
    [rule_inverse] floors instead: for the product 6 and the value 4 it
    returns [{1}] where the exact set is empty, and for the quotient 2 and
    the value 3 it returns [{6, 1}] where the exact set is [{6}]. *)
Theorem rule_inverse_floors :
  rule_inverse (mkRule "*" 6) 4 7 = Ok [1]
  /\ rule_inverse_spec (mkRule "*" 6) 4 7 = []
  /\ rule_holds (mkRule "*" 6) 4 1 = false
  /\ rule_inverse (mkRule "/" 2) 3 6 = Ok [6; 1]
  /\ rule_inverse_spec (mkRule "/" 2) 3 6 = [6]
  /\ rule_holds (mkRule "/" 2) 3 1 = false.
Proof. repeat split; vm_compute; reflexivity. Qed.

(** ** Malformed puzzles *)

(** On a cell that has candidates, none of them [v], [assign_value] does not
    return: it eliminates them all, and the last elimination raises. *)
Lemma assign_value_rejects self fuel d i v l :
  lookup d i = Some l -> l <> [] -> ~ In v l ->
  forall d', assign_value self fuel d i v <> (d', Done).
Proof.
  intros El Hne Hnin d' E.
  destruct (assign_value_keeps_nonempty self fuel d i v d' E) as [Hs Hk].
  destruct (shrinks_lookup_Some _ _ _ _ Hs El) as (l' & El' & Hi & _).
  pose proof (Hk i l l' El El' Hne) as Hne'.
  destruct l' as [|x l']; [congruence|].
  apply Hnin. rewrite <- (assign_value_only self fuel d i v d' _ E El' x).
  - apply Hi; left; reflexivity.
  - left; reflexivity.
Qed.






(** How the two puzzles of the witness fail: the misplaced rule with the
    [KeyError] of the seeding pass, the bad given with the [Contradiction] of
    [eliminate_value], raised once propagation has resolved the other
    cells. *)
Example malformed_puzzles_errors :
  solve corner_anchor = Raise KeyError
  /\ setup (Solver_init given_five) (enough_fuel (Solver_init given_five))
     = ([((0, 0), []); ((0, 1), [1]); ((1, 0), [1]); ((1, 1), [2])],
        Raise Contradiction)
  /\ solve given_five = Raise Contradiction.
Proof. repeat split; vm_compute; reflexivity. Qed.

(** ** Puzzles without solution *)

(** C5: a puzzle without solution should make [solve] raise its own error,
    never the internal [Contradiction].  [solve] maps the [Contradiction] of
    [search] to that error, as on the grid whose diagonals must differ by 1,
    but applies the givens outside the [try]: two equal givens in a row make
    it raise [Contradiction] itself, in whichever order they are applied. *)
Theorem solve_conflicting_givens_raises_contradiction :
  solve conflicting_givens = Raise Contradiction
  /\ solve (mkPuzzle 2 [] [((0, 1), 1); ((0, 0), 1)]) = Raise Contradiction
  /\ solve difference_one = Raise ValueError_no_solution.
Proof. repeat split; vm_compute; reflexivity. Qed.

(** ** Termination *)

(** C6: [solve] terminates, for every puzzle: with the fuel of [solve], one
    more than the number of candidates of the initial state, it returns a
    grid or raises.  The measure is the total number of candidates: an
    elimination whose value is among the candidates of its cell leaves
    strictly fewer candidates behind (whether it returns or raises), and any
    other elimination leaves the state as it is. *)
Theorem solve_terminates (p : Puzzle) :
  ((exists g, solve p = Ok g) \/ (exists e, solve p = Raise e))
  /\ forall self fuel d i v,
       if mem v (cand d i)
       then (total (fst (eliminate_value self (S fuel) d i v)) < total d)%nat
       else fst (eliminate_value self (S fuel) d i v) = d.
Proof.
  split.
  - pose proof (solve_fuel p) as H.
    destruct (solve p) as [g|e|]; [left | right | congruence]; eauto.
  - intros self fuel d i v. unfold cand.
    destruct (lookup d i) as [dom|] eqn:El.
    + destruct (mem v dom) eqn:Em.
      * apply mem_In in Em. eapply eliminate_value_decreases; eauto.
      * simpl. unfold eliminate_body. rewrite El, Em. reflexivity.
    + simpl. unfold eliminate_body. rewrite El. reflexivity.
Qed.

(** ** Branches of the search do not share state *)

(** C7: a branch of [search] works on a copy: whatever becomes of the branch,
    [Contradiction] included, every dict object that existed before it, the
    parent's state and the copies of earlier branches among them, has the
    contents it had.  The same holds of a whole call of [search]. *)
Theorem failed_branch_leaves_states_unchanged
    (self : Solver) (fuel : nat) (h : heap) (possibles : nat) (min_idx : cell)
    (v : Z) (r : nat) :
  (r < List.length h)%nat ->
  deref (fst (try_value self (S fuel) (search self fuel) possibles min_idx h v)) r
  = deref h r
  /\ deref (fst (search self fuel h possibles)) r = deref h r.
Proof.
  intros Hr. split.
  - apply (try_value_extends self (S fuel) (search self fuel)
             (search_extends self fuel) possibles min_idx h v); exact Hr.
  - apply (search_extends self fuel h possibles); exact Hr.
Qed.

Lemma failed_branch_leaves_states_unchanged_witness :
  (0 < List.length difference_one_heap)%nat
  /\ snd (try_value difference_one_solver 9 (search difference_one_solver 8)
            0 (0, 0) difference_one_heap 1) = None
  /\ deref (fst (try_value difference_one_solver 9
                   (search difference_one_solver 8)
                   0 (0, 0) difference_one_heap 1)) 0
     = deref difference_one_heap 0
  /\ deref (fst (search difference_one_solver 8 difference_one_heap 0)) 0
     = deref difference_one_heap 0.
Proof.
  split; [simpl; lia|]. split; [vm_compute; reflexivity|].
  apply (failed_branch_leaves_states_unchanged difference_one_solver 8
           difference_one_heap 0 (0, 0) 1 0).
  simpl; lia.
Defined.

(** ** Units after an elimination *)

(** C8: when [eliminate_value] removes [v] from a cell, it runs, after the
    peer cascade, one check on each unit of the cell.  On a unit none of
    whose cells holds [v] the check raises [Contradiction]; on a unit exactly
    one of whose cells holds [v] it assigns [v] to that cell.  And when the
    call returns, each unit of the cell has a cell holding [v], and a cell
    that is the only one of the unit to hold [v] is resolved to [v]. *)
Theorem eliminate_value_checks_units
    (self : Solver) (fuel : nat) (d : dict) (i : cell) (v : Z)
    (dom : list Z) (us : list (list cell)) (u : list cell) :
  lookup d i = Some dom -> In v dom ->
  units (size (puzzle self)) i = Some us -> In u us ->
  eliminate_value self (S fuel) d i v
  = and_then (check_length self (eliminate_value self fuel) i
                (set_item d i (without v dom)))
      (fun s =>
         and_then (for_each (check_unit (eliminate_value self fuel) v) us s)
           (check_rules self (eliminate_value self fuel) i))
  /\ (forall s, (forall c, In c u -> lookup s c <> None) ->
                (forall c, In c u -> ~ In v (cand s c)) ->
                check_unit (eliminate_value self fuel) v s u
                = (s, Raise Contradiction))
  /\ (forall s c, (forall c', In c' u -> lookup s c' <> None) ->
                  In c u -> In v (cand s c) ->
                  (forall c', In c' u -> In v (cand s c') -> c' = c) ->
                  check_unit (eliminate_value self fuel) v s u
                  = assign_value self fuel s c v)
  /\ (forall d', eliminate_value self (S fuel) d i v = (d', Done) ->
                 (exists c, In c u /\ In v (cand d' c))
                 /\ forall c, In c u -> In v (cand d' c) ->
                      (forall c', In c' u -> In v (cand d' c') -> c' = c) ->
                      only d' c v).
Proof.
  intros El Hin Eu Hu.
  assert (In u (all_units (size (puzzle self))) /\ In i u) as [Hall Hi].
  { unfold units in Eu.
    destruct (cell_mem i (cells (size (puzzle self)))); [|discriminate].
    injection Eu as <-. apply filter_In in Hu as [? Hm].
    apply cell_mem_In in Hm. auto. }
  pose proof (all_units_NoDup _ _ Hall) as Hnd.
  split; [|split; [|split]].
  - simpl. unfold eliminate_body. rewrite El.
    apply mem_In in Hin. rewrite Hin. cbn [negb].
    unfold propagate, check_units. rewrite Eu. reflexivity.
  - intros s Hk Hno. unfold check_unit. rewrite (places_filter s u v Hk).
    rewrite filter_none; [reflexivity|].
    intros c Hc. destruct (mem v (cand s c)) eqn:E; [|reflexivity].
    apply mem_In in E. destruct (Hno c Hc E).
  - intros s c Hk Hc Hv Hun. unfold check_unit. rewrite (places_filter s u v Hk).
    rewrite (filter_unique _ u c Hnd Hc); [reflexivity|].
    intros b Hb. rewrite mem_In. split; [apply Hun; exact Hb | intros ->; exact Hv].
  - intros d' E.
    assert (unit_ok d' u v) as (ps & Ep & Hne & Ho).
    { destruct (eliminate_value_kept self (S fuel) i v d d' Done E eq_refl)
        as [_ HQ].
      apply HQ; [exact Hall|]. apply existsb_exists. exists i.
      split; [exact Hi|]. unfold lostb, cand. rewrite El.
      apply mem_In in Hin. rewrite Hin. simpl.
      destruct (lookup d' i) as [l'|] eqn:El'; [|reflexivity].
      apply negb_true_iff. apply mem_false.
      eapply eliminate_value_removes; eauto. }
    rewrite (places_filter d' u v (places_keys d' u v ps Ep)) in Ep.
    injection Ep as <-. split.
    + destruct (filter (fun c => mem v (cand d' c)) u) as [|c ps] eqn:Ef;
        [congruence|].
      assert (In c (filter (fun c => mem v (cand d' c)) u)) as Hc
        by (rewrite Ef; left; reflexivity).
      apply filter_In in Hc as [Hc Hm]. apply mem_In in Hm. eauto.
    + intros c Hc Hv Hun. apply Ho. apply (filter_unique _ u c Hnd Hc).
      intros b Hb. rewrite mem_In.
      split; [apply Hun; exact Hb | intros ->; exact Hv].
Qed.

Lemma eliminate_value_checks_units_witness :
  lookup empty_two_state (0, 0) = Some [1; 2] /\ In 1 [1; 2]
  /\ units (size (puzzle empty_two_solver)) (0, 0)
     = Some [[(0, 0); (1, 0)]; [(0, 0); (0, 1)]]
  /\ In [(0, 0); (0, 1)] [[(0, 0); (1, 0)]; [(0, 0); (0, 1)]]
  /\ eliminate_value empty_two_solver 9 empty_two_state (0, 0) 1
     = ([((0, 0), [2]); ((0, 1), [1]); ((1, 0), [1]); ((1, 1), [2])], Done)
  /\ (exists c, In c [(0, 0); (0, 1)]
                /\ In 1 (cand [((0, 0), [2]); ((0, 1), [1]); ((1, 0), [1]);
                               ((1, 1), [2])] c))
  /\ (forall c, In c [(0, 0); (0, 1)] ->
        In 1 (cand [((0, 0), [2]); ((0, 1), [1]); ((1, 0), [1]); ((1, 1), [2])]
                c) ->
        (forall c', In c' [(0, 0); (0, 1)] ->
           In 1 (cand [((0, 0), [2]); ((0, 1), [1]); ((1, 0), [1]);
                       ((1, 1), [2])] c') -> c' = c) ->
        only [((0, 0), [2]); ((0, 1), [1]); ((1, 0), [1]); ((1, 1), [2])] c 1).
Proof.
  assert (lookup empty_two_state (0, 0) = Some [1; 2]) as H1 by reflexivity.
  assert (In 1 [1; 2]) as H2 by (simpl; auto).
  assert (units (size (puzzle empty_two_solver)) (0, 0)
          = Some [[(0, 0); (1, 0)]; [(0, 0); (0, 1)]]) as H3 by reflexivity.
  assert (In [(0, 0); (0, 1)] [[(0, 0); (1, 0)]; [(0, 0); (0, 1)]]) as H4
    by (simpl; auto).
  assert (eliminate_value empty_two_solver 9 empty_two_state (0, 0) 1
          = ([((0, 0), [2]); ((0, 1), [1]); ((1, 0), [1]); ((1, 1), [2])], Done))
    as H5 by (vm_compute; reflexivity).
  repeat (split; [assumption|]).
  exact (proj2 (proj2 (proj2 (eliminate_value_checks_units empty_two_solver 8
                                empty_two_state (0, 0) 1 [1; 2]
                                [[(0, 0); (1, 0)]; [(0, 0); (0, 1)]]
                                [(0, 0); (0, 1)] H1 H2 H3 H4))) _ H5).
Defined.

(** ** Givens *)

(** C9: in a grid returned by [solve], every given cell holds its given
    value.  The givens are assigned before the search ([apply_givens_fixed]),
    and nothing puts a candidate back ([eliminate_value_shrinks],
    [search_result]). *)
Theorem solve_keeps_given_values (p : Puzzle) (g : grid) (c : cell) (v : Z) :
  solve p = Ok g -> In (c, v) (givens p) -> lookup g c = Some v.
Proof. apply solve_keeps_givens. Qed.

Lemma solve_keeps_given_values_witness :
  solve EXAMPLE = Ok EXAMPLE_grid
  /\ In ((0, 3), 2) (givens EXAMPLE)
  /\ lookup EXAMPLE_grid (0, 3) = Some 2.
Proof.
  assert (solve EXAMPLE = Ok EXAMPLE_grid) as H1 by (vm_compute; reflexivity).
  assert (In ((0, 3), 2) (givens EXAMPLE)) as H2 by (simpl; auto).
  split; [exact H1|]. split; [exact H2|].
  exact (solve_keeps_given_values EXAMPLE EXAMPLE_grid (0, 3) 2 H1 H2).
Defined.

(** ** Assigning a value that is no candidate *)

(** C10: [assign_value] should raise [Contradiction] whenever the value is
    not among the candidates of the cell.  On a cell without candidates it
    has nothing to eliminate and returns, the state untouched.  [solve]
    reaches such states: its seeding pass empties the domains of a rule no
    value satisfies without raising, the given is then assigned to an empty
    domain, and [search] fails on [min] of an empty sequence. *)
Theorem assign_value_empty_domain_returns :
  (forall self fuel d i v,
     assign_value self fuel (set_item d i []) i v = (set_item d i [], Done))
  /\ seed (Solver_init (sum_hundred 1))
        (initial_possibles (Solver_init (sum_hundred 1))) = (all_empty, Done)
  /\ assign_value (Solver_init (sum_hundred 1))
        (enough_fuel (Solver_init (sum_hundred 1))) all_empty (0, 0) 1
     = (all_empty, Done)
  /\ solve (sum_hundred 1) = Raise ValueError_min_empty.
Proof.
  split.
  - intros self fuel d i v. unfold assign_value, assign_body.
    rewrite lookup_set_item_same. reflexivity.
  - repeat split; vm_compute; reflexivity.
Qed.

(** * Further properties of the code *)

(** ** create_peersets *)

Lemma In_product xs ys a b : In (a, b) (product xs ys) <-> In a xs /\ In b ys.
Proof.
  unfold product. rewrite in_flat_map. split.
  - intros (x & Hx & H). apply in_map_iff in H as (y & [= <- <-] & Hy). auto.
  - intros [Ha Hb]. exists a. split; [exact Ha|]. apply in_map_iff. eauto.
Qed.

Lemma units_filter_columns n x y :
  In x (range n) -> In y (range n) ->
  filter (cell_mem (x, y)) (map (fun i => product (range n) [i]) (range n))
  = [product (range n) [y]].
Proof.
  intros Hx Hy. rewrite filter_map_swap.
  rewrite (filter_unique _ (range n) y); [reflexivity | apply NoDup_range | exact Hy |].
  intros i Hi. unfold Basics.compose. rewrite cell_mem_In, In_product. simpl.
  split; [intros [_ [H|[]]]; auto | intros ->; auto].
Qed.

Lemma units_filter_rows n x y :
  In x (range n) -> In y (range n) ->
  filter (cell_mem (x, y)) (map (fun i => product [i] (range n)) (range n))
  = [product [x] (range n)].
Proof.
  intros Hx Hy. rewrite filter_map_swap.
  rewrite (filter_unique _ (range n) x); [reflexivity | apply NoDup_range | exact Hx |].
  intros i Hi. unfold Basics.compose. rewrite cell_mem_In, In_product. simpl.
  split; [intros [[H|[]] _]; auto | intros ->; auto].
Qed.

Lemma units_eq (n x y : Z) :
  units n (x, y) =
  if cell_mem (x, y) (cells n)
  then Some [product (range n) [y]; product [x] (range n)]
  else None.
Proof.
  unfold units. destruct (cell_mem (x, y) (cells n)) eqn:E; [|reflexivity].
  apply cell_mem_In in E. unfold cells in E. apply In_product in E as [Hx Hy].
  unfold all_units. rewrite filter_app, units_filter_columns, units_filter_rows; auto.
Qed.

(** The units of a cell of the grid are the column through it (the cells
    with its second coordinate) and the row through it, in that order; a
    cell outside the grid has none ([KeyError]). *)
Theorem units_spec (n x y : Z) :
  units n (x, y) =
  if cell_mem (x, y) (cells n)
  then Some [product (range n) [y]; product [x] (range n)]
  else None.
Proof. exact (units_eq n x y). Qed.

Lemma In_dedup_cells l c : In c (dedup_cells l) <-> In c l.
Proof.
  induction l as [|a l IH]; simpl; [tauto|].
  rewrite filter_In, IH. destruct (cell_eq_dec a c) as [->|Hne].
  - tauto.
  - apply cell_eqb_neq in Hne as Hb. rewrite Hb. simpl. tauto.
Qed.

Lemma peers_cases (n : Z) (c : cell) :
  match peers n c with
  | Some ps =>
      In c (cells n)
      /\ forall c', In c' ps <->
                    In c' (cells n) /\ c' <> c
                    /\ (fst c' = fst c \/ snd c' = snd c)
  | None => ~ In c (cells n)
  end.
Proof.
  destruct c as [x y]. unfold peers. rewrite units_eq.
  destruct (cell_mem (x, y) (cells n)) eqn:E.
  - apply cell_mem_In in E. split; [exact E|].
    pose proof E as E'. unfold cells in E'. apply In_product in E' as [Hx Hy].
    intros [a b]. rewrite filter_In, In_dedup_cells. cbn [concat].
    rewrite app_nil_r, in_app_iff, !In_product. unfold cells. rewrite In_product.
    cbn [In fst snd]. rewrite negb_true_iff, cell_eqb_neq. split.
    + intros [Hin Hne]. split; [|split; [congruence|]].
      * destruct Hin as [[Ha [<-|[]]] | [[<-|[]] Hb]]; auto.
      * destruct Hin as [[Ha [<-|[]]] | [[<-|[]] Hb]]; auto.
    + intros ((Ha & Hb) & Hne & [->| ->]); (split; [|congruence]); auto.
  - intros H. apply cell_mem_In in H. congruence.
Qed.

(** The peers of a cell of the grid are the other cells of the grid that
    share a coordinate with it; a cell outside the grid has none
    ([KeyError]). *)
Theorem peers_spec (n : Z) (c : cell) :
  match peers n c with
  | Some ps =>
      In c (cells n)
      /\ forall c', In c' ps <->
                    In c' (cells n) /\ c' <> c
                    /\ (fst c' = fst c \/ snd c' = snd c)
  | None => ~ In c (cells n)
  end.
Proof. exact (peers_cases n c). Qed.

(** Being a peer is symmetric. *)
Theorem peers_symmetric (n : Z) (c c' : cell) : is_peer n c c' = is_peer n c' c.
Proof.
  assert (forall a b, is_peer n a b = true -> is_peer n b a = true) as H.
  { intros a b. unfold is_peer. pose proof (peers_cases n a) as Ha.
    pose proof (peers_cases n b) as Hb.
    destruct (peers n a) as [pa|]; [|discriminate].
    rewrite cell_mem_In. intros Hin. apply Ha in Hin as (Hbc & Hne & Hl).
    destruct (peers n b) as [pb|]; [|contradiction].
    apply cell_mem_In. apply Hb. destruct Ha as [Hac _].
    split; [exact Hac|]. split; [congruence|]. destruct Hl; auto. }
  destruct (is_peer n c c') eqn:E1, (is_peer n c' c) eqn:E2; try reflexivity.
  - apply H in E1. congruence.
  - apply H in E2. congruence.
Qed.

(** ** create_rulesets *)

Lemma In_entries_append pc k e c e' :
  In e' (entries (append_constraint pc k e) c) <->
  In e' (entries pc c) \/ (k = c /\ e' = e).
Proof.
  unfold entries, append_constraint.
  destruct (cell_eq_dec k c) as [->|Hne].
  - destruct (lookup pc c) as [l|]; rewrite lookup_set_item_same.
    + rewrite in_app_iff. simpl. intuition congruence.
    + simpl. intuition congruence.
  - destruct (lookup pc k) as [l|]; rewrite lookup_set_item_other by exact Hne;
      intuition congruence.
Qed.

Lemma In_entries_add_rule pc x y rule c rule' c' :
  In (rule', c') (entries (add_rule pc ((x, y), rule)) c) <->
  In (rule', c') (entries pc c) \/ (rule' = rule /\ In (c, c') (block_pairs x y)).
Proof.
  unfold add_rule, block_pairs. rewrite !In_entries_append. simpl. split.
  - intros [[[[H | [<- [= -> ->]]] | [<- [= -> ->]]] | [<- [= -> ->]]]
           | [<- [= -> ->]]]; auto 8.
  - intros [H | [-> [[= <- <-] | [[= <- <-] | [[= <- <-] | [[= <- <-] | []]]]]]];
      auto 8.
Qed.

Lemma In_entries_fold rs :
  forall pc c rule c',
    In (rule, c') (entries (fold_left add_rule rs pc) c) <->
    In (rule, c') (entries pc c)
    \/ exists x y, In ((x, y), rule) rs /\ In (c, c') (block_pairs x y).
Proof.
  induction rs as [|[[x y] r] rs IH]; intros pc c rule c'; cbn [fold_left In].
  - split; [auto | intros [H | (x & y & [] & _)]; exact H].
  - rewrite IH, In_entries_add_rule. split.
    + intros [[H | [-> H]] | (x0 & y0 & H & H')]; eauto 8.
    + intros [H | (x0 & y0 & [[= -> -> ->] | H] & H')]; eauto 8.
Qed.

Lemma In_create_rulesets (p : Puzzle) (c : cell) (rule : Rule) (c' : cell) :
  In (rule, c') (entries (create_rulesets p) c) <->
  exists x y, In ((x, y), rule) (rules p) /\ In (c, c') (block_pairs x y).
Proof.
  unfold create_rulesets. rewrite In_entries_fold. simpl. tauto.
Qed.

(** [create_rulesets] records at a cell exactly the declared rules whose
    block the cell belongs to, each with the cell diagonally across that
    block. *)
Theorem create_rulesets_spec (p : Puzzle) (c : cell) (rule : Rule) (c' : cell) :
  In (rule, c') (entries (create_rulesets p) c) <->
  exists x y, In ((x, y), rule) (rules p) /\ In (c, c') (block_pairs x y).
Proof. exact (In_create_rulesets p c rule c'). Qed.

Lemma block_pairs_symmetric x y c c' :
  In (c, c') (block_pairs x y) -> In (c', c) (block_pairs x y).
Proof.
  unfold block_pairs. simpl.
  intros [[= <- <-] | [[= <- <-] | [[= <- <-] | [[= <- <-] | []]]]]; auto.
Qed.

Lemma entries_symmetric (p : Puzzle) (c c' : cell) (rule : Rule) :
  In (rule, c') (entries (create_rulesets p) c) <->
  In (rule, c) (entries (create_rulesets p) c').
Proof.
  rewrite !In_create_rulesets.
  split; intros (x & y & H & H'); exists x, y;
    (split; [exact H | apply block_pairs_symmetric; exact H']).
Qed.

(** The rule-constraint map is symmetric: a cell lists a partner under a
    rule exactly when the partner lists the cell under that rule. *)
Theorem create_rulesets_symmetric (p : Puzzle) (c c' : cell) (rule : Rule) :
  In (rule, c') (entries (create_rulesets p) c) <->
  In (rule, c) (entries (create_rulesets p) c').
Proof. exact (entries_symmetric p c c' rule). Qed.

(** ** rule_inverse and rule_complement *)

Lemma In_dedup l x : In x (dedup l) <-> In x l.
Proof.
  split; [apply dedup_incl|].
  induction l as [|a l IH]; simpl; [tauto|].
  destruct (Z.eq_dec a x) as [->|Hne]; [auto|].
  intros [H|H]; [contradiction|]. right. apply filter_In. split; [auto|].
  apply negb_true_iff. apply Z.eqb_neq. exact Hne.
Qed.

Ltac eval_op_tests :=
  repeat match goal with
         | |- context [String.eqb ?a ?b] =>
             let r := eval vm_compute in (String.eqb a b) in
             change (String.eqb a b) with r
         | H : context [String.eqb ?a ?b] |- _ =>
             let r := eval vm_compute in (String.eqb a b) in
             change (String.eqb a b) with r in H
         end; cbv beta match zeta in *.

(** From [Ok a = Ok b] to [a = b], the terms left as they are. *)
Ltac ok_inj E :=
  apply (f_equal (fun r => match r with Ok x => x | _ => [] end)) in E;
  cbv beta match in E; subst.

(** The four ways of being a handled operator. *)
Lemma binary_op_cases rule :
  binary_op rule = true ->
  op rule = "+"%string \/ op rule = "-"%string
  \/ op rule = "*"%string \/ op rule = "/"%string.
Proof.
  unfold binary_op. rewrite !orb_true_iff, !String.eqb_eq. tauto.
Qed.

Lemma rule_inverse_cases (rule : Rule) (v maximum : Z) :
  match rule_inverse rule v maximum with
  | Ok s =>
      binary_op rule = true /\ NoDup s /\ forall w, In w s -> 1 <= w <= maximum
  | Raise e =>
      (e = ValueError_unhandled_op /\ binary_op rule = false)
      \/ (e = ZeroDivisionError
          /\ ((op rule = "*"%string /\ v = 0)
              \/ (op rule = "/"%string /\ value rule = 0)))
  | OutOfFuel => False
  end.
Proof.
  assert (forall l,
             NoDup (filter (fun w => (0 <? w) && (w <=? maximum)) (dedup l))
             /\ forall w, In w (filter (fun w => (0 <? w) && (w <=? maximum))
                                  (dedup l)) -> 1 <= w <= maximum) as K.
  { intros l. split; [apply NoDup_filter, dedup_NoDup|].
    intros w Hw. apply filter_In in Hw as [_ Hw].
    apply andb_true_iff in Hw as [H1 H2].
    apply Z.ltb_lt in H1. apply Z.leb_le in H2. lia. }
  unfold rule_inverse, binary_op, py_div.
  destruct (String.eqb (op rule) "+") eqn:E1;
    [cbv beta iota zeta; split; [reflexivity | apply K]|].
  destruct (String.eqb (op rule) "-") eqn:E2;
    [cbv beta iota zeta; split; [reflexivity | apply K]|].
  destruct (String.eqb (op rule) "*") eqn:E3.
  - destruct (v =? 0) eqn:Ev.
    + right. split; [reflexivity|]. left.
      apply String.eqb_eq in E3. apply Z.eqb_eq in Ev. auto.
    + cbv beta iota zeta; split; [reflexivity | apply K].
  - destruct (String.eqb (op rule) "/") eqn:E4.
    + destruct (value rule =? 0) eqn:Et.
      * right. split; [reflexivity|]. right.
        apply String.eqb_eq in E4. apply Z.eqb_eq in Et. auto.
      * cbv beta iota zeta; split; [reflexivity | apply K].
    + left. auto.
Qed.

(** [rule_inverse] raises in exactly three cases: [ValueError] for an
    operator tag it does not handle, [ZeroDivisionError] for a product rule
    at the value 0 and for a quotient rule with target 0.  In every other
    case, and in no case of those three, it returns a set of distinct values
    of [1, maximum]. *)
Theorem rule_inverse_outcome (rule : Rule) (v maximum : Z) :
  match rule_inverse rule v maximum with
  | Ok s =>
      binary_op rule = true
      /\ ~ (op rule = "*"%string /\ v = 0)
      /\ ~ (op rule = "/"%string /\ value rule = 0)
      /\ NoDup s /\ forall w, In w s -> 1 <= w <= maximum
  | Raise e =>
      (e = ValueError_unhandled_op /\ binary_op rule = false)
      \/ (e = ZeroDivisionError
          /\ ((op rule = "*"%string /\ v = 0)
              \/ (op rule = "/"%string /\ value rule = 0)))
  | OutOfFuel => False
  end.
Proof.
  pose proof (rule_inverse_cases rule v maximum) as H.
  destruct (rule_inverse rule v maximum) as [s|e|] eqn:E; [|exact H|exact H].
  destruct H as (Hb & Hn & Hr).
  split; [exact Hb|]. split; [|split; [|split; assumption]].
  - intros [Hop ->]. unfold rule_inverse, py_div in E. rewrite Hop in E.
    eval_op_tests. discriminate.
  - intros [Hop Hv]. unfold rule_inverse, py_div in E. rewrite Hop, Hv in E.
    eval_op_tests. discriminate.
Qed.

Lemma rule_holds_sym rule a b : rule_holds rule a b = rule_holds rule b a.
Proof.
  unfold rule_holds.
  destruct (String.eqb (op rule) "+"); [f_equal; lia|].
  destruct (String.eqb (op rule) "-"); [f_equal; lia|].
  destruct (String.eqb (op rule) "*"); [f_equal; lia|].
  destruct (String.eqb (op rule) "/"); [apply orb_comm | reflexivity].
Qed.

(** [rule_inverse] never leaves out a partner: whenever it returns, every
    value of [1, maximum] that satisfies the rule together with [v] is in
    the set it returns. *)
Theorem rule_inverse_complete (rule : Rule) (v maximum w : Z) (s : list Z) :
  rule_inverse rule v maximum = Ok s ->
  1 <= w <= maximum -> rule_holds rule v w = true -> In w s.
Proof.
  intros E Hw Hh.
  assert (forall l, In w l ->
            In w (filter (fun w => (0 <? w) && (w <=? maximum)) (dedup l))) as K.
  { intros l Hl. apply filter_In. split; [apply In_dedup; exact Hl|].
    apply andb_true_iff. split; [apply Z.ltb_lt | apply Z.leb_le]; lia. }
  pose proof (rule_inverse_cases rule v maximum) as Ho. rewrite E in Ho.
  destruct Ho as [Hb _]. apply binary_op_cases in Hb.
  unfold rule_inverse, py_div in E. unfold rule_holds in Hh.
  destruct Hb as [Hop | [Hop | [Hop | Hop]]]; rewrite Hop in E, Hh; eval_op_tests.
  - ok_inj E. apply K. apply Z.eqb_eq in Hh. left; lia.
  - ok_inj E. apply K. apply Z.eqb_eq in Hh. simpl. lia.
  - destruct (v =? 0) eqn:Ev; [discriminate|]. ok_inj E. apply K.
    apply Z.eqb_eq in Hh. apply Z.eqb_neq in Ev. left.
    rewrite <- Hh, Z.mul_comm. apply Z.div_mul; exact Ev.
  - destruct (value rule =? 0) eqn:Et; [discriminate|]. ok_inj E.
    apply K. apply Z.eqb_neq in Et. apply orb_true_iff in Hh as [Hh|Hh];
      apply Z.eqb_eq in Hh.
    + right; left. subst v. rewrite Z.mul_comm. apply Z.div_mul; exact Et.
    + left. congruence.
Qed.

Lemma rule_inverse_complete_witness :
  rule_inverse (mkRule "/" 2) 3 6 = Ok [6; 1]
  /\ 1 <= 6 <= 6 /\ rule_holds (mkRule "/" 2) 3 6 = true /\ In 6 [6; 1].
Proof.
  assert (rule_inverse (mkRule "/" 2) 3 6 = Ok [6; 1]) as H1 by reflexivity.
  assert (1 <= 6 <= 6) as H2 by lia.
  assert (rule_holds (mkRule "/" 2) 3 6 = true) as H3 by reflexivity.
  repeat (split; [assumption|]).
  exact (rule_inverse_complete (mkRule "/" 2) 3 6 6 [6; 1] H1 H2 H3).
Defined.

Lemma rule_inverse_sum_difference_set (rule : Rule) (v maximum : Z) :
  op rule = "+"%string \/ (op rule = "-"%string /\ 0 <= value rule) ->
  exists s, rule_inverse rule v maximum = Ok s
            /\ forall w, In w s <->
                         1 <= w <= maximum /\ rule_holds rule v w = true.
Proof.
  intros Hop.
  exists (filter (fun w => (0 <? w) && (w <=? maximum))
            (dedup (if String.eqb (op rule) "+"
                    then [value rule - v]
                    else [value rule + v; v - value rule]))).
  split.
  - unfold rule_inverse. destruct Hop as [Hop|[Hop _]]; rewrite Hop; reflexivity.
  - intros w. rewrite filter_In, In_dedup, andb_true_iff, Z.ltb_lt, Z.leb_le.
    unfold rule_holds.
    destruct Hop as [Hop|[Hop Ht]]; rewrite Hop; eval_op_tests; simpl;
      rewrite Z.eqb_eq; lia.
Qed.

(** For a sum rule, and for a difference rule whose target is not negative,
    [rule_inverse] is exact: it returns, and the set it returns holds the
    values of [1, maximum] that satisfy the rule together with [v], and no
    other.  (A difference rule with the target [-t] is read as one with the
    target [t].) *)
Theorem rule_inverse_sum_difference (rule : Rule) (v maximum : Z) :
  op rule = "+"%string \/ (op rule = "-"%string /\ 0 <= value rule) ->
  exists s, rule_inverse rule v maximum = Ok s
            /\ forall w, In w s <->
                         1 <= w <= maximum /\ rule_holds rule v w = true.
Proof. exact (rule_inverse_sum_difference_set rule v maximum). Qed.

Lemma rule_inverse_sum_difference_witness :
  (op (mkRule "-" 1) = "+"%string
   \/ (op (mkRule "-" 1) = "-"%string /\ 0 <= value (mkRule "-" 1)))
  /\ exists s, rule_inverse (mkRule "-" 1) 2 3 = Ok s
               /\ forall w, In w s <->
                            1 <= w <= 3 /\ rule_holds (mkRule "-" 1) 2 w = true.
Proof.
  assert (op (mkRule "-" 1) = "+"%string
          \/ (op (mkRule "-" 1) = "-"%string /\ 0 <= value (mkRule "-" 1)))
    as H by (right; split; [reflexivity | simpl; lia]).
  split; [exact H|]. exact (rule_inverse_sum_difference (mkRule "-" 1) 2 3 H).
Defined.

Lemma In_union vset s w : In w (union vset s) <-> In w vset \/ In w s.
Proof.
  unfold union. rewrite in_app_iff, filter_In, negb_true_iff, mem_false.
  destruct (in_dec Z.eq_dec w vset); tauto.
Qed.

Lemma union_NoDup vset s : NoDup vset -> NoDup s -> NoDup (union vset s).
Proof.
  intros Hv Hs. unfold union. apply NoDup_app; [exact Hv | apply NoDup_filter; exact Hs|].
  intros a Ha Hf. apply filter_In in Hf as [_ Hf].
  apply negb_true_iff, mem_false in Hf. contradiction.
Qed.

Lemma rule_complement_from_spec rule m vs :
  forall acc,
    NoDup acc ->
    match rule_complement_from rule vs m acc with
    | Ok s =>
        NoDup s
        /\ forall w, In w s <->
                     In w acc
                     \/ exists v s', In v vs /\ rule_inverse rule v m = Ok s'
                                      /\ In w s'
    | Raise e => exists v, In v vs /\ rule_inverse rule v m = Raise e
    | OutOfFuel => False
    end.
Proof.
  induction vs as [|v vs IH]; intros acc Hacc; simpl.
  - split; [exact Hacc|]. intros w. split; [auto | intros [H | (v & s' & [] & _)]; exact H].
  - pose proof (rule_inverse_cases rule v m) as Ho.
    destruct (rule_inverse rule v m) as [s0|e|] eqn:E; [| eauto | contradiction].
    destruct Ho as (_ & Hs0 & _).
    specialize (IH (union acc s0) (union_NoDup acc s0 Hacc Hs0)).
    destruct (rule_complement_from rule vs m (union acc s0)) as [s|e|];
      [| | contradiction].
    + destruct IH as [Hn Hi]. split; [exact Hn|]. intros w. rewrite Hi, In_union.
      split.
      * intros [[H|H] | (v' & s' & Hv' & E' & Hw)]; eauto 8.
      * intros [H | (v' & s' & [<-|Hv'] & E' & Hw)]; eauto 8.
        left; right. congruence.
    + destruct IH as (v' & Hv' & E'). eauto.
Qed.

(** [rule_complement] returns the union, without repetition, of what
    [rule_inverse] returns for the values of the set; it raises what the
    first failing [rule_inverse] raises.  For the empty set it returns the
    empty set, whatever the rule. *)
Theorem rule_complement_spec (rule : Rule) (vs : list Z) (m : Z) :
  match rule_complement rule vs m with
  | Ok s =>
      NoDup s
      /\ forall w, In w s <->
                   exists v s', In v vs /\ rule_inverse rule v m = Ok s' /\ In w s'
  | Raise e => exists v, In v vs /\ rule_inverse rule v m = Raise e
  | OutOfFuel => False
  end.
Proof.
  unfold rule_complement.
  pose proof (rule_complement_from_spec rule m vs [] (NoDup_nil Z)) as H.
  destruct (rule_complement_from rule vs m []) as [s|e|]; auto.
  destruct H as [Hn Hi]. split; [exact Hn|]. intros w. rewrite Hi. simpl. tauto.
Qed.

(** ** assign_value and eliminate_value: what they leave behind *)

(** Neither method ever adds a key or a candidate, whether it returns or
    raises: the state it leaves has the keys of the state it was given, and
    every cell holds only candidates it held before. *)
Theorem propagation_only_removes
    (self : Solver) (fuel : nat) (d : dict) (i : cell) (v : Z) :
  (map fst (fst (eliminate_value self fuel d i v)) = map fst d
   /\ forall c w, In w (cand (fst (eliminate_value self fuel d i v)) c) ->
                  In w (cand d c))
  /\ (map fst (fst (assign_value self fuel d i v)) = map fst d
      /\ forall c w, In w (cand (fst (assign_value self fuel d i v)) c) ->
                     In w (cand d c)).
Proof.
  pose proof (eliminate_value_shrinks self fuel d i v) as He.
  pose proof (assign_value_shrinks self fuel d i v) as Ha.
  split; (split; [apply shrinks_keys; assumption|]); intros c w;
    apply shrinks_cand; assumption.
Qed.

Lemma eliminate_value_gone
    (self : Solver) (fuel : nat) (d : dict) (i : cell) (v : Z) (d' : dict) :
  eliminate_value self fuel d i v = (d', Done) ->
  ~ In v (cand d' i)
  /\ forall fuel', eliminate_value self (S fuel') d' i v = (d', Done).
Proof.
  intros E.
  assert (exists l', lookup d' i = Some l') as (l' & El').
  { pose proof (eliminate_value_shrinks self fuel d i v) as Hs.
    rewrite E in Hs. cbn [fst] in Hs.
    destruct fuel as [|fuel]; [discriminate|]. simpl in E.
    unfold eliminate_body in E. destruct (lookup d i) as [l|] eqn:El;
      [|discriminate].
    destruct (shrinks_lookup_Some _ _ _ _ Hs El) as (l' & ? & _). eauto. }
  pose proof (eliminate_value_removes self fuel d i v d' l' E El') as Hn.
  split.
  - unfold cand. rewrite El'. exact Hn.
  - intros fuel'. simpl. unfold eliminate_body. rewrite El'.
    apply mem_false in Hn. rewrite Hn. reflexivity.
Qed.

(** When [eliminate_value] returns, the value is no candidate of the cell any
    more, and eliminating it again changes nothing. *)
Theorem eliminate_value_removed
    (self : Solver) (fuel : nat) (d : dict) (i : cell) (v : Z) (d' : dict) :
  eliminate_value self fuel d i v = (d', Done) ->
  ~ In v (cand d' i)
  /\ forall fuel', eliminate_value self (S fuel') d' i v = (d', Done).
Proof. exact (eliminate_value_gone self fuel d i v d'). Qed.

Lemma eliminate_value_removed_witness :
  eliminate_value empty_two_solver 9 empty_two_state (0, 0) 1
  = ([((0, 0), [2]); ((0, 1), [1]); ((1, 0), [1]); ((1, 1), [2])], Done)
  /\ ~ In 1 (cand [((0, 0), [2]); ((0, 1), [1]); ((1, 0), [1]); ((1, 1), [2])]
             (0, 0))
  /\ forall fuel',
       eliminate_value empty_two_solver (S fuel')
         [((0, 0), [2]); ((0, 1), [1]); ((1, 0), [1]); ((1, 1), [2])] (0, 0) 1
       = ([((0, 0), [2]); ((0, 1), [1]); ((1, 0), [1]); ((1, 1), [2])], Done).
Proof.
  assert (eliminate_value empty_two_solver 9 empty_two_state (0, 0) 1
          = ([((0, 0), [2]); ((0, 1), [1]); ((1, 0), [1]); ((1, 1), [2])], Done))
    as H by (vm_compute; reflexivity).
  split; [exact H|].
  exact (eliminate_value_removed empty_two_solver 9 empty_two_state (0, 0) 1 _ H).
Defined.

(** When [assign_value] returns on a cell that had candidates, the value was
    one of them and is now the only one. *)
Theorem assign_value_resolves
    (self : Solver) (fuel : nat) (d : dict) (i : cell) (v : Z) (d' : dict)
    (l : list Z) :
  lookup d i = Some l -> l <> [] ->
  assign_value self fuel d i v = (d', Done) ->
  In v l /\ cand d' i <> [] /\ forall x, In x (cand d' i) <-> x = v.
Proof.
  intros El Hne E.
  assert (In v l) as Hin.
  { destruct (in_dec Z.eq_dec v l) as [H|H]; [exact H|].
    exfalso. exact (assign_value_rejects self fuel d i v l El Hne H d' E). }
  destruct (assign_value_keeps_nonempty self fuel d i v d' E) as [Hs Hk].
  destruct (shrinks_lookup_Some _ _ _ _ Hs El) as (l' & El' & _).
  pose proof (Hk i l l' El El' Hne) as Hne'.
  pose proof (assign_value_only self fuel d i v d' l' E El') as Ho.
  unfold cand. rewrite El'. split; [exact Hin|]. split; [exact Hne'|].
  intros x. split; [apply Ho|]. intros ->.
  destruct l' as [|y l']; [congruence|]. left. apply Ho. left; reflexivity.
Qed.

Lemma assign_value_resolves_witness :
  lookup empty_two_state (0, 0) = Some [1; 2] /\ [1; 2] <> []
  /\ assign_value empty_two_solver 9 empty_two_state (0, 0) 2
     = ([((0, 0), [2]); ((0, 1), [1]); ((1, 0), [1]); ((1, 1), [2])], Done)
  /\ In 2 [1; 2]
  /\ cand [((0, 0), [2]); ((0, 1), [1]); ((1, 0), [1]); ((1, 1), [2])] (0, 0)
     <> []
  /\ forall x,
       In x (cand [((0, 0), [2]); ((0, 1), [1]); ((1, 0), [1]); ((1, 1), [2])]
               (0, 0)) <-> x = 2.
Proof.
  assert (lookup empty_two_state (0, 0) = Some [1; 2]) as H1 by reflexivity.
  assert ([1; 2] <> ([] : list Z)) as H2 by discriminate.
  assert (assign_value empty_two_solver 9 empty_two_state (0, 0) 2
          = ([((0, 0), [2]); ((0, 1), [1]); ((1, 0), [1]); ((1, 1), [2])], Done))
    as H3 by (vm_compute; reflexivity).
  repeat (split; [assumption|]).
  exact (assign_value_resolves empty_two_solver 9 empty_two_state (0, 0) 2 _
           [1; 2] H1 H2 H3).
Defined.

(** A normal return of either method never leaves a cell without candidates
    that had some: emptying a domain always raises. *)
Theorem normal_return_keeps_candidates
    (self : Solver) (fuel : nat) (d : dict) (i : cell) (v : Z) (d' : dict) :
  eliminate_value self fuel d i v = (d', Done)
  \/ assign_value self fuel d i v = (d', Done) ->
  forall c, cand d c <> [] -> cand d' c <> [].
Proof.
  intros E c Hc.
  assert (keeps_nonempty d d') as [Hs Hk].
  { destruct E as [E|E];
      [eapply eliminate_value_keeps_nonempty | eapply assign_value_keeps_nonempty];
      eauto. }
  unfold cand in *. destruct (lookup d c) as [l|] eqn:El; [|congruence].
  destruct (shrinks_lookup_Some _ _ _ _ Hs El) as (l' & El' & _).
  rewrite El'. eapply Hk; eauto.
Qed.

Lemma normal_return_keeps_candidates_witness :
  (eliminate_value empty_two_solver 9 empty_two_state (0, 0) 1
   = ([((0, 0), [2]); ((0, 1), [1]); ((1, 0), [1]); ((1, 1), [2])], Done)
   \/ assign_value empty_two_solver 9 empty_two_state (0, 0) 1
      = ([((0, 0), [2]); ((0, 1), [1]); ((1, 0), [1]); ((1, 1), [2])], Done))
  /\ forall c, cand empty_two_state c <> [] ->
               cand [((0, 0), [2]); ((0, 1), [1]); ((1, 0), [1]); ((1, 1), [2])] c
               <> [].
Proof.
  assert (eliminate_value empty_two_solver 9 empty_two_state (0, 0) 1
          = ([((0, 0), [2]); ((0, 1), [1]); ((1, 0), [1]); ((1, 1), [2])], Done))
    as H by (vm_compute; reflexivity).
  split; [left; exact H|].
  exact (normal_return_keeps_candidates empty_two_solver 9 empty_two_state
           (0, 0) 1 _ (or_introl H)).
Defined.

(** ** Uniqueness in rows and columns *)

Lemma peers_cleared_refl n d : peers_cleared n d d.
Proof.
  split; [apply keeps_nonempty_refl|]. intros c v c' Hl E. rewrite E in Hl.
  simpl in Hl. congruence.
Qed.

Lemma shrinks_cand_single d d' c v :
  shrinks d d' -> cand d' c = [v] -> List.length (cand d c) = 1%nat ->
  cand d c = [v].
Proof.
  intros Hs E Hl. destruct (cand d c) as [|x [|y l]] eqn:Ec; try discriminate.
  assert (In v (cand d c)) as H.
  { eapply shrinks_cand; eauto. rewrite E. left; reflexivity. }
  rewrite Ec in H. destruct H as [->|[]]. reflexivity.
Qed.

Lemma peers_cleared_trans n d1 d2 d3 :
  peers_cleared n d1 d2 -> peers_cleared n d2 d3 -> peers_cleared n d1 d3.
Proof.
  intros [K1 P1] [K2 P2]. split; [eapply keeps_nonempty_trans; eauto|].
  intros c v c' Hl E Hp.
  destruct (Nat.eq_dec (List.length (cand d2 c)) 1) as [H2|H2].
  - pose proof (shrinks_cand_single d2 d3 c v (proj1 K2) E H2) as E2.
    intros Hin. apply (P1 c v c' Hl E2 Hp).
    eapply shrinks_cand; [exact (proj1 K2) | exact Hin].
  - eapply P2; eauto.
Qed.

Lemma for_each_cells_removes self fuel v cs :
  forall d d',
    for_each (fun d c => eliminate_value self fuel d c v) cs d = (d', Done) ->
    forall c, In c cs -> ~ In v (cand d' c).
Proof.
  induction cs as [|c0 cs IH]; intros d d' E c Hc; [destruct Hc|].
  simpl in E. apply and_then_inv in E as [(d1 & E1 & E2) | [_ Hn]]; [|congruence].
  destruct Hc as [<-|Hc]; [|eapply IH; eauto].
  pose proof (mono_for_each (fun d c => eliminate_value self fuel d c v) cs
                (fun x => eliminate_value_mono self fuel x v) d1) as Hs.
  rewrite E2 in Hs; cbn [fst] in Hs.
  intros Hin. apply (shrinks_cand _ _ _ _ Hs) in Hin.
  exact (proj1 (eliminate_value_gone self fuel d c0 v d1 E1) Hin).
Qed.

Section PeersCleared.
Variable self : Solver.
Variable fuel : nat.

Let n : Z := size (puzzle self).
Let elim := eliminate_value self fuel.

Hypothesis elim_cleared : forall i v,
  preserves (peers_cleared n) (fun o => o = Done) (fun d => elim d i v).

Lemma eliminate_body_cleared i v :
  preserves (peers_cleared n) (fun o => o = Done)
    (fun d => eliminate_body self elim d i v).
Proof.
  intros d d' o E ->. unfold eliminate_body in E.
  destruct (lookup d i) as [dom|] eqn:El; [|discriminate].
  destruct (mem v dom) eqn:Em; cbn [negb] in E;
    [|injection E as <-; apply peers_cleared_refl].
  apply mem_In in Em as Hin. set (d1 := set_item d i (without v dom)) in *.
  unfold propagate in E.
  apply and_then_inv in E as [(d2 & E1 & E) | [_ Hn]]; [|congruence].
  apply and_then_inv in E as [(d3 & E2 & E3) | [_ Hn]]; [|congruence].
  assert (without v dom <> []) as Hne.
  { intros Hw. unfold check_length in E1. unfold d1 in E1.
    rewrite lookup_set_item_same, Hw in E1. discriminate. }
  assert (keeps_nonempty d d1) as K01 by (apply keeps_nonempty_remove; auto).
  assert (peers_cleared n d1 d2) as K12.
  { exact (preserves_check_length self (peers_cleared n) (fun o => o = Done)
             (peers_cleared_refl n) (peers_cleared_trans n) eq_refl
             elim elim_cleared i d1 d2 Done E1 eq_refl). }
  assert (peers_cleared n d2 d3) as K23.
  { exact (preserves_check_units self (peers_cleared n) (fun o => o = Done)
             (peers_cleared_refl n) (peers_cleared_trans n) eq_refl
             elim elim_cleared i v d2 d3 Done E2 eq_refl). }
  assert (peers_cleared n d3 d') as K3.
  { exact (preserves_check_rules self (peers_cleared n) (fun o => o = Done)
             (peers_cleared_refl n) (peers_cleared_trans n) eq_refl
             elim elim_cleared i d3 d' Done E3 eq_refl). }
  pose proof (peers_cleared_trans n _ _ _ K23 K3) as K2.
  pose proof (peers_cleared_trans n _ _ _ K12 K2) as K1.
  split; [eapply keeps_nonempty_trans; [exact K01 | exact (proj1 K1)]|].
  intros c w c' Hl Ec Hp.
  destruct (Nat.eq_dec (List.length (cand d1 c)) 1) as [H1|H1];
    [|exact (proj2 K1 c w c' H1 Ec Hp)].
  pose proof (shrinks_cand_single d1 d' c w (proj1 (proj1 K1)) Ec H1) as E1c.
  assert (c = i) as ->.
  { destruct (cell_eq_dec i c) as [Hic|Hic]; [congruence|]. exfalso.
    apply Hl. rewrite <- H1. unfold d1, cand.
    rewrite lookup_set_item_other by exact Hic. reflexivity. }
  unfold d1, cand in E1c. rewrite lookup_set_item_same in E1c.
  unfold check_length in E1. unfold d1 in E1.
  rewrite lookup_set_item_same, E1c in E1. fold n in E1.
  unfold peers_of in Hp. destruct (peers n i) as [ps|]; [|destruct Hp].
  intros Hw. apply (shrinks_cand _ _ _ _ (proj1 (proj1 K2))) in Hw.
  exact (for_each_cells_removes self fuel w ps _ _ E1 c' Hp Hw).
Qed.
End PeersCleared.

Lemma eliminate_value_cleared self fuel i v :
  preserves (peers_cleared (size (puzzle self))) (fun o => o = Done)
    (fun d => eliminate_value self fuel d i v).
Proof.
  revert i v; induction fuel as [|fuel IH]; intros i v.
  - intros d d' o E ->. discriminate.
  - simpl. apply eliminate_body_cleared. exact IH.
Qed.

Lemma assign_value_cleared self fuel i v :
  preserves (peers_cleared (size (puzzle self))) (fun o => o = Done)
    (fun d => assign_value self fuel d i v).
Proof.
  apply preserves_assign_body.
  - apply peers_cleared_refl.
  - apply peers_cleared_trans.
  - reflexivity.
  - intros; apply eliminate_value_cleared.
Qed.

Lemma peers_clear_spec n d :
  peers_clear n d = true ->
  forall c v c', cand d c = [v] -> In c' (peers_of n c) -> ~ In v (cand d c').
Proof.
  unfold peers_clear. rewrite forallb_forall. intros H c v c' Ec Hp.
  unfold cand in Ec. destruct (lookup d c) as [l|] eqn:El; [|discriminate].
  subst l. apply lookup_In in El. apply H in El. cbn [fst snd] in El.
  rewrite forallb_forall in El. apply El in Hp.
  apply negb_true_iff, mem_false in Hp. exact Hp.
Qed.

Lemma peers_clear_intro n d :
  (forall c v c', In (c, [v]) d -> In c' (peers_of n c) -> ~ In v (cand d c')) ->
  peers_clear n d = true.
Proof.
  intros H. unfold peers_clear. apply forallb_forall. intros [c l] Hin.
  cbn [fst snd]. destruct l as [|v [|w l]]; try reflexivity.
  apply forallb_forall. intros c' Hc'. apply negb_true_iff, mem_false.
  eapply H; eauto.
Qed.

Lemma peers_distinct_step n d d' :
  peers_distinct n d -> peers_cleared n d d' -> peers_distinct n d'.
Proof.
  intros Hd [Hk Hc] c v c' Ec Hp.
  destruct (Nat.eq_dec (List.length (cand d c)) 1) as [H1|H1];
    [|exact (Hc c v c' H1 Ec Hp)].
  pose proof (shrinks_cand_single d d' c v (proj1 Hk) Ec H1) as E0.
  intros Hin. apply (Hd c v c' E0 Hp). eapply shrinks_cand; [exact (proj1 Hk)|].
  exact Hin.
Qed.

(** Uniqueness is kept: from a state in which no resolved cell shares its
    value with the candidates of a peer, a normal return of either method
    leads to such a state; in particular two peers are never resolved to
    the same value. *)
Theorem propagation_keeps_peers_distinct
    (self : Solver) (fuel : nat) (d : dict) (i : cell) (v : Z) (d' : dict) :
  peers_clear (size (puzzle self)) d = true ->
  eliminate_value self fuel d i v = (d', Done)
  \/ assign_value self fuel d i v = (d', Done) ->
  peers_distinct (size (puzzle self)) d'.
Proof.
  intros Hc E. apply (peers_distinct_step _ d d').
  - exact (peers_clear_spec _ d Hc).
  - destruct E as [E|E].
    + exact (eliminate_value_cleared self fuel i v d d' Done E eq_refl).
    + exact (assign_value_cleared self fuel i v d d' Done E eq_refl).
Qed.

Lemma propagation_keeps_peers_distinct_witness :
  peers_clear (size (puzzle empty_two_solver)) empty_two_state = true
  /\ (eliminate_value empty_two_solver 9 empty_two_state (0, 0) 1
      = ([((0, 0), [2]); ((0, 1), [1]); ((1, 0), [1]); ((1, 1), [2])], Done)
      \/ assign_value empty_two_solver 9 empty_two_state (0, 0) 1
         = ([((0, 0), [2]); ((0, 1), [1]); ((1, 0), [1]); ((1, 1), [2])], Done))
  /\ peers_distinct (size (puzzle empty_two_solver))
       [((0, 0), [2]); ((0, 1), [1]); ((1, 0), [1]); ((1, 1), [2])].
Proof.
  assert (peers_clear (size (puzzle empty_two_solver)) empty_two_state = true)
    as H1 by reflexivity.
  assert (eliminate_value empty_two_solver 9 empty_two_state (0, 0) 1
          = ([((0, 0), [2]); ((0, 1), [1]); ((1, 0), [1]); ((1, 1), [2])], Done))
    as H2 by (vm_compute; reflexivity).
  split; [exact H1|]. split; [left; exact H2|].
  exact (propagation_keeps_peers_distinct empty_two_solver 9 empty_two_state
           (0, 0) 1 _ H1 (or_introl H2)).
Defined.

(** ** Invariants through the search *)

Section SearchInvariant.
Variable self : Solver.
Variable Inv : dict -> Prop.
Hypothesis Inv_assign : forall fuel d i v d',
  Inv d -> assign_value self fuel d i v = (d', Done) -> Inv d'.

Lemma search_invariant fuel :
  forall h r h' g,
    (r < List.length h)%nat -> Inv (deref h r) ->
    search self fuel h r = (h', Ok g) ->
    exists d', Inv d' /\ shrinks (deref h r) d' /\ solved d' = true
               /\ g = grid_of d'.
Proof.
  induction fuel as [|fuel IH]; intros h r h' g Hr HI; simpl; [discriminate|].
  unfold search_body. destruct (solved (deref h r)) eqn:Es.
  - intros [= _ <-]. exists (deref h r). auto using shrinks_refl.
  - destruct (min_by _ _) as [m|]; [|discriminate].
    destruct (lookup (deref h r) m) as [vs|]; [|discriminate].
    clear Es. revert h Hr HI. induction vs as [|v vs IHv]; intros h Hr HI;
      simpl; [discriminate|].
    pose proof (try_value_extends self (S fuel) (search self fuel)
                  (search_extends self fuel) r m h v) as [Hle Hde].
    destruct (try_value self (S fuel) (search self fuel) r m h v)
      as [h1 [res|]] eqn:Et; cbn [fst] in *.
    + intros [= -> ->]. unfold try_value in Et.
      destruct (assign_value self (S fuel) (deref h r) m v) as [d o] eqn:Ea.
      pose proof (copy_assign_state self (S fuel) h r m v d o Ea) as H.
      pose proof (assign_value_shrinks self (S fuel) (deref h r) m v) as Hs.
      rewrite Ea in Hs; cbn [fst] in Hs.
      destruct (copy_dict h r) as [h0 next] eqn:Ec. destruct H as [E1 Hd].
      rewrite E1 in Et.
      destruct o as [[]|e|]; [| destruct e; discriminate | discriminate].
      destruct (search self fuel (store h0 next d) next) as [h3 r3] eqn:Er.
      assert (r3 = Ok g) as ->
          by (destruct r3 as [g'|e|]; [| destruct e |]; congruence).
      apply IH in Er.
      * rewrite Hd in Er. destruct Er as (d' & I' & S' & So & Eg).
        exists d'. split; [exact I'|]. split; [eapply shrinks_trans; eauto|]. auto.
      * unfold copy_dict in Ec. injection Ec as <- <-.
        rewrite store_length, length_app. simpl. lia.
      * rewrite Hd. eapply Inv_assign; eauto.
    + intros E. rewrite <- (Hde r Hr). apply IHv; [lia | | exact E].
      rewrite (Hde r Hr). exact HI.
Qed.
End SearchInvariant.

(** ** solve: invariants of the seeded state carry to the grid *)

Lemma for_each_invariant {A : Type} (Inv : dict -> Prop)
    (body : dict -> A -> dict * outcome) (xs : list A) :
  (forall d x d', Inv d -> body d x = (d', Done) -> Inv d') ->
  forall d d', Inv d -> for_each body xs d = (d', Done) -> Inv d'.
Proof.
  intros Hb. induction xs as [|x xs IH]; intros d d' HI; simpl.
  - intros [= <-]; exact HI.
  - intros E. apply and_then_inv in E as [(d1 & E1 & E2) | [_ Hn]]; [|congruence].
    eapply IH; [|exact E2]. eapply Hb; eauto.
Qed.

Lemma solve_invariant (Inv : dict -> Prop) p d g :
  (forall fuel d i v d',
     Inv d -> assign_value (Solver_init p) fuel d i v = (d', Done) -> Inv d') ->
  seed (Solver_init p) (initial_possibles (Solver_init p)) = (d, Done) ->
  Inv d -> solve p = Ok g ->
  exists d', Inv d' /\ shrinks (initial_possibles (Solver_init p)) d'
             /\ solved d' = true /\ g = grid_of d'.
Proof.
  intros Ha Es HI E. unfold solve, Solver_solve, solve_with in E.
  set (self := Solver_init p) in *.
  pose proof (setup_shrinks self (enough_fuel self)) as H0.
  unfold setup in E, H0. rewrite Es in E, H0.
  destruct (apply_givens self (enough_fuel self) d) as [ds [[]|e|]] eqn:Eg;
    try discriminate. cbn [fst] in H0.
  assert (Inv ds) as HIs.
  { unfold apply_givens in Eg.
    exact (for_each_invariant Inv _ _
             (fun d0 x d1 H0' E0 => Ha _ d0 (fst x) (snd x) d1 H0' E0)
             d ds HI Eg). }
  destruct (search self (enough_fuel self) [ds] 0) as [h' r] eqn:Esr.
  cbn [snd] in E.
  assert (r = Ok g) as -> by (destruct r as [g'|e|]; [| destruct e |]; congruence).
  apply (search_invariant self Inv Ha) in Esr; [| simpl; lia | exact HIs].
  destruct Esr as (d' & I' & S' & So & ->). exists d'.
  split; [exact I'|]. split; [eapply shrinks_trans; eauto|]. auto.
Qed.

(** ** solve returns Latin squares when the seeding pass resolves no cell
    against a peer *)

Lemma length_full_domain n : List.length (full_domain n) = List.length (range n).
Proof. unfold full_domain. apply length_map. Qed.

Lemma unit_facts n u :
  In u (all_units n) ->
  NoDup u /\ List.length u = List.length (full_domain n)
  /\ (forall c, In c u -> In c (cells n))
  /\ (forall c c', In c u -> In c' u -> c <> c' -> In c' (peers_of n c)).
Proof.
  intros Hu.
  assert (forall c c', In c (cells n) -> In c' (cells n) -> c <> c' ->
                       fst c' = fst c \/ snd c' = snd c -> In c' (peers_of n c))
    as Hpeer.
  { intros c c' Hc Hc' Hne Hl. unfold peers_of.
    pose proof (peers_cases n c) as Hs. destruct (peers n c) as [ps|];
      [|contradiction].
    apply Hs. split; [exact Hc'|]. split; [congruence | exact Hl]. }
  unfold all_units in Hu. apply in_app_iff in Hu as [Hu|Hu];
    apply in_map_iff in Hu as (i & <- & Hi).
  - rewrite product_column. split; [|split; [|split]].
    + apply Injective_map_NoDup; [|apply NoDup_range]. intros a b [= ->]; auto.
    + rewrite length_map, length_full_domain. reflexivity.
    + intros c Hc. apply in_map_iff in Hc as (x & <- & Hx).
      unfold cells. apply In_product. auto.
    + intros c c' Hc Hc' Hne.
      apply in_map_iff in Hc as (x & <- & Hx).
      apply in_map_iff in Hc' as (x' & <- & Hx').
      apply Hpeer; try (unfold cells; apply In_product; auto); auto.
  - rewrite product_row. split; [|split; [|split]].
    + apply Injective_map_NoDup; [|apply NoDup_range]. intros a b [= ->]; auto.
    + rewrite length_map, length_full_domain. reflexivity.
    + intros c Hc. apply in_map_iff in Hc as (x & <- & Hx).
      unfold cells. apply In_product. auto.
    + intros c c' Hc Hc' Hne.
      apply in_map_iff in Hc as (x & <- & Hx).
      apply in_map_iff in Hc' as (x' & <- & Hx').
      apply Hpeer; try (unfold cells; apply In_product; auto); auto.
Qed.

Lemma NoDup_map_on {A B : Type} (f : A -> B) (l : list A) :
  NoDup l -> (forall a b, In a l -> In b l -> f a = f b -> a = b) ->
  NoDup (map f l).
Proof.
  induction 1 as [|a l Hnin Hn IH]; intros Hf; simpl; constructor.
  - intros Hin. apply in_map_iff in Hin as (b & Hb & Hbl).
    assert (b = a) by (apply Hf; simpl; auto). subst. contradiction.
  - apply IH. intros x y Hx Hy. apply Hf; simpl; auto.
Qed.

(** A solved state over the grid in which no resolved cell shares its value
    with a peer gives a Latin square. *)
Lemma solved_state_latin n d :
  shrinks (map (fun c => (c, full_domain n)) (cells n)) d ->
  solved d = true -> peers_distinct n d ->
  latin_square n (grid_of d) = true.
Proof.
  intros Hs Hso Hd.
  assert (forall c, In c (cells n) ->
                    exists x, lookup d c = Some [x] /\ In x (full_domain n)) as Hval.
  { intros c Hc.
    assert (lookup (map (fun c => (c, full_domain n)) (cells n)) c
            = Some (full_domain n)) as E0.
    { rewrite lookup_const. apply cell_mem_In in Hc. rewrite Hc. reflexivity. }
    destruct (shrinks_lookup_Some _ _ _ _ Hs E0) as (l & El & Hi & _).
    destruct (solved_lookup _ _ _ Hso El) as (x & ->).
    exists x. split; [exact El|]. apply Hi. left; reflexivity. }
  unfold latin_square. apply andb_true_iff. split.
  - apply forallb_forall. intros c Hc. destruct (Hval c Hc) as (x & El & _).
    rewrite lookup_grid_of, El. reflexivity.
  - apply forallb_forall. intros u Hu.
    destruct (unit_facts n u Hu) as (Hnd & Hlen & Hcells & Hpeers).
    set (f := fun c => match lookup (grid_of d) c with
                       | Some x => x
                       | None => 0
                       end).
    assert (forall c, In c u -> cand d c = [f c] /\ In (f c) (full_domain n)
                                 /\ lookup (grid_of d) c = Some (f c)) as Hf.
    { intros c Hc. destruct (Hval c (Hcells c Hc)) as (x & El & Hx).
      unfold f, cand. rewrite lookup_grid_of, El. simpl. auto. }
    assert (forall a b, In a u -> In b u -> f a = f b -> a = b) as Hinj.
    { intros a b Ha Hb Hab. destruct (cell_eq_dec a b) as [|Hne]; [assumption|].
      exfalso. destruct (Hf a Ha) as (Ea & _). destruct (Hf b Hb) as (Eb & _).
      apply (Hd a (f a) b Ea (Hpeers a b Ha Hb Hne)).
      rewrite Eb, Hab. left; reflexivity. }
    assert (incl (full_domain n) (map f u)) as Hall.
    { apply NoDup_length_incl.
      - apply NoDup_map_on; assumption.
      - rewrite length_map. lia.
      - intros x Hx. apply in_map_iff in Hx as (c & <- & Hc).
        apply (Hf c Hc). }
    apply forallb_forall. intros w Hw. apply Nat.eqb_eq.
    change (map (fun i => i + 1) (range n)) with (full_domain n) in Hw.
    apply Hall in Hw. apply in_map_iff in Hw as (c0 & Hc0 & Hin0).
    unfold occurrences. rewrite (filter_unique _ u c0); [reflexivity | | |]; auto.
    intros b Hb. destruct (Hf b Hb) as (_ & _ & Elb). rewrite Elb, Z.eqb_eq.
    split; [intros Hbw; apply Hinj; auto; congruence | intros ->; exact Hc0].
Qed.

Lemma solve_latin_from (p : Puzzle) (d : dict) (g : grid) :
  seed (Solver_init p) (initial_possibles (Solver_init p)) = (d, Done) ->
  peers_clear (size p) d = true ->
  solve p = Ok g ->
  latin_square (size p) g = true.
Proof.
  intros Es Hc E.
  assert (forall fuel d0 i v d1,
             peers_distinct (size p) d0 ->
             assign_value (Solver_init p) fuel d0 i v = (d1, Done) ->
             peers_distinct (size p) d1) as Ha.
  { intros fuel d0 i v d1 H0 E0. apply (peers_distinct_step _ d0 d1 H0).
    exact (assign_value_cleared (Solver_init p) fuel i v d0 d1 Done E0 eq_refl). }
  destruct (solve_invariant (peers_distinct (size p)) p d g Ha Es
              (peers_clear_spec _ d Hc) E) as (d' & I' & S' & So & ->).
  apply solved_state_latin; auto.
Qed.

(** If the state left by the seeding pass of [solve] has no resolved cell
    sharing its value with the candidates of a peer, every grid [solve]
    returns is a Latin square: each row and each column holds each value of
    [1, N] exactly once. *)
Theorem solve_latin (p : Puzzle) (d : dict) (g : grid) :
  seed (Solver_init p) (initial_possibles (Solver_init p)) = (d, Done) ->
  peers_clear (size p) d = true ->
  solve p = Ok g ->
  latin_square (size p) g = true.
Proof. exact (solve_latin_from p d g). Qed.

Lemma solve_latin_witness :
  seed (Solver_init EXAMPLE) (initial_possibles (Solver_init EXAMPLE))
  = (EXAMPLE_seeded, Done)
  /\ peers_clear (size EXAMPLE) EXAMPLE_seeded = true
  /\ solve EXAMPLE = Ok EXAMPLE_grid
  /\ latin_square (size EXAMPLE) EXAMPLE_grid = true.
Proof.
  assert (seed (Solver_init EXAMPLE) (initial_possibles (Solver_init EXAMPLE))
          = (EXAMPLE_seeded, Done)) as H1 by (vm_compute; reflexivity).
  assert (peers_clear (size EXAMPLE) EXAMPLE_seeded = true) as H2
    by (vm_compute; reflexivity).
  assert (solve EXAMPLE = Ok EXAMPLE_grid) as H3 by (vm_compute; reflexivity).
  repeat (split; [assumption|]).
  exact (solve_latin EXAMPLE EXAMPLE_seeded EXAMPLE_grid H1 H2 H3).
Defined.

Lemma range_single n a b :
  List.length (range n) = 1%nat -> In a (range n) -> In b (range n) -> a = b.
Proof.
  destruct (range n) as [|x [|y l]]; simpl; try discriminate.
  intros _ [<-|[]] [<-|[]]. reflexivity.
Qed.

Lemma initial_peers_clear self :
  peers_clear (size (puzzle self)) (initial_possibles self) = true.
Proof.
  set (n := size (puzzle self)).
  apply peers_clear_intro. intros c v c' Hin Hp. exfalso.
  unfold initial_possibles in Hin. fold n in Hin.
  apply in_map_iff in Hin as (c0 & [= -> Hv] & Hc).
  assert (List.length (range n) = 1%nat) as Hl.
  { rewrite <- (length_map (fun i => i + 1)), Hv. reflexivity. }
  unfold peers_of in Hp. pose proof (peers_cases n c) as Hs.
  destruct (peers n c) as [ps|]; [|destruct Hp].
  apply Hs in Hp as (Hc' & Hne & _). apply Hne.
  unfold cells in Hc, Hc'. destruct c as [a b], c' as [a' b'].
  apply In_product in Hc as [Ha Hb]. apply In_product in Hc' as [Ha' Hb'].
  f_equal; eapply range_single; eauto.
Qed.

(** On a puzzle without junction rules, every grid [solve] returns is a
    Latin square. *)
Theorem solve_latin_without_rules (p : Puzzle) (g : grid) :
  rules p = [] -> solve p = Ok g -> latin_square (size p) g = true.
Proof.
  intros Hr E.
  apply (solve_latin_from p (initial_possibles (Solver_init p)) g); [| | exact E].
  - unfold seed. cbn [rule_constraints Solver_init]. unfold create_rulesets.
    rewrite Hr. reflexivity.
  - apply (initial_peers_clear (Solver_init p)).
Qed.

Lemma solve_latin_without_rules_witness :
  rules (mkPuzzle 3 [] [((0, 0), 2); ((1, 1), 3)]) = []
  /\ solve (mkPuzzle 3 [] [((0, 0), 2); ((1, 1), 3)])
     = Ok [((0, 0), 2); ((0, 1), 1); ((0, 2), 3);
           ((1, 0), 1); ((1, 1), 3); ((1, 2), 2);
           ((2, 0), 3); ((2, 1), 2); ((2, 2), 1)]
  /\ latin_square (size (mkPuzzle 3 [] [((0, 0), 2); ((1, 1), 3)]))
       [((0, 0), 2); ((0, 1), 1); ((0, 2), 3);
        ((1, 0), 1); ((1, 1), 3); ((1, 2), 2);
        ((2, 0), 3); ((2, 1), 2); ((2, 2), 1)] = true.
Proof.
  assert (rules (mkPuzzle 3 [] [((0, 0), 2); ((1, 1), 3)]) = []) as H1
    by reflexivity.
  assert (solve (mkPuzzle 3 [] [((0, 0), 2); ((1, 1), 3)])
          = Ok [((0, 0), 2); ((0, 1), 1); ((0, 2), 3);
                ((1, 0), 1); ((1, 1), 3); ((1, 2), 2);
                ((2, 0), 3); ((2, 1), 2); ((2, 2), 1)]) as H2
    by (vm_compute; reflexivity).
  split; [exact H1|]. split; [exact H2|].
  exact (solve_latin_without_rules _ _ H1 H2).
Defined.

(** ** Parity marks *)

Lemma seed_rule_parity self k d entry d' :
  seed_rule self k d entry = (d', Done) ->
  lookup d' k <> None
  /\ (op (fst entry) = "e"%string -> forall w, In w (cand d' k) -> w mod 2 = 0)
  /\ (op (fst entry) = "o"%string -> forall w, In w (cand d' k) -> w mod 2 = 1).
Proof.
  unfold seed_rule. destruct entry as [rule partner]. cbn [fst].
  destruct (String.eqb (op rule) "e") eqn:Ee.
  - destruct (lookup d k) as [dom|]; [|discriminate]. intros [= <-].
    unfold cand. rewrite lookup_set_item_same. split; [discriminate|]. split.
    + intros _ w Hw. apply filter_In in Hw as [_ Hw]. apply Z.eqb_eq; exact Hw.
    + apply String.eqb_eq in Ee. rewrite Ee. discriminate.
  - destruct (String.eqb (op rule) "o") eqn:Eo.
    + destruct (lookup d k) as [dom|]; [|discriminate]. intros [= <-].
      unfold cand. rewrite lookup_set_item_same. split; [discriminate|]. split.
      * apply String.eqb_eq in Eo. rewrite Eo. discriminate.
      * intros _ w Hw. apply filter_In in Hw as [_ Hw]. apply Z.eqb_eq; exact Hw.
    + destruct (lookup d partner); [|discriminate].
      destruct (rule_complement _ _ _); try discriminate.
      destruct (lookup d k); [|discriminate]. intros [= <-].
      rewrite lookup_set_item_same. split; [discriminate|].
      apply String.eqb_neq in Ee, Eo. split; intros; contradiction.
Qed.

Lemma seed_entries_parity self k entries :
  forall d d' entry,
    for_each (seed_rule self k) entries d = (d', Done) -> In entry entries ->
    lookup d' k <> None
    /\ (op (fst entry) = "e"%string -> forall w, In w (cand d' k) -> w mod 2 = 0)
    /\ (op (fst entry) = "o"%string -> forall w, In w (cand d' k) -> w mod 2 = 1).
Proof.
  induction entries as [|e0 entries IH]; intros d d' entry E Hin; [destruct Hin|].
  simpl in E. apply and_then_inv in E as [(d1 & E1 & E2) | [_ Hn]]; [|congruence].
  destruct Hin as [->|Hin]; [|eapply IH; eauto].
  pose proof (mono_for_each (seed_rule self k) entries
                (fun x => seed_rule_mono self k x) d1) as Hs.
  rewrite E2 in Hs; cbn [fst] in Hs.
  destruct (seed_rule_parity self k d entry d1 E1) as (Hk & He & Ho).
  split; [|split].
  - intros Hn. apply Hk. destruct (lookup d1 k) eqn:El; [|reflexivity].
    destruct (shrinks_lookup_Some _ _ _ _ Hs El) as (? & ? & _). congruence.
  - intros H w Hw. apply (He H). eapply shrinks_cand; eauto.
  - intros H w Hw. apply (Ho H). eapply shrinks_cand; eauto.
Qed.

Lemma seed_items_parity self (items : ruleset) :
  forall d d' k l entry,
    for_each (fun d (item : cell * list (Rule * cell)) =>
                for_each (seed_rule self (fst item)) (snd item) d) items d
    = (d', Done) ->
    In (k, l) items -> In entry l ->
    lookup d' k <> None
    /\ (op (fst entry) = "e"%string -> forall w, In w (cand d' k) -> w mod 2 = 0)
    /\ (op (fst entry) = "o"%string -> forall w, In w (cand d' k) -> w mod 2 = 1).
Proof.
  induction items as [|[k0 l0] items IH]; intros d d' k l entry E Hin He;
    [destruct Hin|].
  simpl in E. apply and_then_inv in E as [(d1 & E1 & E2) | [_ Hn]]; [|congruence].
  destruct Hin as [[= -> ->]|Hin]; [|eapply IH; eauto].
  pose proof (mono_for_each
                (fun d (item : cell * list (Rule * cell)) =>
                   for_each (seed_rule self (fst item)) (snd item) d) items
                (fun item => mono_for_each (seed_rule self (fst item)) (snd item)
                               (fun x => seed_rule_mono self (fst item) x)) d1)
    as Hs.
  rewrite E2 in Hs; cbn [fst] in Hs.
  destruct (seed_entries_parity self k l d d1 entry E1 He) as (Hk & Hev & Hod).
  split; [|split].
  - intros Hn. apply Hk. destruct (lookup d1 k) eqn:El; [|reflexivity].
    destruct (shrinks_lookup_Some _ _ _ _ Hs El) as (? & ? & _). congruence.
  - intros H w Hw. apply (Hev H). eapply shrinks_cand; eauto.
  - intros H w Hw. apply (Hod H). eapply shrinks_cand; eauto.
Qed.

(** In a grid returned by [solve], each of the four cells of a block marked
    ["e"] holds an even value, and each of the four cells of a block marked
    ["o"] an odd one. *)
Theorem solve_respects_parity
    (p : Puzzle) (g : grid) (x y : Z) (rule : Rule) (c c' : cell) :
  solve p = Ok g -> In ((x, y), rule) (rules p) -> In (c, c') (block_pairs x y) ->
  exists v, lookup g c = Some v
            /\ (op rule = "e"%string -> v mod 2 = 0)
            /\ (op rule = "o"%string -> v mod 2 = 1).
Proof.
  intros E Hr Hb.
  assert (In (rule, c') (entries (create_rulesets p) c)) as Hent
    by (apply In_create_rulesets; eauto).
  unfold entries in Hent.
  destruct (lookup (create_rulesets p) c) as [l|] eqn:El; [|destruct Hent].
  apply lookup_In in El.
  apply solve_Ok_inv in E as (ds & d' & Hset & Hs & Hso & ->).
  unfold setup in Hset.
  destruct (seed (Solver_init p) (initial_possibles (Solver_init p)))
    as [d1 [[]|e|]] eqn:Es; try discriminate.
  pose proof (apply_givens_mono (Solver_init p) (enough_fuel (Solver_init p)) d1)
    as Hg. rewrite Hset in Hg. cbn [fst] in Hg.
  pose proof (shrinks_trans _ _ _ Hg Hs) as H1.
  unfold seed in Es. cbn [rule_constraints Solver_init] in Es.
  destruct (seed_items_parity _ _ _ _ c l (rule, c') Es El Hent) as (Hk & He & Ho).
  cbn [fst] in He, Ho.
  destruct (lookup d1 c) as [l1|] eqn:El1; [|congruence].
  destruct (shrinks_lookup_Some _ _ _ _ H1 El1) as (l' & El' & _).
  destruct (solved_lookup _ _ _ Hso El') as (v & ->).
  exists v. rewrite lookup_grid_of, El'. split; [reflexivity|].
  assert (In v (cand d1 c)) as Hv.
  { apply (shrinks_cand _ _ _ _ H1). unfold cand. rewrite El'. left; reflexivity. }
  split; intros H; auto.
Qed.

Lemma solve_respects_parity_witness :
  solve EXAMPLE_2 = Ok EXAMPLE_2_grid
  /\ In ((1, 1), mkRule "o" 0) (rules EXAMPLE_2)
  /\ In ((2, 1), (1, 2)) (block_pairs 1 1)
  /\ exists v, lookup EXAMPLE_2_grid (2, 1) = Some v
               /\ (op (mkRule "o" 0) = "e"%string -> v mod 2 = 0)
               /\ (op (mkRule "o" 0) = "o"%string -> v mod 2 = 1).
Proof.
  assert (solve EXAMPLE_2 = Ok EXAMPLE_2_grid) as H1 by (vm_compute; reflexivity).
  assert (In ((1, 1), mkRule "o" 0) (rules EXAMPLE_2)) as H2 by (simpl; auto).
  assert (In ((2, 1), (1, 2)) (block_pairs 1 1)) as H3 by (simpl; auto).
  repeat (split; [assumption|]).
  exact (solve_respects_parity EXAMPLE_2 EXAMPLE_2_grid 1 1 (mkRule "o" 0)
           (2, 1) (1, 2) H1 H2 H3).
Defined.

(** ** search *)


(** When no cell has more than one candidate and the state is not solved
    (some cell has none), [search] raises the [ValueError] of [min] on an
    empty sequence, not [Contradiction], and allocates nothing. *)
Theorem search_no_choice (self : Solver) (fuel : nat) (h : heap) (r : nat) :
  solved (deref h r) = false -> no_choice (deref h r) = true ->
  search self (S fuel) h r = (h, Raise ValueError_min_empty).
Proof.
  intros Hs Hn. simpl. unfold search_body. rewrite Hs.
  rewrite filter_none; [reflexivity|].
  intros k Hk. apply Nat.ltb_ge. unfold len_at.
  destruct (lookup (deref h r) k) as [l|] eqn:El; [|lia].
  apply lookup_In in El. unfold no_choice in Hn. rewrite forallb_forall in Hn.
  apply Hn in El. apply Nat.leb_le in El. exact El.
Qed.

Lemma search_no_choice_witness :
  solved (deref [all_empty] 0) = false /\ no_choice (deref [all_empty] 0) = true
  /\ search (Solver_init (sum_hundred 1)) 1 [all_empty] 0
     = ([all_empty], Raise ValueError_min_empty).
Proof.
  assert (solved (deref [all_empty] 0) = false) as H1 by reflexivity.
  assert (no_choice (deref [all_empty] 0) = true) as H2 by reflexivity.
  repeat (split; [assumption|]).
  exact (search_no_choice (Solver_init (sum_hundred 1)) 0 [all_empty] 0 H1 H2).
Defined.

(** A grid returned by [search] has the keys of the state [search] was
    given, and maps each of them to one of the candidates it had there. *)
Theorem search_picks_candidates
    (self : Solver) (fuel : nat) (h : heap) (r : nat) (h' : heap) (g : grid) :
  (r < List.length h)%nat -> search self fuel h r = (h', Ok g) ->
  map fst g = map fst (deref h r)
  /\ forall c, In c (map fst g) ->
               exists x, lookup g c = Some x /\ In x (cand (deref h r) c).
Proof.
  intros Hr E. destruct (search_result self fuel h r h' g Hr E)
    as (d' & Hs & Hso & ->).
  rewrite grid_of_keys, (shrinks_keys _ _ Hs). split; [reflexivity|].
  intros c Hc. rewrite <- (shrinks_keys _ _ Hs) in Hc.
  apply lookup_keys in Hc. destruct (lookup d' c) as [l'|] eqn:El'; [|congruence].
  destruct (solved_lookup _ _ _ Hso El') as (x & ->).
  exists x. rewrite lookup_grid_of, El'. split; [reflexivity|].
  apply (shrinks_cand _ _ _ _ Hs). unfold cand. rewrite El'. left; reflexivity.
Qed.

Lemma search_picks_candidates_witness :
  (0 < List.length [empty_two_state])%nat
  /\ search empty_two_solver 9 [empty_two_state] 0
     = ([empty_two_state;
         [((0, 0), [1]); ((0, 1), [2]); ((1, 0), [2]); ((1, 1), [1])]],
        Ok [((0, 0), 1); ((0, 1), 2); ((1, 0), 2); ((1, 1), 1)])
  /\ map fst [((0, 0), 1); ((0, 1), 2); ((1, 0), 2); ((1, 1), 1)]
     = map fst (deref [empty_two_state] 0)
  /\ forall c, In c (map fst [((0, 0), 1); ((0, 1), 2); ((1, 0), 2); ((1, 1), 1)]) ->
               exists x,
                 lookup [((0, 0), 1); ((0, 1), 2); ((1, 0), 2); ((1, 1), 1)] c
                 = Some x
                 /\ In x (cand (deref [empty_two_state] 0) c).
Proof.
  assert (0 < List.length [empty_two_state])%nat as H1 by (simpl; lia).
  assert (search empty_two_solver 9 [empty_two_state] 0
          = ([empty_two_state;
              [((0, 0), [1]); ((0, 1), [2]); ((1, 0), [2]); ((1, 1), [1])]],
             Ok [((0, 0), 1); ((0, 1), 2); ((1, 0), 2); ((1, 1), 1)])) as H2
    by (vm_compute; reflexivity).
  split; [exact H1|]. split; [exact H2|].
  exact (search_picks_candidates empty_two_solver 9 [empty_two_state] 0 _ _ H1 H2).
Defined.

(** ** solve: the shape of what it returns *)

(** A grid returned by [solve] has the cells of the grid as its keys, in the
    order of [self.cells], and maps each to a value of [1, N]. *)
Theorem solve_grid_shape (p : Puzzle) (g : grid) :
  solve p = Ok g ->
  map fst g = cells (size p)
  /\ forall c x, lookup g c = Some x -> 1 <= x <= size p.
Proof.
  intros E. split; [apply solve_total; exact E|].
  intros c x Hl. exact (proj2 (solve_in_range p g c x E Hl)).
Qed.

Lemma solve_grid_shape_witness :
  solve EXAMPLE = Ok EXAMPLE_grid
  /\ map fst EXAMPLE_grid = cells (size EXAMPLE)
  /\ forall c x, lookup EXAMPLE_grid c = Some x -> 1 <= x <= size EXAMPLE.
Proof.
  assert (solve EXAMPLE = Ok EXAMPLE_grid) as H by (vm_compute; reflexivity).
  split; [exact H|]. exact (solve_grid_shape EXAMPLE EXAMPLE_grid H).
Defined.

Lemma range_nonpositive n : n <= 0 -> range n = [].
Proof.
  intros H. unfold range. replace (Z.to_nat n) with 0%nat by lia. reflexivity.
Qed.

Lemma seed_rule_empty self k entry :
  seed_rule self k [] entry = ([], Raise KeyError).
Proof.
  unfold seed_rule. destruct entry as [rule partner]. simpl.
  destruct (String.eqb (op rule) "e"); [reflexivity|].
  destruct (String.eqb (op rule) "o"); reflexivity.
Qed.

Lemma create_rulesets_first p kr rs :
  rules p = kr :: rs ->
  exists k e l items, create_rulesets p = (k, e :: l) :: items.
Proof.
  intros Hr. unfold create_rulesets.
  destruct (fold_add_rule (rules p) []) as (I1 & _ & I3); [intros ? ? []|].
  destruct kr as [[x y] rule].
  assert (In (x, y) (map fst (fold_left add_rule (rules p) []))) as Hk.
  { apply (I3 x y rule); [rewrite Hr; left; reflexivity | left; reflexivity]. }
  destruct (fold_left add_rule (rules p) []) as [|[k l] items]; [destruct Hk|].
  destruct l as [|e l]; [exfalso; apply (I1 k []); [left|]; reflexivity|].
  eauto.
Qed.

(** On a grid of size 0 or less there is no cell: [solve] returns the empty
    grid if the puzzle declares no rule and no given, and raises [KeyError]
    otherwise. *)
Theorem solve_without_cells (p : Puzzle) :
  size p <= 0 ->
  solve p = match rules p, givens p with
            | [], [] => Ok []
            | _, _ => Raise KeyError
            end.
Proof.
  intros Hn.
  assert (initial_possibles (Solver_init p) = []) as Hi.
  { unfold initial_possibles, cells. cbn [puzzle Solver_init].
    rewrite (range_nonpositive _ Hn). reflexivity. }
  unfold solve, Solver_solve, solve_with, setup. rewrite Hi.
  destruct (rules p) as [|kr rs] eqn:Hr.
  - unfold seed. cbn [rule_constraints Solver_init]. unfold create_rulesets.
    rewrite Hr. cbn [fold_left for_each]. unfold apply_givens.
    cbn [puzzle Solver_init].
    destruct (givens p) as [|[c v] gs]; [reflexivity|].
    cbn [for_each fst snd]. unfold assign_value, assign_body. reflexivity.
  - destruct (create_rulesets_first p kr rs Hr) as (k & e & l & items & Hc).
    unfold seed. cbn [rule_constraints Solver_init]. rewrite Hc.
    cbn [for_each fst snd]. rewrite seed_rule_empty. reflexivity.
Qed.

Lemma solve_without_cells_witness :
  size (mkPuzzle 0 [] [((0, 0), 1)]) <= 0
  /\ solve (mkPuzzle 0 [] [((0, 0), 1)])
     = match rules (mkPuzzle 0 [] [((0, 0), 1)]),
             givens (mkPuzzle 0 [] [((0, 0), 1)]) with
       | [], [] => Ok []
       | _, _ => Raise KeyError
       end.
Proof.
  assert (size (mkPuzzle 0 [] [((0, 0), 1)]) <= 0) as H by (simpl; lia).
  split; [exact H|]. exact (solve_without_cells _ H).
Defined.

(** ** stringify_grid *)

Lemma max_by_spec key l :
  match max_by key l with
  | None => l = []
  | Some m => In m l /\ forall c, In c l -> key c <= key m
  end.
Proof.
  induction l as [|c l IH]; simpl; [reflexivity|].
  destruct (max_by key l) as [m|].
  - destruct IH as [Hm Hle]. destruct (Z.ltb_spec (key c) (key m)).
    + split; [auto|]. intros x [<-|Hx]; [lia | auto].
    + split; [auto|]. intros x [<-|Hx]; [lia|]. specialize (Hle x Hx). lia.
  - subst l. split; [auto|]. intros x [<-|[]]. lia.
Qed.

Lemma length_range n : List.length (range n) = Z.to_nat n.
Proof. unfold range. rewrite length_map, length_seq. reflexivity. Qed.

Lemma nth_map_seq {A : Type} (f : Z -> A) (d : A) len :
  forall s k, (k < len)%nat ->
    nth k (map f (map Z.of_nat (seq s len))) d = f (Z.of_nat (s + k)).
Proof.
  induction len as [|len IH]; intros s k Hk; [lia|].
  destruct k as [|k]; simpl.
  - rewrite Nat.add_0_r. reflexivity.
  - rewrite IH by lia. f_equal. lia.
Qed.

Lemma set_nth_map_seq {A : Type} (f : Z -> A) (a : A) len :
  forall s k, (k < len)%nat ->
    set_nth (map f (map Z.of_nat (seq s len))) k a
    = map (fun i => if i =? Z.of_nat (s + k) then a else f i)
        (map Z.of_nat (seq s len)).
Proof.
  induction len as [|len IH]; intros s k Hk; [lia|].
  destruct k as [|k]; simpl.
  - rewrite Nat.add_0_r, Z.eqb_refl. f_equal.
    rewrite !map_map. apply map_ext_in. intros i Hi. apply in_seq in Hi.
    destruct (Z.eqb_spec (Z.of_nat i) (Z.of_nat s)); [lia | reflexivity].
  - destruct (Z.eqb_spec (Z.of_nat s) (Z.of_nat (s + S k))); [lia|].
    f_equal. rewrite IH by lia. replace (S s + k)%nat with (s + S k)%nat by lia.
    reflexivity.
Qed.

Lemma py_index_inside len i :
  0 <= i < Z.of_nat len -> py_index len i = Some (Z.to_nat i).
Proof.
  intros H. unfold py_index.
  destruct (Z.leb_spec 0 i); [|lia]. destruct (Z.ltb_spec i (Z.of_nat len)); [|lia].
  reflexivity.
Qed.

Lemma matrix_ext n P Q g : (forall c, P c = Q c) -> matrix n P g = matrix n Q g.
Proof.
  intros H. unfold matrix. apply map_ext. intros y. apply map_ext. intros x.
  rewrite H. reflexivity.
Qed.

Lemma nth_map_range {A : Type} (f : Z -> A) (d : A) n i :
  0 <= i < n -> nth (Z.to_nat i) (map f (range n)) d = f i.
Proof.
  intros H. unfold range. rewrite nth_map_seq by lia.
  rewrite Nat.add_0_l, Z2Nat.id by lia. reflexivity.
Qed.

Lemma set_nth_map_range {A : Type} (f : Z -> A) (a : A) n i :
  0 <= i < n ->
  set_nth (map f (range n)) (Z.to_nat i) a
  = map (fun j => if j =? i then a else f j) (range n).
Proof.
  intros H. unfold range. rewrite set_nth_map_seq by lia.
  rewrite Nat.add_0_l, Z2Nat.id by lia. reflexivity.
Qed.

Lemma set_entry_matrix n P g y x s :
  0 <= y < n -> 0 <= x < n -> s = str_of_int (value_at g (y, x)) ->
  set_entry (matrix n P g) y x s
  = Some (matrix n (fun c => cell_eqb (y, x) c || P c) g).
Proof.
  intros Hy Hx ->. unfold set_entry.
  assert (List.length (matrix n P g) = Z.to_nat n) as Hl
    by (unfold matrix; rewrite length_map; apply length_range).
  assert (nth (Z.to_nat y) (matrix n P g) []
          = map (fun x0 => if P (y, x0) then str_of_int (value_at g (y, x0))
                           else "."%string) (range n)) as Hrow
    by (unfold matrix;
        exact (nth_map_range
                 (fun y0 => map (fun x0 => if P (y0, x0)
                                           then str_of_int (value_at g (y0, x0))
                                           else "."%string) (range n))
                 [] n y Hy)).
  rewrite Hl, py_index_inside by lia. cbv zeta. rewrite !Hrow.
  rewrite length_map, length_range, py_index_inside by lia.
  unfold matrix at 1. rewrite !set_nth_map_range by lia. f_equal. unfold matrix.
  apply map_ext. intros i. unfold cell_eqb. cbn [fst snd].
  rewrite (Z.eqb_sym i y). destruct (Z.eqb_spec y i) as [->|Hne].
  - apply map_ext. intros j. rewrite (Z.eqb_sym j x). cbn [andb].
    destruct (x =? j) eqn:E; [|reflexivity].
    apply Z.eqb_eq in E. subst j. reflexivity.
  - reflexivity.
Qed.

Lemma fill_matrix n g ks :
  forall P,
    (forall c, In c ks -> In c (cells n)) ->
    fill g ks (matrix n P g) = Some (matrix n (fun c => cell_mem c ks || P c) g).
Proof.
  induction ks as [|[y x] ks IH]; intros P Hks; simpl; [reflexivity|].
  assert (In (y, x) (cells n)) as Hc by (apply Hks; left; reflexivity).
  apply In_cells in Hc. cbn [fst snd] in Hc.
  rewrite (set_entry_matrix n P g y x) by (tauto || reflexivity).
  rewrite IH by (intros c H; apply Hks; right; exact H).
  f_equal. apply matrix_ext. intros c.
  replace (cell_eqb c (y, x)) with (cell_eqb (y, x) c).
  - destruct (cell_eqb (y, x) c), (cell_mem c ks), (P c); reflexivity.
  - destruct (cell_eqb (y, x) c) eqn:E.
    + apply cell_eqb_eq in E; subst. symmetry; apply cell_eqb_refl.
    + symmetry. apply cell_eqb_neq. apply cell_eqb_neq in E. congruence.
Qed.

Lemma map_const_repeat {A B : Type} (a : B) (l : list A) :
  map (fun _ => a) l = repeat a (List.length l).
Proof. induction l; simpl; congruence. Qed.

Lemma stringify_grid_rows (n : Z) (g : grid) :
  1 <= n -> (forall c, In c (map fst g) <-> In c (cells n)) ->
  stringify_grid g
  = Rendered (String.concat newline (map (row_text g n) (range n))).
Proof.
  intros Hn Hk. unfold stringify_grid.
  assert (In (n - 1, n - 1) (map fst g)) as Hlast
    by (apply Hk, In_cells; simpl; lia).
  pose proof (max_by_spec fst (map fst g)) as Hy.
  pose proof (max_by_spec snd (map fst g)) as Hx.
  destruct (max_by fst (map fst g)) as [ky|]; [|rewrite Hy in Hlast; destruct Hlast].
  destruct (max_by snd (map fst g)) as [kx|]; [|rewrite Hx in Hlast; destruct Hlast].
  destruct Hy as [Hyin Hymax], Hx as [Hxin Hxmax].
  apply Hk, In_cells in Hyin. apply Hk, In_cells in Hxin.
  specialize (Hymax _ Hlast). specialize (Hxmax _ Hlast). cbn [fst snd] in *.
  replace (fst ky + 1) with n by lia. replace (snd kx + 1) with n by lia.
  assert (map (fun _ : Z => repeat "."%string (Z.to_nat n)) (range n)
          = matrix n (fun _ => false) g) as ->.
  { unfold matrix. apply map_ext. intros y.
    rewrite <- length_range. symmetry. apply map_const_repeat. }
  rewrite fill_matrix by (intros c Hc; apply Hk; exact Hc).
  f_equal. f_equal. unfold matrix. rewrite map_map. apply map_ext_in.
  intros y Hy. unfold row_text. f_equal. apply map_ext_in. intros x Hx.
  assert (cell_mem (y, x) (map fst g) = true) as ->; [|reflexivity].
  apply cell_mem_In, Hk. unfold cells. apply In_product. auto.
Qed.

(** On a grid that has a value for each cell of an N by N board, N at least
    1, and for no other cell, [stringify_grid] returns N lines, one for each
    row in order, each the decimal numerals of the values of the row in
    column order; the order in which the dict yields its keys does not
    matter. *)
Theorem stringify_grid_board (n : Z) (g : grid) :
  1 <= n -> (forall c, In c (map fst g) <-> In c (cells n)) ->
  stringify_grid g
  = Rendered (String.concat newline (map (row_text g n) (range n))).
Proof. exact (stringify_grid_rows n g). Qed.

Lemma stringify_grid_board_witness :
  1 <= 6 /\ (forall c, In c (map fst EXAMPLE_grid) <-> In c (cells 6))
  /\ stringify_grid EXAMPLE_grid = Rendered EXAMPLE_text.
Proof.
  assert (1 <= 6) as H1 by lia.
  assert (forall c, In c (map fst EXAMPLE_grid) <-> In c (cells 6)) as H2
    by (intros c; reflexivity).
  repeat (split; [assumption|]).
  exact (stringify_grid_board 6 EXAMPLE_grid H1 H2).
Defined.
(** ** Junction rules through the propagation *)

Lemma changedb_true d0 d' c :
  changedb d0 d' c = true <->
  exists w, In w (cand d0 c) /\ ~ In w (cand d' c).
Proof.
  unfold changedb. rewrite existsb_exists. split; intros (w & Hw & H); exists w;
    (split; [exact Hw|]).
  - apply negb_true_iff, mem_false in H. exact H.
  - apply negb_true_iff, mem_false. exact H.
Qed.

Lemma unchanged_keeps d d' c a :
  changedb d d' c = false -> In a (cand d c) -> In a (cand d' c).
Proof.
  intros Hc Ha. destruct (in_dec Z.eq_dec a (cand d' c)) as [H|H]; [exact H|].
  assert (changedb d d' c = true) by (apply changedb_true; eauto). congruence.
Qed.

Lemma changedb_split d0 d1 d2 c :
  changedb d0 d2 c = true -> changedb d1 d2 c = false -> changedb d0 d1 c = true.
Proof.
  intros H02 H12. apply changedb_true in H02 as (w & Hw & Hn).
  apply changedb_true. exists w. split; [exact Hw|].
  intros H1. apply Hn. eapply unchanged_keeps; eauto.
Qed.

Lemma partners_narrowed_refl self d : partners_narrowed self d d.
Proof.
  split; [apply keeps_nonempty_refl|]. intros c rule c2 _ _ H.
  apply changedb_true in H as (w & Hw & Hn). contradiction.
Qed.

Lemma narrowed_keep n d d' rule c c2 :
  shrinks d d' -> changedb d d' c = false ->
  narrowed n d rule c c2 -> narrowed n d' rule c c2.
Proof.
  intros Hs Hc H w2 Hw2. apply (shrinks_cand _ _ _ _ Hs) in Hw2.
  destruct (H w2 Hw2) as (a & Ha & Hi). exists a. split; [|exact Hi].
  eapply unchanged_keeps; eauto.
Qed.

Lemma partners_narrowed_trans self d1 d2 d3 :
  partners_narrowed self d1 d2 -> partners_narrowed self d2 d3 ->
  partners_narrowed self d1 d3.
Proof.
  intros [K1 P1] [K2 P2]. split; [eapply keeps_nonempty_trans; eauto|].
  intros c rule c2 He Hb Hc.
  destruct (changedb d2 d3 c) eqn:E23; [apply P2; assumption|].
  apply (narrowed_keep _ d2 d3); [exact (proj1 K2) | exact E23|].
  apply P1; auto. eapply changedb_split; eauto.
Qed.

Lemma check_rule_narrows self fuel i s s' rule c2 :
  check_rule self (eliminate_value self fuel) i s (rule, c2) = (s', Done) ->
  is_parity rule = false ->
  forall w2, In w2 (cand s' c2) ->
             exists a, In a (cand s i) /\ inv_mem (size (puzzle self)) rule a w2.
Proof.
  unfold check_rule. intros E Hb. rewrite Hb in E.
  destruct (lookup s i) as [dom|] eqn:Ei; [|discriminate].
  pose proof (rule_complement_spec rule dom (size (puzzle self))) as Hc.
  destruct (rule_complement rule dom (size (puzzle self))) as [allowed0|e|];
    try discriminate.
  destruct Hc as [_ Hc].
  destruct (lookup s c2) as [dom2|] eqn:E2; [|discriminate].
  set (allowed := filter (fun w => mem w (dedup dom2)) allowed0) in *.
  destruct allowed as [|a0 al] eqn:Ea; [discriminate|]. rewrite <- Ea in E.
  intros w2 Hw2.
  pose proof (mono_for_each (fun d v2 => eliminate_value self fuel d c2 v2)
                (filter (fun w => negb (mem w allowed)) (dedup dom2))
                (fun x => eliminate_value_mono self fuel c2 x) s) as Hs.
  rewrite E in Hs; cbn [fst] in Hs.
  assert (In w2 dom2) as Hd2.
  { apply (shrinks_cand _ _ _ _ Hs) in Hw2. unfold cand in Hw2.
    rewrite E2 in Hw2. exact Hw2. }
  assert (In w2 allowed) as Hal.
  { destruct (in_dec Z.eq_dec w2 allowed) as [H|H]; [exact H|exfalso].
    unfold cand in Hw2. destruct (lookup s' c2) as [l'|] eqn:El'; [|destruct Hw2].
    eapply (for_each_eliminate_removes self fuel c2); [exact E | exact El' | | exact Hw2].
    apply filter_In. split; [apply In_dedup; exact Hd2|].
    apply negb_true_iff, mem_false. exact H. }
  unfold allowed in Hal. apply filter_In in Hal as [Hal _].
  apply Hc in Hal as (a & s0 & Ha & Es & Hw).
  exists a. unfold cand. rewrite Ei. split; [exact Ha|]. exists s0. auto.
Qed.

Lemma check_rules_narrows self fuel i es :
  forall s s' rule c2,
    for_each (check_rule self (eliminate_value self fuel) i) es s = (s', Done) ->
    In (rule, c2) es -> is_parity rule = false ->
    forall w2, In w2 (cand s' c2) ->
               exists a, In a (cand s i) /\ inv_mem (size (puzzle self)) rule a w2.
Proof.
  induction es as [|e0 es IH]; intros s s' rule c2 E Hin Hb w2 Hw2; [destruct Hin|].
  simpl in E. apply and_then_inv in E as [(s1 & E1 & E2) | [_ Hn]]; [|congruence].
  pose proof (mono_check_rule self (eliminate_value self fuel)
                (eliminate_value_mono self fuel) i e0 s) as H01.
  cbv beta in H01. rewrite E1 in H01; cbn [fst] in H01.
  destruct Hin as [->|Hin].
  - pose proof (mono_for_each (check_rule self (eliminate_value self fuel) i) es
                  (fun x => mono_check_rule self (eliminate_value self fuel)
                              (eliminate_value_mono self fuel) i x) s1) as H1.
    rewrite E2 in H1; cbn [fst] in H1.
    apply (shrinks_cand _ _ _ _ H1) in Hw2.
    exact (check_rule_narrows self fuel i s s1 rule c2 E1 Hb w2 Hw2).
  - destruct (IH s1 s' rule c2 E2 Hin Hb w2 Hw2) as (a & Ha & Hi).
    exists a. split; [|exact Hi]. eapply shrinks_cand; eauto.
Qed.

Section PartnersNarrowed.
Variable self : Solver.
Variable fuel : nat.

Let elim := eliminate_value self fuel.

Hypothesis elim_narrowed : forall i v,
  preserves (partners_narrowed self) (fun o => o = Done) (fun d => elim d i v).

Lemma eliminate_body_narrowed i v :
  preserves (partners_narrowed self) (fun o => o = Done)
    (fun d => eliminate_body self elim d i v).
Proof.
  intros d d' o E ->. unfold eliminate_body in E.
  destruct (lookup d i) as [dom|] eqn:El; [|discriminate].
  destruct (mem v dom) eqn:Em; cbn [negb] in E;
    [|injection E as <-; apply partners_narrowed_refl].
  apply mem_In in Em as Hin. set (d1 := set_item d i (without v dom)) in *.
  unfold propagate in E.
  apply and_then_inv in E as [(d2 & E1 & E) | [_ Hn]]; [|congruence].
  apply and_then_inv in E as [(d3 & E2 & E3) | [_ Hn]]; [|congruence].
  assert (without v dom <> []) as Hne.
  { intros Hw. unfold check_length in E1. unfold d1 in E1.
    rewrite lookup_set_item_same, Hw in E1. discriminate. }
  assert (keeps_nonempty d d1) as K01 by (apply keeps_nonempty_remove; auto).
  assert (partners_narrowed self d1 d2) as K12.
  { exact (preserves_check_length self (partners_narrowed self) (fun o => o = Done)
             (partners_narrowed_refl self) (partners_narrowed_trans self) eq_refl
             elim elim_narrowed i d1 d2 Done E1 eq_refl). }
  assert (partners_narrowed self d2 d3) as K23.
  { exact (preserves_check_units self (partners_narrowed self) (fun o => o = Done)
             (partners_narrowed_refl self) (partners_narrowed_trans self) eq_refl
             elim elim_narrowed i v d2 d3 Done E2 eq_refl). }
  assert (partners_narrowed self d3 d') as K3.
  { exact (preserves_check_rules self (partners_narrowed self) (fun o => o = Done)
             (partners_narrowed_refl self) (partners_narrowed_trans self) eq_refl
             elim elim_narrowed i d3 d' Done E3 eq_refl). }
  pose proof (partners_narrowed_trans self _ _ _ K12 K23) as K13.
  pose proof (partners_narrowed_trans self _ _ _ K13 K3) as K1.
  split; [eapply keeps_nonempty_trans; [exact K01 | exact (proj1 K1)]|].
  intros c rule c2 He Hb Hc.
  destruct (changedb d1 d' c) eqn:E1'; [exact (proj2 K1 c rule c2 He Hb E1')|].
  assert (c = i) as ->.
  { destruct (cell_eq_dec i c) as [Hic|Hic]; [congruence|]. exfalso.
    apply changedb_true in Hc as (w & Hw & Hn). apply Hn.
    apply (unchanged_keeps d1 d' c w E1'). unfold d1, cand.
    rewrite lookup_set_item_other by exact Hic. exact Hw. }
  unfold check_rules in E3. unfold entries in He.
  destruct (lookup (rule_constraints self) i) as [es|]; [|destruct He].
  intros w2 Hw2.
  destruct (check_rules_narrows self fuel i es d3 d' rule c2 E3 He Hb w2 Hw2)
    as (a & Ha & Hi).
  exists a. split; [|exact Hi].
  apply (unchanged_keeps d1 d' i a E1').
  eapply shrinks_cand; [exact (proj1 (proj1 K13)) | exact Ha].
Qed.
End PartnersNarrowed.

Lemma eliminate_value_narrowed self fuel i v :
  preserves (partners_narrowed self) (fun o => o = Done)
    (fun d => eliminate_value self fuel d i v).
Proof.
  revert i v; induction fuel as [|fuel IH]; intros i v.
  - intros d d' o E ->. discriminate.
  - simpl. apply eliminate_body_narrowed. exact IH.
Qed.

Lemma assign_value_narrowed self fuel i v :
  preserves (partners_narrowed self) (fun o => o = Done)
    (fun d => assign_value self fuel d i v).
Proof.
  apply preserves_assign_body.
  - apply partners_narrowed_refl.
  - apply partners_narrowed_trans.
  - reflexivity.
  - intros; apply eliminate_value_narrowed.
Qed.

Lemma resolved_to_In d c a : resolved_to d c a -> In a (cand d c).
Proof.
  intros [Hne Ha]. destruct (cand d c) as [|x l]; [congruence|].
  left. apply Ha. left; reflexivity.
Qed.

(** The invariant on pairs is kept by every step that narrows partners,
    provided the rule-constraint map is symmetric. *)
Lemma pairs_ok_step self d d' :
  (forall c c2 rule,
     In (rule, c2) (entries (rule_constraints self) c) ->
     In (rule, c) (entries (rule_constraints self) c2)) ->
  pairs_ok self d -> partners_narrowed self d d' -> pairs_ok self d'.
Proof.
  intros Hsym Hd [Hk Hn] c rule c2 a b He Hb Ha Hb2.
  destruct (changedb d d' c) eqn:Ec.
  - left. destruct (Hn c rule c2 He Hb Ec b (resolved_to_In _ _ _ Hb2))
      as (a' & Ha' & Hi).
    rewrite <- (proj2 Ha a' Ha'). exact Hi.
  - destruct (changedb d d' c2) eqn:Ec2.
    + right. destruct (Hn c2 rule c (Hsym _ _ _ He) Hb Ec2 a (resolved_to_In _ _ _ Ha))
        as (b' & Hb' & Hi).
      rewrite <- (proj2 Hb2 b' Hb'). exact Hi.
    + apply (Hd c rule c2 a b He Hb).
      * split.
        -- intros H0. apply (proj1 Ha).
           destruct (cand d' c) as [|x l] eqn:E; [reflexivity|].
           assert (In x (cand d c)) as Hx
               by (eapply shrinks_cand; [exact (proj1 Hk) | rewrite E; left; reflexivity]).
           rewrite H0 in Hx. destruct Hx.
        -- intros x Hx. apply (proj2 Ha). eapply unchanged_keeps; eauto.
      * split.
        -- intros H0. apply (proj1 Hb2).
           destruct (cand d' c2) as [|x l] eqn:E; [reflexivity|].
           assert (In x (cand d c2)) as Hx
               by (eapply shrinks_cand; [exact (proj1 Hk) | rewrite E; left; reflexivity]).
           rewrite H0 in Hx. destruct Hx.
        -- intros x Hx. apply (proj2 Hb2). eapply unchanged_keeps; eauto.
Qed.

(** ** Junction rules through the seeding pass *)

Lemma for_each_app {A : Type} (body : dict -> A -> dict * outcome) xs ys d :
  for_each body (xs ++ ys) d = and_then (for_each body xs d) (for_each body ys).
Proof.
  revert d; induction xs as [|x xs IH]; intros d; simpl.
  - reflexivity.
  - destruct (body d x) as [d1 [[]|e|]]; simpl; auto.
Qed.

Lemma seed_rule_frame self k s e s' c :
  seed_rule self k s e = (s', Done) -> c <> k -> cand s' c = cand s c.
Proof.
  unfold seed_rule. destruct e as [rule partner]. intros E Hne.
  assert (forall l, cand (set_item s k l) c = cand s c) as K.
  { intros l. unfold cand. rewrite lookup_set_item_other by congruence.
    reflexivity. }
  destruct (String.eqb (op rule) "e").
  { destruct (lookup s k); [|discriminate]. injection E as <-. apply K. }
  destruct (String.eqb (op rule) "o").
  { destruct (lookup s k); [|discriminate]. injection E as <-. apply K. }
  destruct (lookup s partner); [|discriminate].
  destruct (rule_complement _ _ _); try discriminate.
  destruct (lookup s k); [|discriminate]. injection E as <-. apply K.
Qed.

Lemma seed_entries_frame self k l :
  forall s s' c,
    for_each (seed_rule self k) l s = (s', Done) -> c <> k ->
    cand s' c = cand s c.
Proof.
  induction l as [|e l IH]; intros s s' c E Hne; simpl in E.
  - injection E as <-. reflexivity.
  - apply and_then_inv in E as [(s1 & E1 & E2) | [_ Hn]]; [|congruence].
    rewrite (IH s1 s' c E2 Hne). eapply seed_rule_frame; eauto.
Qed.

Lemma seed_items_frame self (items : ruleset) :
  forall s s' c,
    for_each (fun d (item : cell * list (Rule * cell)) =>
                for_each (seed_rule self (fst item)) (snd item) d) items s
    = (s', Done) ->
    ~ In c (map fst items) -> cand s' c = cand s c.
Proof.
  induction items as [|[k l] items IH]; intros s s' c E Hc; simpl in E.
  - injection E as <-. reflexivity.
  - apply and_then_inv in E as [(s1 & E1 & E2) | [_ Hn]]; [|congruence].
    simpl in Hc. rewrite (IH s1 s' c E2) by tauto. cbn [fst snd] in E1.
    apply (seed_entries_frame self k l s s1 c E1). intros ->. tauto.
Qed.

Lemma seed_rule_narrows self k s rule c s' :
  seed_rule self k s (rule, c) = (s', Done) -> is_parity rule = false ->
  forall w, In w (cand s' k) ->
            exists a, In a (cand s c) /\ inv_mem (size (puzzle self)) rule a w.
Proof.
  unfold seed_rule, is_parity. intros E Hb. apply orb_false_iff in Hb as [He Ho].
  rewrite He, Ho in E.
  destruct (lookup s c) as [pdom|] eqn:Ec; [|discriminate].
  pose proof (rule_complement_spec rule pdom (size (puzzle self))) as Hc.
  destruct (rule_complement rule pdom (size (puzzle self))) as [allowed|e|];
    try discriminate.
  destruct Hc as [_ Hc].
  destruct (lookup s k) as [dom|]; [|discriminate]. injection E as <-.
  intros w Hw. unfold cand in Hw. rewrite lookup_set_item_same in Hw.
  apply filter_In in Hw as [_ Hw]. apply mem_In, Hc in Hw as (a & s0 & Ha & Es & Hin).
  exists a. unfold cand. rewrite Ec. split; [exact Ha|]. exists s0. auto.
Qed.

Lemma seed_entries_narrows self k l :
  forall s s' rule c,
    for_each (seed_rule self k) l s = (s', Done) ->
    In (rule, c) l -> is_parity rule = false -> c <> k ->
    forall w, In w (cand s' k) ->
              exists a, In a (cand s c) /\ inv_mem (size (puzzle self)) rule a w.
Proof.
  induction l as [|e l IH]; intros s s' rule c E Hin Hb Hne w Hw; [destruct Hin|].
  simpl in E. apply and_then_inv in E as [(s1 & E1 & E2) | [_ Hn]]; [|congruence].
  destruct Hin as [->|Hin].
  - pose proof (mono_for_each (seed_rule self k) l
                  (fun x => seed_rule_mono self k x) s1) as Hs.
    rewrite E2 in Hs; cbn [fst] in Hs.
    apply (shrinks_cand _ _ _ _ Hs) in Hw.
    exact (seed_rule_narrows self k s rule c s1 E1 Hb w Hw).
  - destruct (IH s1 s' rule c E2 Hin Hb Hne w Hw) as (a & Ha & Hi).
    exists a. split; [|exact Hi].
    rewrite <- (seed_rule_frame self k s e s1 c E1 Hne). exact Ha.
Qed.

(** A cell seeded while its partner is no longer touched is narrowed
    against the partner's final candidates. *)
Lemma seed_items_narrows self (items : ruleset) :
  forall s s' k l rule c,
    for_each (fun d (item : cell * list (Rule * cell)) =>
                for_each (seed_rule self (fst item)) (snd item) d) items s
    = (s', Done) ->
    In (k, l) items -> In (rule, c) l -> is_parity rule = false ->
    ~ In c (map fst items) ->
    narrowed (size (puzzle self)) s' rule c k.
Proof.
  induction items as [|[k0 l0] items IH]; intros s s' k l rule c E Hin He Hb Hc;
    [destruct Hin|].
  simpl in E. apply and_then_inv in E as [(s1 & E1 & E2) | [_ Hn]]; [|congruence].
  cbn [fst snd] in E1. simpl in Hc.
  destruct Hin as [[= -> ->]|Hin].
  - intros w Hw.
    pose proof (mono_for_each
                  (fun d (item : cell * list (Rule * cell)) =>
                     for_each (seed_rule self (fst item)) (snd item) d) items
                  (fun item => mono_for_each (seed_rule self (fst item)) (snd item)
                                 (fun x => seed_rule_mono self (fst item) x)) s1)
      as Hs.
    rewrite E2 in Hs; cbn [fst] in Hs.
    apply (shrinks_cand _ _ _ _ Hs) in Hw.
    assert (c <> k) as Hne by (intros ->; tauto).
    destruct (seed_entries_narrows self k l s s1 rule c E1 He Hb Hne w Hw)
      as (a & Ha & Hi).
    exists a. split; [|exact Hi].
    rewrite (seed_items_frame self items s1 s' c E2) by tauto.
    rewrite (seed_entries_frame self k l s s1 c E1 Hne). exact Ha.
  - eapply IH; eauto.
Qed.

Lemma In_keys_unique {V : Type} (d : list (cell * V)) k v v' :
  NoDup (map fst d) -> In (k, v) d -> In (k, v') d -> v = v'.
Proof.
  induction d as [|[k0 v0] d IH]; intros Hn H1 H2; [destruct H1|].
  simpl in Hn. inversion Hn as [|? ? Hnin Hn']; subst.
  destruct H1 as [[= -> ->]|H1], H2 as [[= <-]|H2]; auto.
  - exfalso. apply Hnin. apply in_map_iff. exists (k, v'). auto.
  - exfalso. subst. apply Hnin. apply in_map_iff. exists (k0, v). auto.
Qed.

Lemma seed_pairs self (items : ruleset) s s' c l c2 l2 rule :
  for_each (fun d (item : cell * list (Rule * cell)) =>
              for_each (seed_rule self (fst item)) (snd item) d) items s
  = (s', Done) ->
  NoDup (map fst items) ->
  In (c, l) items -> In (rule, c2) l ->
  In (c2, l2) items -> In (rule, c) l2 ->
  c <> c2 -> is_parity rule = false ->
  narrowed (size (puzzle self)) s' rule c c2
  \/ narrowed (size (puzzle self)) s' rule c2 c.
Proof.
  intros E Hn Hc He Hc2 He2 Hne Hb.
  destruct (in_split _ _ Hc2) as (m1 & m2 & ->).
  rewrite for_each_app in E.
  apply and_then_inv in E as [(s1 & E1 & E2) | [_ Hn']]; [|congruence].
  rewrite map_app in Hn. apply NoDup_app_remove_l in Hn as Hn2.
  destruct (in_dec cell_eq_dec c (map fst ((c2, l2) :: m2))) as [Hin|Hnin].
  - right. simpl in Hin. destruct Hin as [Hin|Hin]; [congruence|].
    apply in_map_iff in Hin as ([c' l'] & Hk & Hin). cbn [fst] in Hk. subst c'.
    assert (l' = l) as ->.
    { eapply (In_keys_unique (m1 ++ (c2, l2) :: m2)).
      - rewrite map_app. exact Hn.
      - apply in_app_iff. right. right. exact Hin.
      - exact Hc. }
    simpl in E2. apply and_then_inv in E2 as [(s2 & E2a & E2b) | [_ Hn']];
      [|congruence].
    apply (seed_items_narrows self m2 s2 s' c l rule c2 E2b Hin He Hb).
    simpl in Hn2. inversion Hn2; assumption.
  - left.
    apply (seed_items_narrows self ((c2, l2) :: m2) s1 s' c2 l2 rule c E2
             (or_introl eq_refl) He2 Hb Hnin).
Qed.

Lemma set_item_keys_inv {V : Type} (d : list (cell * V)) k v k0 :
  In k0 (map fst (set_item d k v)) -> In k0 (map fst d) \/ k0 = k.
Proof.
  induction d as [|[k1 v1] d IH]; simpl.
  - intros [<-|[]]; auto.
  - destruct (cell_eqb k1 k) eqn:E; simpl; [tauto|].
    intros [<-|H]; [auto|]. destruct (IH H); auto.
Qed.

Lemma set_item_keys_NoDup {V : Type} (d : list (cell * V)) k v :
  NoDup (map fst d) -> NoDup (map fst (set_item d k v)).
Proof.
  induction d as [|[k0 v0] d IH]; intros Hn; simpl.
  - constructor; [intros [] | constructor].
  - destruct (cell_eqb k0 k) eqn:E; [exact Hn|]. simpl.
    simpl in Hn. inversion Hn as [|? ? Hnin Hn']; subst. constructor; [|auto].
    intros Hin. apply set_item_keys_inv in Hin as [Hin | ->]; [auto|].
    apply cell_eqb_neq in E. congruence.
Qed.

Lemma create_rulesets_keys_NoDup p : NoDup (map fst (create_rulesets p)).
Proof.
  unfold create_rulesets.
  assert (forall rs pc, NoDup (map fst pc) ->
                        NoDup (map fst (fold_left add_rule rs pc))) as H.
  { induction rs as [|[[x y] r] rs IH]; intros pc Hn; simpl; [exact Hn|].
    apply IH. unfold add_rule, append_constraint.
    repeat match goal with
           | |- NoDup (map fst (match ?o with _ => _ end)) => destruct o
           | |- NoDup (map fst (set_item _ _ _)) => apply set_item_keys_NoDup
           end; exact Hn. }
  apply H. constructor.
Qed.

Lemma block_pairs_distinct x y c c' : In (c, c') (block_pairs x y) -> c <> c'.
Proof.
  unfold block_pairs. simpl.
  intros [[= <- <-] | [[= <- <-] | [[= <- <-] | [[= <- <-] | []]]]];
    intros [= H1 H2]; lia.
Qed.

Lemma narrowed_pair n d rule c c2 a b :
  narrowed n d rule c c2 -> resolved_to d c a -> resolved_to d c2 b ->
  inv_mem n rule a b.
Proof.
  intros Hn Ha Hb. destruct (Hn b (resolved_to_In _ _ _ Hb)) as (a' & Ha' & Hi).
  rewrite <- (proj2 Ha a' Ha'). exact Hi.
Qed.

(** The state left by the seeding pass satisfies the invariant on pairs. *)
Lemma seed_pairs_ok p d :
  seed (Solver_init p) (initial_possibles (Solver_init p)) = (d, Done) ->
  pairs_ok (Solver_init p) d.
Proof.
  intros E c rule c2 a b He Hb Ha Hb2.
  cbn [rule_constraints Solver_init puzzle] in *.
  pose proof (proj1 (entries_symmetric p c c2 rule) He) as He2.
  pose proof He as Hd. apply In_create_rulesets in Hd as (x & y & _ & Hd).
  apply block_pairs_distinct in Hd.
  unfold entries in He, He2.
  destruct (lookup (create_rulesets p) c) as [l|] eqn:El; [|destruct He].
  destruct (lookup (create_rulesets p) c2) as [l2|] eqn:El2; [|destruct He2].
  apply lookup_In in El, El2. unfold seed in E.
  cbn [rule_constraints Solver_init] in E.
  destruct (seed_pairs (Solver_init p) (create_rulesets p) _ d c l c2 l2 rule E
              (create_rulesets_keys_NoDup p) El He El2 He2 Hd Hb) as [H|H].
  - left. eapply narrowed_pair; eauto.
  - right. eapply narrowed_pair; eauto.
Qed.

Lemma solve_pairs
    (p : Puzzle) (g : grid) (x y : Z) (rule : Rule) (c c' : cell) :
  solve p = Ok g -> In ((x, y), rule) (rules p) -> is_parity rule = false ->
  In (c, c') (block_pairs x y) ->
  exists a b, lookup g c = Some a /\ lookup g c' = Some b
              /\ (inv_mem (size p) rule a b \/ inv_mem (size p) rule b a).
Proof.
  intros E Hr Hb Hbl.
  assert (In (rule, c') (entries (create_rulesets p) c)) as He
    by (apply In_create_rulesets; eauto).
  pose proof (proj1 (entries_symmetric p c c' rule) He) as He2.
  destruct (seed (Solver_init p) (initial_possibles (Solver_init p)))
    as [d1 o] eqn:Es.
  assert (o = Done) as ->.
  { unfold solve, Solver_solve, solve_with, setup in E. rewrite Es in E.
    destruct o as [[]|e|]; [reflexivity | discriminate | discriminate]. }
  destruct (solve_invariant (pairs_ok (Solver_init p)) p d1 g)
    as (d' & Hok & Hs & Hso & ->); auto.
  { intros fuel d0 i v d2 H0 E0. apply (pairs_ok_step _ d0 d2); auto.
    - intros k k2 r. cbn [rule_constraints Solver_init].
      apply entries_symmetric.
    - exact (assign_value_narrowed (Solver_init p) fuel i v d0 d2 Done E0 eq_refl). }
  { apply seed_pairs_ok; exact Es. }
  assert (forall k r k2, In (r, k2) (entries (create_rulesets p) k) ->
                         exists v, lookup d' k = Some [v]) as Hval.
  { intros k r k2 Hk. unfold entries in Hk.
    destruct (lookup (create_rulesets p) k) as [l|] eqn:El; [|destruct Hk].
    apply lookup_In in El. unfold seed in Es.
    cbn [rule_constraints Solver_init] in Es.
    destruct (seed_items_parity _ _ _ _ k l (r, k2) Es El Hk) as (Hkey & _).
    pose proof (seed_mono (Solver_init p) (initial_possibles (Solver_init p)))
      as H0. rewrite <- (surjective_pairing) in H0 || idtac.
    assert (lookup d' k <> None) as Hk'.
    { apply lookup_keys. rewrite (shrinks_keys _ _ Hs).
      unfold seed in H0. cbn [rule_constraints Solver_init] in H0.
      rewrite Es in H0. cbn [fst] in H0. rewrite <- (shrinks_keys _ _ H0).
      apply lookup_keys. exact Hkey. }
    destruct (lookup d' k) as [l'|] eqn:El'; [|congruence].
    destruct (solved_lookup _ _ _ Hso El') as (v & ->). eauto. }
  destruct (Hval c rule c' He) as (a & Ea).
  destruct (Hval c' rule c He2) as (b & Eb).
  exists a, b. rewrite !lookup_grid_of, Ea, Eb. split; [reflexivity|].
  split; [reflexivity|].
  apply (Hok c rule c' a b); auto; unfold resolved_to, cand.
  - rewrite Ea. split; [discriminate | intros z [<-|[]]; reflexivity].
  - rewrite Eb. split; [discriminate | intros z [<-|[]]; reflexivity].
Qed.

(** In a grid returned by [solve], for every declared binary rule and each
    diagonal pair of its block, one value is among the values
    [rule_inverse] returns for the other. *)
Theorem solve_pairs_inverse
    (p : Puzzle) (g : grid) (x y : Z) (rule : Rule) (c c' : cell) :
  solve p = Ok g -> In ((x, y), rule) (rules p) -> is_parity rule = false ->
  In (c, c') (block_pairs x y) ->
  exists a b, lookup g c = Some a /\ lookup g c' = Some b
              /\ (inv_mem (size p) rule a b \/ inv_mem (size p) rule b a).
Proof. exact (solve_pairs p g x y rule c c'). Qed.

Lemma solve_pairs_inverse_witness :
  solve EXAMPLE = Ok EXAMPLE_grid
  /\ In ((0, 0), mkRule "/" 2) (rules EXAMPLE)
  /\ is_parity (mkRule "/" 2) = false
  /\ In ((0, 0), (1, 1)) (block_pairs 0 0)
  /\ exists a b, lookup EXAMPLE_grid (0, 0) = Some a
                 /\ lookup EXAMPLE_grid (1, 1) = Some b
                 /\ (inv_mem (size EXAMPLE) (mkRule "/" 2) a b
                     \/ inv_mem (size EXAMPLE) (mkRule "/" 2) b a).
Proof.
  assert (solve EXAMPLE = Ok EXAMPLE_grid) as H1 by (vm_compute; reflexivity).
  assert (In ((0, 0), mkRule "/" 2) (rules EXAMPLE)) as H2 by (simpl; auto).
  assert (is_parity (mkRule "/" 2) = false) as H3 by reflexivity.
  assert (In ((0, 0), (1, 1)) (block_pairs 0 0)) as H4 by (simpl; auto).
  repeat (split; [assumption|]).
  exact (solve_pairs_inverse EXAMPLE EXAMPLE_grid 0 0 (mkRule "/" 2)
           (0, 0) (1, 1) H1 H2 H3 H4).
Defined.

(** A declared sum rule, and a declared difference rule with a target that
    is not negative, holds on each diagonal pair of its block in every grid
    [solve] returns. *)
Theorem solve_sum_difference_rules
    (p : Puzzle) (g : grid) (x y : Z) (rule : Rule) (c c' : cell) :
  solve p = Ok g -> In ((x, y), rule) (rules p) ->
  op rule = "+"%string \/ (op rule = "-"%string /\ 0 <= value rule) ->
  In (c, c') (block_pairs x y) ->
  pair_holds g rule c c' = true.
Proof.
  intros E Hr Hop Hbl.
  assert (is_parity rule = false) as Hb.
  { unfold is_parity. destruct Hop as [->|[-> _]]; reflexivity. }
  destruct (solve_pairs p g x y rule c c' E Hr Hb Hbl)
    as (a & b & Ea & Eb & Hi).
  unfold pair_holds. rewrite Ea, Eb.
  destruct Hi as [(s & Es & Hin) | (s & Es & Hin)].
  - destruct (rule_inverse_sum_difference_set rule a (size p) Hop) as (s' & Es' & Hs').
    rewrite Es in Es'. injection Es' as <-. apply Hs' in Hin. tauto.
  - destruct (rule_inverse_sum_difference_set rule b (size p) Hop) as (s' & Es' & Hs').
    rewrite Es in Es'. injection Es' as <-. apply Hs' in Hin.
    rewrite rule_holds_sym. tauto.
Qed.

Lemma solve_sum_difference_rules_witness :
  solve EXAMPLE = Ok EXAMPLE_grid
  /\ In ((3, 1), mkRule "+" 8) (rules EXAMPLE)
  /\ (op (mkRule "+" 8) = "+"%string
      \/ (op (mkRule "+" 8) = "-"%string /\ 0 <= value (mkRule "+" 8)))
  /\ In ((3, 1), (4, 2)) (block_pairs 3 1)
  /\ pair_holds EXAMPLE_grid (mkRule "+" 8) (3, 1) (4, 2) = true.
Proof.
  assert (solve EXAMPLE = Ok EXAMPLE_grid) as H1 by (vm_compute; reflexivity).
  assert (In ((3, 1), mkRule "+" 8) (rules EXAMPLE)) as H2 by (simpl; auto 6).
  assert (op (mkRule "+" 8) = "+"%string
          \/ (op (mkRule "+" 8) = "-"%string /\ 0 <= value (mkRule "+" 8)))
    as H3 by (left; reflexivity).
  assert (In ((3, 1), (4, 2)) (block_pairs 3 1)) as H4 by (simpl; auto).
  repeat (split; [assumption|]).
  exact (solve_sum_difference_rules EXAMPLE EXAMPLE_grid 3 1 (mkRule "+" 8)
           (3, 1) (4, 2) H1 H2 H3 H4).
Defined.

(** ** solve followed by stringify_grid *)

(** The grid [solve] returns is one [stringify_grid] renders: N lines, one
    for each row, of the decimal numerals of the row's values.  The one
    exception is the empty grid [solve] returns for a size of 0 or less,
    where [stringify_grid] raises [ValueError] (the maximum of no key). *)
Theorem solve_then_stringify (p : Puzzle) (g : grid) :
  solve p = Ok g ->
  stringify_grid g
  = if 1 <=? size p
    then Rendered (String.concat newline
                     (map (row_text g (size p)) (range (size p))))
    else RenderError ValueError_max_empty.
Proof.
  intros E. pose proof (solve_total p g E) as Hk.
  destruct (1 <=? size p) eqn:Hn.
  - apply stringify_grid_rows; [apply Z.leb_le; exact Hn|].
    intros c. rewrite Hk. reflexivity.
  - apply Z.leb_gt in Hn. unfold stringify_grid. rewrite Hk. unfold cells.
    rewrite (range_nonpositive (size p)) by lia. reflexivity.
Qed.

Lemma solve_then_stringify_witness :
  solve EXAMPLE = Ok EXAMPLE_grid
  /\ stringify_grid EXAMPLE_grid
     = if 1 <=? size EXAMPLE
       then Rendered (String.concat newline
                        (map (row_text EXAMPLE_grid (size EXAMPLE))
                           (range (size EXAMPLE))))
       else RenderError ValueError_max_empty.
Proof.
  assert (solve EXAMPLE = Ok EXAMPLE_grid) as H1 by (vm_compute; reflexivity).
  split; [assumption|].
  exact (solve_then_stringify EXAMPLE EXAMPLE_grid H1).
Defined.
